(** * MotionExtractor: a shallow embedding of src/MotionExtractor.cpp

    The extractor downscales every incoming frame by 2x2 block averaging,
    keeps a tracked image and a reference image gated by per-pixel
    stability timers and records, thresholds the difference of the two
    into a mask and filters the mask by an erosion and a dilation pass.

    Conventions of the embedding:
    - a pixel buffer is the [list Z] of its bytes, row-major, 3 bytes per
      pixel; a pointer into a buffer is the suffix of the list it points
      at, [drop 3] advances it by one pixel;
    - [uint8_t], [unsigned short] and [unsigned int] stores are written
      with their wrap-around ([u8], [u16], [u32]);
    - [double] is the kernel's binary64 [float];
    - a read through a pointer that has left its buffer returns what the
      surrounding memory holds, a function [beyond] the operations take
      as an argument: nothing proved here depends on its values unless
      the statement says so;
    - the benchmarking counters ([lastMark], [detectorFPS],
      [framesCounted]) only sample [clock()] and are never read by the
      detection; they are left out of the state. *)

From Stdlib Require Import ZArith List Lia Bool String.
From Stdlib Require Import Floats.
From stdpp Require Import base list strings gmap.

Open Scope Z_scope.

(** ** Constants and machine integers *)

Definition kDownscaleRatio : nat := 2.
Definition kDownscaleSquare : nat := kDownscaleRatio * kDownscaleRatio.
Definition kBytesPerPixel : nat := 3.

Definition u8 (z : Z) : Z := z mod 256.
Definition u16 (z : Z) : Z := z mod 65536.
Definition u32 (z : Z) : Z := z mod 4294967296.

Definition is_byte (z : Z) : Prop := 0 <= z < 256.

(** ** Frames *)

(** Modelled from the spec: [VideoFrame] is declared in VideoFrame.hpp,
    which is not part of the sources. A frame is its width, height,
    channel count and row-major interleaved pixel buffer; its total size
    is the size of that buffer. *)
Record VideoFrame : Type := mkFrame {
  getWidth : nat;
  getHeight : nat;
  getBytesPerPixel : nat;
  getPixels : list Z
}.

Definition getTotalSize (f : VideoFrame) : nat := length (getPixels f).

Definition withPixels (f : VideoFrame) (px : list Z) : VideoFrame :=
  mkFrame (getWidth f) (getHeight f) (getBytesPerPixel f) px.

(** [buf[i]] for a signed byte offset [i] from the start of [buf]. *)
Definition peek (beyond : Z -> Z) (buf : list Z) (i : Z) : Z :=
  if (0 <=? i) && (i <? Z.of_nat (length buf))
  then nth (Z.to_nat i) buf 0
  else beyond i.

(** ** Doubles *)

(** The integer [ceil d] of a finite double, [None] for an infinity or a
    NaN. *)
Definition ceilZ (d : float) : option Z :=
  match Prim2SF d with
  | S754_zero _ => Some 0
  | S754_finite s m e =>
      let v := if s then Z.neg m else Z.pos m in
      Some (if 0 <=? e then v * 2 ^ e else - ((- v) / 2 ^ (- e)))
  | _ => None
  end.

(** The integer a finite double truncates to (rounding towards zero). *)
Definition truncZ (d : float) : option Z :=
  match Prim2SF d with
  | S754_zero _ => Some 0
  | S754_finite s m e =>
      let v := if s then Z.neg m else Z.pos m in
      Some (if 0 <=? e then v * 2 ^ e else Z.quot v (2 ^ (- e)))
  | _ => None
  end.

(** [(double)z] for an integer below 2^63 in absolute value. *)
Definition Z2double (z : Z) : float :=
  if z <? 0
  then (- PrimFloat.of_uint63 (Uint63.of_Z (- z)))%float
  else PrimFloat.of_uint63 (Uint63.of_Z z).

(** C's [ceil]: a double with a fraction has an exponent below 0 and a
    magnitude below 2^53, so its ceiling converts back exactly; a
    ceiling of 0 keeps the sign of its argument. *)
Definition ceil (d : float) : float :=
  match Prim2SF d with
  | S754_finite s m e =>
      if 0 <=? e then d
      else match ceilZ d with
           | Some 0 => if s then (- 0)%float else 0%float
           | Some c => Z2double c
           | None => d
           end
  | _ => d
  end.

(** [(unsigned int)d]: the truncation of [d] when it lies in
    [0, 2^32). The conversion of any other double is undefined in C++;
    the model wraps it to 32 bits and sends infinities and NaN to 0. *)
Definition double2uint (d : float) : Z :=
  match truncZ d with
  | Some z => u32 z
  | None => 0
  end.

(** Modelled from the spec: [Math::sign] is declared in MKMath.hpp, which
    is not part of the sources; it is the integer sign, -1, 0 or 1. *)
Definition sign (z : Z) : Z := Z.sgn z.

(** ** The extractor's state (MotionExtractor.hpp's data members) *)

Record PixelOffset : Type := mkOffset {
  offX : Z;
  offY : Z;
  offP : Z
}.

Record MotionExtractor : Type := mkExtractor {
  motionMask : VideoFrame;
  fps : float;
  motionThreshold : Z;
  stableCap : Z;
  erosionLevel : Z;
  erodedMask : VideoFrame;
  offs : list PixelOffset;
  currentImage : VideoFrame;
  currentStableTimes : list Z;
  downscaleBuff : VideoFrame;
  downscaleAccumulators : list Z;
  refImage : VideoFrame;
  stableRecords : list Z;
  firstFrame : bool;
  imageWidth : nat;
  imageHeight : nat;
  imageArea : nat;
  imageSize : nat;
  srcLineSize : nat;
  destLineSize : nat
}.

Definition set_motionMask (me : MotionExtractor) (v : VideoFrame) : MotionExtractor :=
  mkExtractor v (fps me) (motionThreshold me) (stableCap me) (erosionLevel me)
    (erodedMask me) (offs me) (currentImage me) (currentStableTimes me)
    (downscaleBuff me) (downscaleAccumulators me) (refImage me) (stableRecords me)
    (firstFrame me) (imageWidth me) (imageHeight me) (imageArea me) (imageSize me)
    (srcLineSize me) (destLineSize me).

Definition set_motionThreshold (me : MotionExtractor) (v : Z) : MotionExtractor :=
  mkExtractor (motionMask me) (fps me) v (stableCap me) (erosionLevel me)
    (erodedMask me) (offs me) (currentImage me) (currentStableTimes me)
    (downscaleBuff me) (downscaleAccumulators me) (refImage me) (stableRecords me)
    (firstFrame me) (imageWidth me) (imageHeight me) (imageArea me) (imageSize me)
    (srcLineSize me) (destLineSize me).

Definition set_stableCap (me : MotionExtractor) (v : Z) : MotionExtractor :=
  mkExtractor (motionMask me) (fps me) (motionThreshold me) v (erosionLevel me)
    (erodedMask me) (offs me) (currentImage me) (currentStableTimes me)
    (downscaleBuff me) (downscaleAccumulators me) (refImage me) (stableRecords me)
    (firstFrame me) (imageWidth me) (imageHeight me) (imageArea me) (imageSize me)
    (srcLineSize me) (destLineSize me).

Definition set_erosionLevel (me : MotionExtractor) (v : Z) : MotionExtractor :=
  mkExtractor (motionMask me) (fps me) (motionThreshold me) (stableCap me) v
    (erodedMask me) (offs me) (currentImage me) (currentStableTimes me)
    (downscaleBuff me) (downscaleAccumulators me) (refImage me) (stableRecords me)
    (firstFrame me) (imageWidth me) (imageHeight me) (imageArea me) (imageSize me)
    (srcLineSize me) (destLineSize me).

Definition set_erodedMask (me : MotionExtractor) (v : VideoFrame) : MotionExtractor :=
  mkExtractor (motionMask me) (fps me) (motionThreshold me) (stableCap me) (erosionLevel me)
    v (offs me) (currentImage me) (currentStableTimes me)
    (downscaleBuff me) (downscaleAccumulators me) (refImage me) (stableRecords me)
    (firstFrame me) (imageWidth me) (imageHeight me) (imageArea me) (imageSize me)
    (srcLineSize me) (destLineSize me).

Definition set_currentImage (me : MotionExtractor) (v : VideoFrame) : MotionExtractor :=
  mkExtractor (motionMask me) (fps me) (motionThreshold me) (stableCap me) (erosionLevel me)
    (erodedMask me) (offs me) v (currentStableTimes me)
    (downscaleBuff me) (downscaleAccumulators me) (refImage me) (stableRecords me)
    (firstFrame me) (imageWidth me) (imageHeight me) (imageArea me) (imageSize me)
    (srcLineSize me) (destLineSize me).

Definition set_currentStableTimes (me : MotionExtractor) (v : list Z) : MotionExtractor :=
  mkExtractor (motionMask me) (fps me) (motionThreshold me) (stableCap me) (erosionLevel me)
    (erodedMask me) (offs me) (currentImage me) v
    (downscaleBuff me) (downscaleAccumulators me) (refImage me) (stableRecords me)
    (firstFrame me) (imageWidth me) (imageHeight me) (imageArea me) (imageSize me)
    (srcLineSize me) (destLineSize me).

Definition set_downscaleBuff (me : MotionExtractor) (v : VideoFrame) : MotionExtractor :=
  mkExtractor (motionMask me) (fps me) (motionThreshold me) (stableCap me) (erosionLevel me)
    (erodedMask me) (offs me) (currentImage me) (currentStableTimes me)
    v (downscaleAccumulators me) (refImage me) (stableRecords me)
    (firstFrame me) (imageWidth me) (imageHeight me) (imageArea me) (imageSize me)
    (srcLineSize me) (destLineSize me).

Definition set_downscaleAccumulators (me : MotionExtractor) (v : list Z) : MotionExtractor :=
  mkExtractor (motionMask me) (fps me) (motionThreshold me) (stableCap me) (erosionLevel me)
    (erodedMask me) (offs me) (currentImage me) (currentStableTimes me)
    (downscaleBuff me) v (refImage me) (stableRecords me)
    (firstFrame me) (imageWidth me) (imageHeight me) (imageArea me) (imageSize me)
    (srcLineSize me) (destLineSize me).

Definition set_refImage (me : MotionExtractor) (v : VideoFrame) : MotionExtractor :=
  mkExtractor (motionMask me) (fps me) (motionThreshold me) (stableCap me) (erosionLevel me)
    (erodedMask me) (offs me) (currentImage me) (currentStableTimes me)
    (downscaleBuff me) (downscaleAccumulators me) v (stableRecords me)
    (firstFrame me) (imageWidth me) (imageHeight me) (imageArea me) (imageSize me)
    (srcLineSize me) (destLineSize me).

Definition set_stableRecords (me : MotionExtractor) (v : list Z) : MotionExtractor :=
  mkExtractor (motionMask me) (fps me) (motionThreshold me) (stableCap me) (erosionLevel me)
    (erodedMask me) (offs me) (currentImage me) (currentStableTimes me)
    (downscaleBuff me) (downscaleAccumulators me) (refImage me) v
    (firstFrame me) (imageWidth me) (imageHeight me) (imageArea me) (imageSize me)
    (srcLineSize me) (destLineSize me).

Definition set_firstFrame (me : MotionExtractor) (v : bool) : MotionExtractor :=
  mkExtractor (motionMask me) (fps me) (motionThreshold me) (stableCap me) (erosionLevel me)
    (erodedMask me) (offs me) (currentImage me) (currentStableTimes me)
    (downscaleBuff me) (downscaleAccumulators me) (refImage me) (stableRecords me)
    v (imageWidth me) (imageHeight me) (imageArea me) (imageSize me)
    (srcLineSize me) (destLineSize me).

(** ** reset (lines 237-245) *)

Definition reset (me : MotionExtractor) : MotionExtractor :=
  let me1 := set_currentStableTimes me (map (fun _ => 0) (currentStableTimes me)) in
  let me2 :=
    set_stableRecords me1
      (map (fun _ => 0) (take (imageArea me1) (stableRecords me1))
         ++ drop (imageArea me1) (stableRecords me1)) in
  set_firstFrame me2 true.

(** ** Construction (lines 19-82) *)

(** What a buffer allocated without initialisation holds: [fresh k i] is
    element [i] of the [k]-th such allocation of the constructor, wrapped
    to the width of the element type. The frames are taken as
    uninitialised whatever the last argument of VideoFrame's constructor
    is; the two vectors are value-initialised by [resize]. *)
Definition uninitialised (wrap : Z -> Z) (fresh : nat -> nat -> Z) (k n : nat) : list Z :=
  map (fun i => wrap (fresh k i)) (seq 0 n).

Definition newVideoFrame (content : nat -> list Z) (w h bpp : nat) : VideoFrame :=
  mkFrame w h bpp (content (w * h * bpp)%nat).

(** The eight neighbour offsets of lines 68-78, for a mask of [bpp] bytes
    per pixel and [width] pixels per row. *)
Definition pixelOffsets (bpp width : nat) : list PixelOffset :=
  let po := Z.of_nat bpp in
  let upOne := - Z.of_nat (bpp * width) in
  [ mkOffset (-1) 0 (- po);
    mkOffset 1 0 po;
    mkOffset (-1) (-1) (upOne - po);
    mkOffset 0 (-1) upOne;
    mkOffset 1 (-1) (upOne + po);
    mkOffset (-1) 1 (upOne - po);
    mkOffset 0 1 upOne;
    mkOffset 1 1 (upOne + po) ].

(** Lines 23-78: the member initialisers and the body of the
    constructor up to its call of [reset]. *)
Definition allocate (fresh : nat -> nat -> Z)
    (frameWidth frameHeight : nat) (videoFPS : float) : MotionExtractor :=
  let imageWidth := (frameWidth / kDownscaleRatio)%nat in
  let imageHeight := (frameHeight / kDownscaleRatio)%nat in
  let srcLineSize := (frameWidth * kBytesPerPixel)%nat in
  let destLineSize := (imageWidth * kBytesPerPixel)%nat in
  let imageArea := (imageWidth * imageHeight)%nat in
  let imageSize := (imageArea * kBytesPerPixel)%nat in
  let currentImage :=
    newVideoFrame (uninitialised u8 fresh 0) imageWidth imageHeight kBytesPerPixel in
  let currentStableTimes := replicate imageArea 0 in
  let downscaleBuff :=
    newVideoFrame (uninitialised u8 fresh 1) imageWidth imageHeight kBytesPerPixel in
  let downscaleAccumulators := replicate imageSize 0 in
  let refImage :=
    newVideoFrame (uninitialised u8 fresh 2) imageWidth imageHeight kBytesPerPixel in
  let stableRecords := uninitialised u32 fresh 3 imageArea in
  let motionMask :=
    newVideoFrame (uninitialised u8 fresh 4) imageWidth imageHeight kBytesPerPixel in
  let erodedMask :=
    newVideoFrame (uninitialised u8 fresh 5) imageWidth imageHeight kBytesPerPixel in
  let offs := pixelOffsets (getBytesPerPixel motionMask) (getWidth motionMask) in
  mkExtractor motionMask videoFPS 26 (double2uint (ceil videoFPS)) 5
    erodedMask offs currentImage currentStableTimes downscaleBuff
    downscaleAccumulators refImage stableRecords true
    imageWidth imageHeight imageArea imageSize srcLineSize destLineSize.

(** Line 81: the constructor ends with [reset()]. *)
Definition MotionExtractor_new (fresh : nat -> nat -> Z)
    (frameWidth frameHeight : nat) (videoFPS : float) : MotionExtractor :=
  reset (allocate fresh frameWidth frameHeight videoFPS).

(** ** The difference test (lines 85-96) *)

(** The loop over the channels, at channel [b] with [n] channels left;
    it leaves at the first channel whose absolute difference exceeds the
    threshold. [pa] and [pb] are the two pixel pointers. *)
Fixpoint differentFrom (motionThreshold : Z) (pa pb : list Z) (b n : nat) : bool :=
  match n with
  | O => false
  | S n' =>
      if Z.abs (nth b pa 0 - nth b pb 0) >? motionThreshold
      then true
      else differentFrom motionThreshold pa pb (S b) n'
  end.

Definition pixelIsDifferent (motionThreshold : Z) (pa pb : list Z) : bool :=
  differentFrom motionThreshold pa pb 0 kBytesPerPixel.

(** ** downscale (lines 247-294) *)

(** The local variables of the accumulation loop; pointers are offsets
    from the start of their buffer. *)
Record DownscaleLoop : Type := mkLoop {
  accum : nat;
  accumRow : nat;
  srcPixel : nat;
  accumRowsDone : nat;
  rowPixelsDone : nat;
  srcRowsPerAccumRow : nat;
  accumulators : list Z
}.

(** [for (c = c0; c < c0 + n; ++c) accum[c] += srcPixel[c]] *)
Fixpoint addChannels (beyond : Z -> Z) (src : list Z) (srcPixel accum : nat)
    (c n : nat) (acc : list Z) : list Z :=
  match n with
  | O => acc
  | S n' =>
      addChannels beyond src srcPixel accum (S c) n'
        (<[(accum + c)%nat :=
             u16 (nth (accum + c) acc 0 + peek beyond src (Z.of_nat (srcPixel + c)))]> acc)
  end.

(** [n] rounds of the loop over [p]: one source pixel is added to the
    accumulator pixel and the source pointer moves on. *)
Fixpoint addPixels (beyond : Z -> Z) (src : list Z) (accum : nat)
    (n : nat) (srcPixel : nat) (acc : list Z) : list Z * nat :=
  match n with
  | O => (acc, srcPixel)
  | S n' =>
      addPixels beyond src accum n' (srcPixel + kBytesPerPixel)%nat
        (addChannels beyond src srcPixel accum 0 kBytesPerPixel acc)
  end.

(** One round of the [while] loop (lines 265-288). *)
Definition downscaleStep (beyond : Z -> Z) (me : MotionExtractor) (src : list Z)
    (s : DownscaleLoop) : DownscaleLoop :=
  let '(acc, sp) :=
    addPixels beyond src (accum s) kDownscaleRatio (srcPixel s) (accumulators s) in
  let accum1 := (accum s + kBytesPerPixel)%nat in
  let rowPixelsDone1 := S (rowPixelsDone s) in
  if Nat.eqb rowPixelsDone1 (imageWidth me) then
    let srcRows1 := S (srcRowsPerAccumRow s) in
    if Nat.eqb srcRows1 kDownscaleRatio then
      let rowsDone1 := S (accumRowsDone s) in
      let accumRow1 := (rowsDone1 * destLineSize me)%nat in
      mkLoop accumRow1 accumRow1
        ((rowsDone1 * kDownscaleRatio + 0) * srcLineSize me)%nat
        rowsDone1 0 0 acc
    else
      mkLoop (accumRow s) (accumRow s)
        ((accumRowsDone s * kDownscaleRatio + srcRows1) * srcLineSize me)%nat
        (accumRowsDone s) 0 srcRows1 acc
  else
    mkLoop accum1 (accumRow s) sp (accumRowsDone s) rowPixelsDone1
      (srcRowsPerAccumRow s) acc.

(** [while (accum < accumEnd)], at most [fuel] rounds: [None] when the
    fuel is spent with the loop still running. *)
Fixpoint downscaleLoop (fuel : nat) (beyond : Z -> Z) (me : MotionExtractor)
    (src : list Z) (accumEnd : nat) (s : DownscaleLoop) : option DownscaleLoop :=
  if Nat.ltb (accum s) accumEnd then
    match fuel with
    | O => None
    | S fuel' =>
        downscaleLoop fuel' beyond me src accumEnd (downscaleStep beyond me src s)
    end
  else Some s.

(** [for (...; accum < accumEnd; ++accum, ++dp) *dp = *accum / kDownscaleSquare] *)
Fixpoint divideInto (accs dp : list Z) : list Z :=
  match accs, dp with
  | a :: accs', _ :: dp' => u8 (a / Z.of_nat kDownscaleSquare) :: divideInto accs' dp'
  | _, _ => dp
  end.

(** [downscale(frame, *downscaleBuff)]: the extractor with its
    accumulators and its downscale buffer rewritten. Two rounds per
    accumulator pixel are all the loop takes when the geometry is
    coherent, which [downscale_returns] proves. *)
Definition downscale (beyond : Z -> Z) (me : MotionExtractor) (frame : VideoFrame)
  : option MotionExtractor :=
  let cleared := map (fun _ => 0) (downscaleAccumulators me) in
  match downscaleLoop (kDownscaleRatio * imageArea me) beyond me (getPixels frame)
          (length cleared) (mkLoop 0 0 0 0 0 0 cleared) with
  | None => None
  | Some s =>
      let me1 := set_downscaleAccumulators me (accumulators s) in
      Some (set_downscaleBuff me1
              (withPixels (downscaleBuff me1)
                 (divideInto (accumulators s) (getPixels (downscaleBuff me1)))))
  end.

(** ** generateMotionMask (lines 98-235) *)

(** [memcpy(dst, src, n)] *)
Definition memcpy (dst src : list Z) (n : nat) : list Z :=
  take n src ++ drop n dst.

(** Rounds of a loop that walks a buffer of [size] bytes one pixel at a
    time until the pointer reaches the end. *)
Definition pixelSteps (size : nat) : nat :=
  ((size + (kBytesPerPixel - 1)) / kBytesPerPixel)%nat.

(** [p[0] = v] for the pixel at the head of [p] *)
Definition setIndicator (v : Z) (p : list Z) : list Z := <[0%nat := v]> p.

(** Lines 118-122: the indicator byte of every pixel is cleared, [bpp]
    bytes from one pixel to the next. *)
Fixpoint wipeIndicator (fuel bpp : nat) (mask : list Z) : list Z :=
  match fuel, mask with
  | S fuel', _ :: _ =>
      setIndicator 0 (take bpp mask) ++ wipeIndicator fuel' bpp (drop bpp mask)
  | _, _ => mask
  end.

(** Lines 113-124 *)
Definition firstFrameBranch (me : MotionExtractor) : MotionExtractor :=
  let down := getPixels (downscaleBuff me) in
  let me1 :=
    set_currentImage me
      (withPixels (currentImage me)
         (memcpy (getPixels (currentImage me)) down (imageSize me))) in
  let me2 :=
    set_refImage me1
      (withPixels (refImage me1)
         (memcpy (getPixels (refImage me1)) down (imageSize me1))) in
  let me3 := set_firstFrame me2 false in
  set_motionMask me3
    (withPixels (motionMask me3)
       (wipeIndicator (getTotalSize (motionMask me3))
          (getBytesPerPixel (motionMask me3)) (getPixels (motionMask me3)))).

(** Lines 141-143: every channel of the tracked pixel moves one step
    towards the sample. *)
Definition nudge (cip tip : list Z) : list Z :=
  zip_with (fun c t => u8 (c + sign (t - c)))
    (take kBytesPerPixel cip) (take kBytesPerPixel tip).

(** Lines 127-145, [n] pixels to go: the tracked image and the timers
    after the pass. [tip], [cip] and [currentTime] are the pointers of
    the source. *)
Fixpoint trackPass (thr : Z) (n : nat) (tip cip currentTime : list Z)
  : list Z * list Z :=
  match n with
  | O => (cip, currentTime)
  | S n' =>
      let '(cipRest, timeRest) :=
        trackPass thr n' (drop kBytesPerPixel tip) (drop kBytesPerPixel cip)
          (tail currentTime) in
      if pixelIsDifferent thr tip cip
      then (take kBytesPerPixel (memcpy cip tip kBytesPerPixel) ++ cipRest,
            0 :: timeRest)
      else (nudge cip tip ++ cipRest,
            u32 (hd 0 currentTime + 1) :: timeRest)
  end.

(** Lines 149-167, [n] pixels to go: the reference image, the mask and
    the records after the pass. *)
Fixpoint promotePass (thr cap : Z) (n : nat)
    (cip rip bmp currentTime record : list Z) : list Z * list Z * list Z :=
  match n with
  | O => (rip, bmp, record)
  | S n' =>
      let promoted := hd 0 currentTime >? hd 0 record in
      let rip1 := if promoted then memcpy rip cip kBytesPerPixel else rip in
      let record1 := if promoted then Z.min (hd 0 currentTime) cap else hd 0 record in
      let bmp1 :=
        setIndicator (if pixelIsDifferent thr rip1 cip then 255 else 0) bmp in
      let '(ripRest, bmpRest, recordRest) :=
        promotePass thr cap n' (drop kBytesPerPixel cip) (drop kBytesPerPixel rip1)
          (drop kBytesPerPixel bmp1) (tail currentTime) (tail record) in
      (take kBytesPerPixel rip1 ++ ripRest,
       take kBytesPerPixel bmp1 ++ bmpRest,
       record1 :: recordRest)
  end.

(** Lines 126-167: the two passes over the downscaled frame, which leave
    the mask as it is before the morphological filter. *)
Definition updateModel (me : MotionExtractor) : MotionExtractor :=
  let n := pixelSteps (imageSize me) in
  let '(cur, times) :=
    trackPass (motionThreshold me) n (getPixels (downscaleBuff me))
      (getPixels (currentImage me)) (currentStableTimes me) in
  let '(ref, bmp, records) :=
    promotePass (motionThreshold me) (stableCap me) n cur
      (getPixels (refImage me)) (getPixels (motionMask me)) times
      (stableRecords me) in
  let me1 := set_currentStableTimes me times in
  let me2 := set_currentImage me1 (withPixels (currentImage me1) cur) in
  let me3 := set_refImage me2 (withPixels (refImage me2) ref) in
  let me4 := set_stableRecords me3 records in
  set_motionMask me4 (withPixels (motionMask me4) bmp).

(** Lines 180-185: the table of offsets is walked and [adjacents] counts
    the entries whose coordinates are positive on both axes and whose
    byte at [bmp + p] is on. [bmp] is the byte offset of the current
    pixel in the mask. *)
Fixpoint countAdjacents (beyond : Z -> Z) (mask : list Z) (bmp x y : Z)
    (offs : list PixelOffset) (adjacents : Z) : Z :=
  match offs with
  | [] => adjacents
  | it :: rest =>
      countAdjacents beyond mask bmp x y rest
        (if (x + offX it >? 0) && (y + offY it >? 0)
            && (peek beyond mask (bmp + offP it) >? 0)
         then adjacents + 1 else adjacents)
  end.

(** Lines 214-221: the same walk, left at the first active neighbour. *)
Fixpoint activeNeighbors (beyond : Z -> Z) (mask : list Z) (bmp x y : Z)
    (offs : list PixelOffset) : bool :=
  match offs with
  | [] => false
  | it :: rest =>
      if (x + offX it >? 0) && (y + offY it >? 0)
         && (peek beyond mask (bmp + offP it) >? 0)
      then true
      else activeNeighbors beyond mask bmp x y rest
  end.

(** Lines 197-200 and 227-230: the coordinates of the next pixel. *)
Definition nextCoordinates (width x y : Z) : Z * Z :=
  if x + 1 =? width then (0, y + 1) else (x + 1, y).

(** Lines 175-201, [n] pixels to go: what the pass writes through
    [eroded], the pointer into the eroded mask. *)
Fixpoint erodePass (beyond : Z -> Z) (erosionLevel : Z) (offs : list PixelOffset)
    (width : Z) (mask : list Z) (n : nat) (bmp : nat) (x y : Z)
    (eroded : list Z) : list Z :=
  match n with
  | O => eroded
  | S n' =>
      let b0 := nth bmp mask 0 in
      let e0 :=
        if b0 >? 0 then
          if countAdjacents beyond mask (Z.of_nat bmp) x y offs 0 >=? erosionLevel
          then b0 else 0
        else 0 in
      let '(x1, y1) := nextCoordinates width x y in
      [e0; nth (bmp + 1) mask 0; nth (bmp + 2) mask 0]
        ++ erodePass beyond erosionLevel offs width mask n'
             (bmp + kBytesPerPixel) x1 y1 (drop kBytesPerPixel eroded)
  end.

(** Lines 207-231 *)
Fixpoint dilatePass (beyond : Z -> Z) (offs : list PixelOffset)
    (width : Z) (mask : list Z) (n : nat) (bmp : nat) (x y : Z)
    (eroded : list Z) : list Z :=
  match n with
  | O => eroded
  | S n' =>
      let b0 := nth bmp mask 0 in
      let e0 :=
        if b0 >? 0 then b0
        else if activeNeighbors beyond mask (Z.of_nat bmp) x y offs then 255 else 0 in
      let '(x1, y1) := nextCoordinates width x y in
      [e0; nth (bmp + 1) mask 0; nth (bmp + 2) mask 0]
        ++ dilatePass beyond offs width mask n'
             (bmp + kBytesPerPixel) x1 y1 (drop kBytesPerPixel eroded)
  end.

(** The erosion pass with its closing [*motionMask = *erodedMask]
    (lines 171-202). *)
Definition erosion (beyond : Z -> Z) (me : MotionExtractor) : MotionExtractor :=
  let mask := motionMask me in
  let er :=
    withPixels (erodedMask me)
      (erodePass beyond (erosionLevel me) (offs me) (Z.of_nat (getWidth mask))
         (getPixels mask) (pixelSteps (getTotalSize mask)) 0 0 0
         (getPixels (erodedMask me))) in
  set_motionMask (set_erodedMask me er) er.

(** The dilation pass with its closing assignment (lines 204-232); the
    loop still ends at [bEnd], [size] bytes after the start of the mask. *)
Definition dilation (beyond : Z -> Z) (size : nat) (me : MotionExtractor)
  : MotionExtractor :=
  let mask := motionMask me in
  let er :=
    withPixels (erodedMask me)
      (dilatePass beyond (offs me) (Z.of_nat (getWidth mask))
         (getPixels mask) (pixelSteps size) 0 0 0
         (getPixels (erodedMask me))) in
  set_motionMask (set_erodedMask me er) er.

(** Lines 169-233 *)
Definition morphologicalFilter (beyond : Z -> Z) (me : MotionExtractor)
  : MotionExtractor :=
  if erosionLevel me >? 0
  then dilation beyond (getTotalSize (motionMask me)) (erosion beyond me)
  else me.

(** The whole call; the mask it returns is [motionMask] of the result.
    [None] only when [downscale] does not return. *)
Definition generateMotionMask (beyond : Z -> Z) (me : MotionExtractor)
    (frame : VideoFrame) : option MotionExtractor :=
  match downscale beyond me frame with
  | None => None
  | Some me1 =>
      if firstFrame me1
      then Some (firstFrameBranch me1)
      else Some (morphologicalFilter beyond (updateModel me1))
  end.

(** [n] calls in a row with the same frame. *)
Fixpoint feed (beyond : Z -> Z) (n : nat) (me : MotionExtractor)
    (frame : VideoFrame) : option MotionExtractor :=
  match n with
  | O => Some me
  | S n' =>
      match generateMotionMask beyond me frame with
      | None => None
      | Some me1 => feed beyond n' me1 frame
      end
  end.

(** ** Parameters (lines 296-364) *)

(** Modelled from the spec: the exception classes are declared in
    Exceptions.hpp, which is not part of the sources. Each carries its
    message and the name of the function that threw it. [LogicError] is
    what the JSON library throws from a conversion it refuses. *)
Inductive Exception : Type :=
  | ArgumentOutOfRangeException (what function : string)
  | FileException (what function : string)
  | LogicError.

(** A member function that may throw: it is given the extractor and
    leaves it in some state, with a result or with the exception that
    ended it. *)
Definition Throwing (A : Type) : Type :=
  MotionExtractor -> MotionExtractor * (Exception + A).

Definition ret {A : Type} (a : A) : Throwing A := fun me => (me, inr a).

Definition throw {A : Type} (e : Exception) : Throwing A := fun me => (me, inl e).

Definition bind {A B : Type} (m : Throwing A) (k : A -> Throwing B) : Throwing B :=
  fun me =>
    match m me with
    | (me1, inl e) => (me1, inl e)
    | (me1, inr a) => k a me1
    end.

Definition modify (f : MotionExtractor -> MotionExtractor) : Throwing unit :=
  fun me => (f me, inr tt).

Declare Scope throwing_scope.
Delimit Scope throwing_scope with throwing.
Notation "x <- m ;; k" := (bind m (fun x => k))
  (at level 100, m at next level, right associativity) : throwing_scope.
Notation "m ;;; k" := (bind m (fun _ => k))
  (at level 100, right associativity) : throwing_scope.

Definition setSensitivity (newSens : Z) : Throwing unit :=
  if (newSens <? 1) || (newSens >? 127)
  then throw (ArgumentOutOfRangeException
                "Sensitivity must be between 1 and 127" "setSensitivity")
  else (modify (fun me => set_motionThreshold me newSens) ;;;
        modify reset)%throwing.

Definition setSettleTime (newTime : float) : Throwing unit :=
  if (newTime <? 1)%float || (60 <? newTime)%float
  then throw (ArgumentOutOfRangeException
                "Settle time must be between 1 and 60 seconds" "setSettleTime")
  else (modify (fun me =>
                  set_stableCap me (double2uint (ceil (newTime * fps me)%float))) ;;;
        modify reset)%throwing.

Definition setErosion (newErosion : Z) : Throwing unit :=
  if (newErosion <? 0) || (newErosion >? 8)
  then throw (ArgumentOutOfRangeException
                "Erosion value must be between 0 and 8 pixels" "setErosion")
  else (modify (fun me => set_erosionLevel me newErosion) ;;;
        modify reset)%throwing.

Definition getSensitivity (me : MotionExtractor) : Z := motionThreshold me.

Definition getSettleTime (me : MotionExtractor) : float :=
  (Z2double (stableCap me) / fps me)%float.

Definition getErosion (me : MotionExtractor) : Z := erosionLevel me.

(** Modelled from the spec: [Json::Value] belongs to the JSON library,
    which is not part of the sources. A value is null, an integer, a
    real, a boolean or a string; an object is a finite map from keys to
    values, and looking up a key it lacks yields null. [asInt] and
    [asDouble] refuse a string, and [asInt] refuses a real outside the
    range of [int]. *)
Inductive JsonValue : Type :=
  | nullValue
  | intValue (i : Z)
  | realValue (d : float)
  | booleanValue (b : bool)
  | stringValue (s : string).

Definition isNull (v : JsonValue) : bool :=
  match v with nullValue => true | _ => false end.

Definition asInt (v : JsonValue) : option Z :=
  match v with
  | nullValue => Some 0
  | intValue i => Some i
  | realValue d =>
      match truncZ d with
      | Some z =>
          if (-2147483648 <=? z) && (z <=? 2147483647) then Some z else None
      | None => None
      end
  | booleanValue b => Some (if b then 1 else 0)
  | stringValue _ => None
  end.

Definition asDouble (v : JsonValue) : option float :=
  match v with
  | nullValue => Some 0%float
  | intValue i => Some (Z2double i)
  | realValue d => Some d
  | booleanValue b => Some (if b then 1%float else 0%float)
  | stringValue _ => None
  end.

Definition member (paramsObject : gmap string JsonValue) (key : string) : JsonValue :=
  default nullValue (paramsObject !! key).

Definition save (me : MotionExtractor) (paramsObject : gmap string JsonValue)
  : gmap string JsonValue :=
  let o1 := <["sensitivity" := intValue (getSensitivity me)]> paramsObject in
  let o2 := <["settle time" := realValue (getSettleTime me)]> o1 in
  <["erosion level" := intValue (getErosion me)]> o2.

(** A conversion of the JSON library, which throws when it refuses. *)
Definition converted {A : Type} (o : option A) : Throwing A :=
  match o with
  | Some a => ret a
  | None => throw LogicError
  end.

(** The test of line 351: some key has no value. *)
Definition missingSettings (paramsObject : gmap string JsonValue) : bool :=
  isNull (member paramsObject "sensitivity")
  || isNull (member paramsObject "settle time")
  || isNull (member paramsObject "erosion level").

(** The range test of line 358. *)
Definition invalidSettings (si : Z) (td : float) (ei : Z) : bool :=
  (si <? 1) || (si >? 127) || (td <? 1)%float || (60 <? td)%float
  || (ei <? 0) || (ei >? 8).

Definition load (paramsObject : gmap string JsonValue) : Throwing unit :=
  let sv := member paramsObject "sensitivity" in
  let tv := member paramsObject "settle time" in
  let ev := member paramsObject "erosion level" in
  if missingSettings paramsObject
  then throw (FileException "Motion detection settings are missing" "load")
  else
    (si <- converted (asInt sv) ;;
     td <- converted (asDouble tv) ;;
     ei <- converted (asInt ev) ;;
     if invalidSettings si td ei
     then throw (FileException "Motion detection settings are invalid" "load")
     else
       setSensitivity si ;;;
       setSettleTime td ;;;
       setErosion ei)%throwing.

(** ** Well-formed and reachable states *)

(** The geometry the constructor establishes for a source of
    [frameWidth] x [frameHeight] pixels, which no member function
    changes. *)
Record coherent (frameWidth frameHeight : nat) (me : MotionExtractor) : Prop :=
  mkCoherent {
  coh_imageWidth : imageWidth me = (frameWidth / kDownscaleRatio)%nat;
  coh_imageHeight : imageHeight me = (frameHeight / kDownscaleRatio)%nat;
  coh_srcLineSize : srcLineSize me = (frameWidth * kBytesPerPixel)%nat;
  coh_destLineSize : destLineSize me = (imageWidth me * kBytesPerPixel)%nat;
  coh_imageArea : imageArea me = (imageWidth me * imageHeight me)%nat;
  coh_imageSize : imageSize me = (imageArea me * kBytesPerPixel)%nat;
  coh_currentImage : length (getPixels (currentImage me)) = imageSize me;
  coh_refImage : length (getPixels (refImage me)) = imageSize me;
  coh_motionMask : length (getPixels (motionMask me)) = imageSize me;
  coh_erodedMask : length (getPixels (erodedMask me)) = imageSize me;
  coh_downscaleBuff : length (getPixels (downscaleBuff me)) = imageSize me;
  coh_accumulators : length (downscaleAccumulators me) = imageSize me;
  coh_times : length (currentStableTimes me) = imageArea me;
  coh_records : length (stableRecords me) = imageArea me;
  coh_maskBpp : getBytesPerPixel (motionMask me) = kBytesPerPixel;
  coh_maskWidth : getWidth (motionMask me) = imageWidth me;
  coh_erodedBpp : getBytesPerPixel (erodedMask me) = kBytesPerPixel;
  coh_erodedWidth : getWidth (erodedMask me) = imageWidth me;
  coh_downWidth : getWidth (downscaleBuff me) = imageWidth me;
  coh_downHeight : getHeight (downscaleBuff me) = imageHeight me;
  coh_offs : offs me = pixelOffsets kBytesPerPixel (imageWidth me)
}.

(** The states an extractor for a [frameWidth] x [frameHeight] source
    goes through: construction, then any sequence of calls of its public
    member functions. A call that throws leaves the state it leaves. *)
Inductive reachable (frameWidth frameHeight : nat) : MotionExtractor -> Prop :=
  | reach_new (fresh : nat -> nat -> Z) (videoFPS : float) :
      reachable frameWidth frameHeight
        (MotionExtractor_new fresh frameWidth frameHeight videoFPS)
  | reach_generateMotionMask (beyond : Z -> Z) (me me' : MotionExtractor)
      (frame : VideoFrame) :
      reachable frameWidth frameHeight me ->
      generateMotionMask beyond me frame = Some me' ->
      reachable frameWidth frameHeight me'
  | reach_reset (me : MotionExtractor) :
      reachable frameWidth frameHeight me ->
      reachable frameWidth frameHeight (reset me)
  | reach_setSensitivity (me : MotionExtractor) (newSens : Z) :
      reachable frameWidth frameHeight me ->
      reachable frameWidth frameHeight (fst (setSensitivity newSens me))
  | reach_setSettleTime (me : MotionExtractor) (newTime : float) :
      reachable frameWidth frameHeight me ->
      reachable frameWidth frameHeight (fst (setSettleTime newTime me))
  | reach_setErosion (me : MotionExtractor) (newErosion : Z) :
      reachable frameWidth frameHeight me ->
      reachable frameWidth frameHeight (fst (setErosion newErosion me))
  | reach_load (me : MotionExtractor) (paramsObject : gmap string JsonValue) :
      reachable frameWidth frameHeight me ->
      reachable frameWidth frameHeight (fst (load paramsObject me)).

(** The indicator channel, byte 0 of every pixel, is all-zero. *)
Definition indicatorClear (mask : list Z) : Prop :=
  forall i : nat, (i * kBytesPerPixel < length mask)%nat ->
    nth (i * kBytesPerPixel) mask 0 = 0.

(** Every stability record is at most the cap. *)
Definition recordsCapped (me : MotionExtractor) : Prop :=
  Forall (fun record => record <= stableCap me) (stableRecords me).

(** ** What the specification says, for comparison *)

(** Channel [c] of the pixel at column [x] and row [y] of a buffer of
    [width] pixels per row. *)
Definition sample (width : nat) (px : list Z) (x y c : nat) : Z :=
  nth ((y * width + x) * kBytesPerPixel + c) px 0.

(** Section 4.1: the sum of the four samples of a 2x2 block, divided by
    4 with truncation. *)
Definition blockAverage (width : nat) (px : list Z) (x y c : nat) : Z :=
  (sample width px (2 * x) (2 * y) c + sample width px (2 * x + 1) (2 * y) c
   + sample width px (2 * x) (2 * y + 1) c
   + sample width px (2 * x + 1) (2 * y + 1) c) / 4.

(** Section 4.3: the eight neighbours of a pixel, left and right, the
    three of the row above and the three of the row below. *)
Definition eightNeighbours (x y : Z) : list (Z * Z) :=
  [ (x - 1, y); (x + 1, y);
    (x - 1, y - 1); (x, y - 1); (x + 1, y - 1);
    (x - 1, y + 1); (x, y + 1); (x + 1, y + 1) ].

(** Section 4.3: how many of the eight neighbours have both coordinates
    above 0 and their indicator on. *)
Definition neighboursOn (width : nat) (mask : list Z) (x y : Z) : Z :=
  Z.of_nat
    (length
       (filter
          (fun q : Z * Z =>
             0 < fst q /\ 0 < snd q /\
             0 < sample width mask (Z.to_nat (fst q)) (Z.to_nat (snd q)) 0)
          (eightNeighbours x y))).

(** ** Invariants and auxiliary notions of the proofs *)

(** The accumulation loop of [downscale] has gone through [t] source
    rows and [x] blocks of the next one. *)
Record loopAt (me : MotionExtractor) (frameWidth : nat) (t x : nat)
    (s : DownscaleLoop) : Prop := mkLoopAt {
  at_rows : t = (2 * accumRowsDone s + srcRowsPerAccumRow s)%nat;
  at_srcRows : (srcRowsPerAccumRow s < 2)%nat;
  at_col : rowPixelsDone s = x;
  at_accum : accum s = (3 * (accumRowsDone s * imageWidth me + x))%nat;
  at_accumRow : accumRow s = (3 * (accumRowsDone s * imageWidth me))%nat;
  at_src : srcPixel s = (t * (3 * frameWidth) + 6 * x)%nat;
  at_length : length (accumulators s) = (3 * (imageWidth me * imageHeight me))%nat
}.

(** The position of the loop after one more round. *)
Definition nextAt (me : MotionExtractor) (t x : nat) : nat * nat :=
  if Nat.eqb (S x) (imageWidth me) then (S t, 0%nat) else (t, S x).

(** Rounds left before the loop ends. *)
Definition roundsLeft (me : MotionExtractor) (t x : nat) : nat :=
  (2 * imageHeight me * imageWidth me - (t * imageWidth me + x))%nat.

(** The block at column [x] of source row [t] lies before the position
    [(t', x')] of the loop. *)
Definition passed (t x t' x' : nat) : bool :=
  bool_decide (t < t' \/ (t = t' /\ x < x'))%nat.

(** The two samples of source row [q] that fall into block column [x]. *)
Definition rowPair (width : nat) (px : list Z) (x q c : nat) : Z :=
  sample width px (2 * x) q c + sample width px (2 * x + 1) q c.

(** What the accumulator of pixel [(x', r')], channel [c], has received
    when the loop stands at [(t, x)]. *)
Definition partialSum (width : nat) (px : list Z) (t x r' x' c : nat) : Z :=
  (if passed (2 * r') x' t x then rowPair width px x' (2 * r') c else 0)
  + (if passed (2 * r' + 1) x' t x then rowPair width px x' (2 * r' + 1) c else 0).

Definition contentAt (me : MotionExtractor) (width : nat) (px : list Z)
    (t x : nat) (accs : list Z) : Prop :=
  forall r' x' c : nat,
    (r' < imageHeight me)%nat -> (x' < imageWidth me)%nat -> (c < 3)%nat ->
    nth (3 * (r' * imageWidth me + x') + c) accs 0 = partialSum width px t x r' x' c.

(** The state in which [downscale] leaves the extractor, given the
    accumulators it ends with. *)
Definition downscaled (me : MotionExtractor) (accs : list Z) : MotionExtractor :=
  set_downscaleBuff (set_downscaleAccumulators me accs)
    (withPixels (downscaleBuff me) (divideInto accs (getPixels (downscaleBuff me)))).

(** The pixel the first pass leaves at [cip], and the timer it leaves. *)
Definition trackedPixel (thr : Z) (tip cip : list Z) : list Z :=
  if pixelIsDifferent thr tip cip
  then take kBytesPerPixel (memcpy cip tip kBytesPerPixel)
  else nudge cip tip.

Definition trackedTime (thr : Z) (tip cip currentTime : list Z) : Z :=
  if pixelIsDifferent thr tip cip then 0 else u32 (hd 0 currentTime + 1).

(** The second pass at one pixel: whether it is promoted, the reference
    image once it is, its record and its indicator. *)
Definition promoted (currentTime record : list Z) : bool :=
  hd 0 currentTime >? hd 0 record.

Definition promotedRef (cip rip currentTime record : list Z) : list Z :=
  if promoted currentTime record then memcpy rip cip kBytesPerPixel else rip.

Definition promotedRecord (cap : Z) (currentTime record : list Z) : Z :=
  if promoted currentTime record then Z.min (hd 0 currentTime) cap else hd 0 record.

Definition markedMask (thr : Z) (cip rip bmp currentTime record : list Z) : list Z :=
  setIndicator
    (if pixelIsDifferent thr (promotedRef cip rip currentTime record) cip
     then 255 else 0) bmp.

(** The results of the two passes of [updateModel]. *)
Definition trackedOf (me : MotionExtractor) : list Z * list Z :=
  trackPass (motionThreshold me) (pixelSteps (imageSize me))
    (getPixels (downscaleBuff me)) (getPixels (currentImage me))
    (currentStableTimes me).

Definition promotedOf (me : MotionExtractor) : list Z * list Z * list Z :=
  promotePass (motionThreshold me) (stableCap me) (pixelSteps (imageSize me))
    (fst (trackedOf me)) (getPixels (refImage me)) (getPixels (motionMask me))
    (snd (trackedOf me)) (stableRecords me).

(** What every reachable state satisfies. *)
Record sound (frameWidth frameHeight : nat) (me : MotionExtractor) : Prop := mkSound {
  sound_coherent : coherent frameWidth frameHeight me;
  sound_cap : 0 <= stableCap me < 4294967296;
  sound_records : recordsCapped me;
  sound_threshold : 1 <= motionThreshold me <= 127;
  sound_erosion : 0 <= erosionLevel me <= 8;
  sound_tracked : Forall is_byte (getPixels (currentImage me));
  sound_times : Forall (fun t => 0 <= t < 4294967296) (currentStableTimes me)
}.

(** No channel of [b] is further than [thr] from the same channel of [a]. *)
Definition close (thr : Z) (a b : list Z) : Prop :=
  forall i : nat, Z.abs (nth i a 0 - nth i b 0) <= thr.

(** The pixels a frame is downscaled to, from the accumulators [accs]
    that an extractor [me0] of the same geometry ends with. *)
Definition downscaledFrame (me0 : MotionExtractor) (accs : list Z) : list Z :=
  getPixels (downscaleBuff (downscaled me0 accs)).

(** The results of the two passes of a call with that frame. *)
Definition tracked (me0 : MotionExtractor) (accs : list Z) (me : MotionExtractor)
  : list Z * list Z :=
  trackPass (motionThreshold me) (imageArea me) (downscaledFrame me0 accs)
    (getPixels (currentImage me)) (currentStableTimes me).

Definition promotion (me0 : MotionExtractor) (accs : list Z) (me : MotionExtractor)
  : list Z * list Z * list Z :=
  promotePass (motionThreshold me) (stableCap me) (imageArea me)
    (fst (tracked me0 accs me)) (getPixels (refImage me)) (getPixels (motionMask me))
    (snd (tracked me0 accs me)) (stableRecords me).

(** Both images are the downscaled frame. *)
Definition settledOn (me0 : MotionExtractor) (accs : list Z) (me : MotionExtractor)
  : Prop :=
  firstFrame me = false /\
  getPixels (currentImage me) = downscaledFrame me0 accs /\
  getPixels (refImage me) = downscaledFrame me0 accs.

(** The tracked image is within the threshold of the downscaled frame
    and every timer has reached [k]. *)
Definition following (me0 : MotionExtractor) (accs : list Z) (k : Z)
    (me : MotionExtractor) : Prop :=
  firstFrame me = false /\
  close (motionThreshold me) (downscaledFrame me0 accs) (getPixels (currentImage me)) /\
  Forall (fun t => k <= t) (currentStableTimes me).

(** The state after [k] of [n] calls with one and the same frame. *)
Record fed (frameWidth frameHeight : nat) (me0 : MotionExtractor) (accs : list Z)
    (cap0 er0 : Z) (n k : nat) (me : MotionExtractor) : Prop := mkFed {
  fed_sound : sound frameWidth frameHeight me;
  fed_cap : stableCap me = cap0;
  fed_erosion : erosionLevel me = er0;
  fed_times :
    Forall (fun t => t + Z.of_nat (n - k) < 4294967296) (currentStableTimes me);
  fed_progress :
    k = 0%nat \/ settledOn me0 accs me \/ following me0 accs (Z.of_nat k - 1) me
}.

(** ** Concrete inputs *)

(** An 8x8 black source frame, and the same frame with the 4x4 block of
    columns 2..5 and rows 2..5 bright. *)
Definition blackFrame : VideoFrame := mkFrame 8 8 3 (replicate 192 0).

Definition blockFrame : VideoFrame :=
  mkFrame 8 8 3
    (flat_map
       (fun i : nat =>
          if ((2 <=? i mod 8) && (i mod 8 <=? 5) && (2 <=? i / 8) && (i / 8 <=? 5))%nat
          then [200; 200; 200] else [0; 0; 0])
       (seq 0 64)).

(** An extractor for 2x2 frames at one frame per second that has seen a
    black frame twice: its background is black and its records stand at
    the cap. *)
Definition staleBackground : MotionExtractor :=
  default (MotionExtractor_new (fun _ _ => 0) 2 2 1%float)
    (feed (fun _ => 0) 2 (MotionExtractor_new (fun _ _ => 0) 2 2 1%float)
       (mkFrame 2 2 3 (replicate 12 0))).

(** ** Pixels of a buffer *)

(** The pointer to pixel [i] of a buffer, its channel [c] and, for a
    mask, its indicator byte. *)
Definition pixelAt (px : list Z) (i : nat) : list Z := drop (i * kBytesPerPixel) px.

Definition channelAt (px : list Z) (i c : nat) : Z := nth (i * kBytesPerPixel + c) px 0.

Definition indicatorAt (mask : list Z) (i : nat) : Z := channelAt mask i 0.

(** Two extractors hold the same background model: the tracked and the
    reference image, the timers, the records, the first-frame flag, the
    sensitivity and the stable cap. The masks, the erosion level and the
    downscaling buffers may differ. *)
Definition sameModel (a b : MotionExtractor) : Prop :=
  getPixels (currentImage a) = getPixels (currentImage b) /\
  getPixels (refImage a) = getPixels (refImage b) /\
  currentStableTimes a = currentStableTimes b /\
  stableRecords a = stableRecords b /\
  firstFrame a = firstFrame b /\
  motionThreshold a = motionThreshold b /\
  stableCap a = stableCap b.

(** ** More concrete inputs *)

(** A 2x2 source frame with every byte at 200. *)
Definition brightFrame : VideoFrame := mkFrame 2 2 3 (replicate 12 200).

(** The extractor of [staleBackground] with the erosion switched off
    before it has seen the two black frames. *)
Definition staleBackgroundUnfiltered : MotionExtractor :=
  default (MotionExtractor_new (fun _ _ => 0) 2 2 1%float)
    (feed (fun _ => 0) 2
       (fst (setErosion 0 (MotionExtractor_new (fun _ _ => 0) 2 2 1%float)))
       (mkFrame 2 2 3 (replicate 12 0))).

(** An extractor for 4x4 frames at one frame per second as the
    constructor leaves it, when uninitialised memory reads as zero; and
    one for 2x2 frames at 30 frames per second, when it reads as 7. *)
Definition newExtractor : MotionExtractor :=
  MotionExtractor_new (fun _ _ => 0) 4 4 1%float.

Definition otherExtractor : MotionExtractor :=
  MotionExtractor_new (fun _ _ => 7) 2 2 30%float.

(** A JSON object without members. *)
Definition emptyObject : gmap string JsonValue := ∅.


(** * Proofs *)

(** ** The difference test *)

Lemma differentFrom_true thr pa pb b n :
  differentFrom thr pa pb b n = true <->
  exists c : nat, (b <= c < b + n)%nat /\ Z.abs (nth c pa 0 - nth c pb 0) > thr.
Proof.
  revert b. induction n as [|n IH]; intros b; simpl.
  - split; [discriminate | intros (c & Hc & _); lia].
  - destruct (Z.gtb_spec (Z.abs (nth b pa 0 - nth b pb 0)) thr) as [Hgt|Hle].
    + split; [intros _ | reflexivity]. exists b. split; lia.
    + rewrite IH. split; intros (c & Hc & Hd).
      * exists c. split; [lia | exact Hd].
      * exists c. split; [|exact Hd].
        destruct (decide (c = b)) as [->|]; lia.
Qed.

Lemma pixelIsDifferent_true thr pa pb :
  pixelIsDifferent thr pa pb = true <->
  exists c : nat, (c < 3)%nat /\ Z.abs (nth c pa 0 - nth c pb 0) > thr.
Proof.
  unfold pixelIsDifferent, kBytesPerPixel. rewrite differentFrom_true.
  split; intros (c & Hc & Hd); exists c; (split; [lia | exact Hd]).
Qed.

Lemma pixelIsDifferent_false thr pa pb :
  pixelIsDifferent thr pa pb = false <->
  forall c : nat, (c < 3)%nat -> Z.abs (nth c pa 0 - nth c pb 0) <= thr.
Proof.
  rewrite <- not_true_iff_false, pixelIsDifferent_true. split.
  - intros Hno c Hc.
    destruct (Z_le_gt_dec (Z.abs (nth c pa 0 - nth c pb 0)) thr) as [|Hgt]; [assumption|].
    exfalso. apply Hno. exists c. split; assumption.
  - intros Hall (c & Hc & Hd). specialize (Hall c Hc). lia.
Qed.

(** C3. [pixelIsDifferent] is true exactly when some channel among the
    three differs in absolute value by more than the sensitivity, false
    exactly when every channel is within it, and a pixel pair none of
    whose channels differs by more than the sensitivity, one of them by
    exactly the sensitivity, is not different. *)
Theorem pixelIsDifferent_threshold :
  forall (sensitivity : Z) (a b : list Z),
    (pixelIsDifferent sensitivity a b = true <->
       exists c : nat, (c < 3)%nat /\ Z.abs (nth c a 0 - nth c b 0) > sensitivity) /\
    (pixelIsDifferent sensitivity a b = false <->
       forall c : nat, (c < 3)%nat -> Z.abs (nth c a 0 - nth c b 0) <= sensitivity) /\
    ((forall c : nat, (c < 3)%nat ->
        Z.abs (nth c a 0 - nth c b 0) <= sensitivity) ->
     (exists c : nat, (c < 3)%nat /\
        Z.abs (nth c a 0 - nth c b 0) = sensitivity) ->
     pixelIsDifferent sensitivity a b = false).
Proof.
  intros thr a b. split; [apply pixelIsDifferent_true|].
  split; [apply pixelIsDifferent_false|].
  intros Hall _. apply pixelIsDifferent_false. exact Hall.
Qed.

(** ** Construction *)

Lemma reset_parameters me :
  fps (reset me) = fps me /\ motionThreshold (reset me) = motionThreshold me /\
  stableCap (reset me) = stableCap me /\ erosionLevel (reset me) = erosionLevel me.
Proof. repeat split. Qed.

(** C10. Right after construction the sensitivity is 26, the erosion
    level is 5, the stable cap is [(unsigned int)ceil(videoFPS)] and so
    the settle time reads as that cap divided by the frame rate. *)
Theorem construction_defaults :
  forall (fresh : nat -> nat -> Z) (frameWidth frameHeight : nat) (videoFPS : float),
    getSensitivity (MotionExtractor_new fresh frameWidth frameHeight videoFPS) = 26 /\
    getErosion (MotionExtractor_new fresh frameWidth frameHeight videoFPS) = 5 /\
    stableCap (MotionExtractor_new fresh frameWidth frameHeight videoFPS)
      = double2uint (ceil videoFPS) /\
    getSettleTime (MotionExtractor_new fresh frameWidth frameHeight videoFPS)
      = (Z2double (double2uint (ceil videoFPS)) / videoFPS)%float.
Proof. intros. repeat split. Qed.

(** One second of frames at some usual rates. *)
Example stableCap_at_usual_rates :
  double2uint (ceil 30%float) = 30 /\
  double2uint (ceil 25%float) = 25 /\
  double2uint (ceil 0x1.df851eb851eb8p+4%float) = 30 /\
  double2uint (ceil 0.5%float) = 1 /\
  double2uint (ceil 12.5%float) = 13.
Proof. vm_compute. repeat split. Qed.

(** ** The setters *)

Lemma setSensitivity_throws newSens me :
  (newSens <? 1) || (newSens >? 127) = true ->
  setSensitivity newSens me =
    (me, inl (ArgumentOutOfRangeException
                "Sensitivity must be between 1 and 127" "setSensitivity")).
Proof. intros H. unfold setSensitivity. rewrite H. reflexivity. Qed.

Lemma setSensitivity_returns newSens me :
  (newSens <? 1) || (newSens >? 127) = false ->
  setSensitivity newSens me = (reset (set_motionThreshold me newSens), inr tt).
Proof. intros H. unfold setSensitivity. rewrite H. reflexivity. Qed.

Lemma setSettleTime_throws newTime me :
  (newTime <? 1)%float || (60 <? newTime)%float = true ->
  setSettleTime newTime me =
    (me, inl (ArgumentOutOfRangeException
                "Settle time must be between 1 and 60 seconds" "setSettleTime")).
Proof. intros H. unfold setSettleTime. rewrite H. reflexivity. Qed.

Lemma setSettleTime_returns newTime me :
  (newTime <? 1)%float || (60 <? newTime)%float = false ->
  setSettleTime newTime me =
    (reset (set_stableCap me (double2uint (ceil (newTime * fps me)%float))), inr tt).
Proof. intros H. unfold setSettleTime. rewrite H. reflexivity. Qed.

Lemma setErosion_throws newErosion me :
  (newErosion <? 0) || (newErosion >? 8) = true ->
  setErosion newErosion me =
    (me, inl (ArgumentOutOfRangeException
                "Erosion value must be between 0 and 8 pixels" "setErosion")).
Proof. intros H. unfold setErosion. rewrite H. reflexivity. Qed.

Lemma setErosion_returns newErosion me :
  (newErosion <? 0) || (newErosion >? 8) = false ->
  setErosion newErosion me = (reset (set_erosionLevel me newErosion), inr tt).
Proof. intros H. unfold setErosion. rewrite H. reflexivity. Qed.

Lemma int_range_test lo hi v :
  (v <? lo) || (v >? hi) = true <-> v < lo \/ v > hi.
Proof. rewrite orb_true_iff, Z.ltb_lt, Z.gtb_gt. reflexivity. Qed.

Lemma double_range_test (v : float) :
  (v <? 1)%float || (60 <? v)%float = true <->
  (v <? 1)%float = true \/ (60 <? v)%float = true.
Proof. apply orb_true_iff. Qed.

(** C8. Each setter throws ArgumentOutOfRange exactly when its argument
    is below or above its interval ([1,127], [1,60], [0,8]); when it
    throws, the extractor is the one it was given; when it returns, the
    new value is stored (the settle time as the stable cap
    [(unsigned int)ceil(newTime * fps)]) and [reset] has run. *)
Theorem setters_validate :
  forall (me : MotionExtractor) (v : Z) (s : float) (e : Z),
    (* setSensitivity *)
    ((exists what function,
        snd (setSensitivity v me) = inl (ArgumentOutOfRangeException what function))
       <-> v < 1 \/ v > 127) /\
    (forall exn, snd (setSensitivity v me) = inl exn -> fst (setSensitivity v me) = me) /\
    (~ (v < 1 \/ v > 127) ->
       setSensitivity v me = (reset (set_motionThreshold me v), inr tt) /\
       getSensitivity (fst (setSensitivity v me)) = v) /\
    (* setSettleTime *)
    ((exists what function,
        snd (setSettleTime s me) = inl (ArgumentOutOfRangeException what function))
       <-> (s <? 1)%float = true \/ (60 <? s)%float = true) /\
    (forall exn, snd (setSettleTime s me) = inl exn -> fst (setSettleTime s me) = me) /\
    (~ ((s <? 1)%float = true \/ (60 <? s)%float = true) ->
       setSettleTime s me =
         (reset (set_stableCap me (double2uint (ceil (s * fps me)%float))), inr tt) /\
       stableCap (fst (setSettleTime s me)) = double2uint (ceil (s * fps me)%float)) /\
    (* setErosion *)
    ((exists what function,
        snd (setErosion e me) = inl (ArgumentOutOfRangeException what function))
       <-> e < 0 \/ e > 8) /\
    (forall exn, snd (setErosion e me) = inl exn -> fst (setErosion e me) = me) /\
    (~ (e < 0 \/ e > 8) ->
       setErosion e me = (reset (set_erosionLevel me e), inr tt) /\
       getErosion (fst (setErosion e me)) = e).
Proof.
  intros me v s e.
  rewrite <- (int_range_test 1 127 v), <- (double_range_test s), <- (int_range_test 0 8 e).
  destruct ((v <? 1) || (v >? 127)) eqn:Hv;
  destruct ((s <? 1)%float || (60 <? s)%float) eqn:Hs;
  destruct ((e <? 0) || (e >? 8)) eqn:He;
  rewrite ?(setSensitivity_throws _ _ Hv), ?(setSensitivity_returns _ _ Hv),
    ?(setSettleTime_throws _ _ Hs), ?(setSettleTime_returns _ _ Hs),
    ?(setErosion_throws _ _ He), ?(setErosion_returns _ _ He); simpl;
  repeat match goal with
         | |- _ /\ _ => split
         | |- _ <-> _ => split
         end;
  try solve [ reflexivity | discriminate | congruence | eauto
            | intros (? & ? & ?); discriminate
            | intros Hno; exfalso; apply Hno; reflexivity
            | intros Hno; split; reflexivity ].
Qed.

(** ** load and save *)

Lemma invalidSettings_true si td ei :
  invalidSettings si td ei = true <->
  (si < 1 \/ si > 127) \/ ((td <? 1)%float = true \/ (60 <? td)%float = true)
  \/ (ei < 0 \/ ei > 8).
Proof.
  unfold invalidSettings.
  rewrite !orb_true_iff, !Z.ltb_lt, !Z.gtb_gt. tauto.
Qed.

Lemma invalidSettings_false si td ei :
  invalidSettings si td ei = false ->
  (si <? 1) || (si >? 127) = false /\
  (td <? 1)%float || (60 <? td)%float = false /\
  (ei <? 0) || (ei >? 8) = false.
Proof.
  unfold invalidSettings. rewrite !orb_false_iff. tauto.
Qed.

(** What [load] does once the three values are there and converted. *)
Lemma load_converted p me si td ei :
  missingSettings p = false ->
  asInt (member p "sensitivity") = Some si ->
  asDouble (member p "settle time") = Some td ->
  asInt (member p "erosion level") = Some ei ->
  load p me =
    if invalidSettings si td ei
    then (me, inl (FileException "Motion detection settings are invalid" "load"))
    else (reset (set_erosionLevel
                   (reset (set_stableCap
                             (reset (set_motionThreshold me si))
                             (double2uint (ceil (td * fps me)%float))))
                   ei),
          inr tt).
Proof.
  intros Hm Hs Ht He. unfold load. rewrite Hm, Hs, Ht, He. unfold bind; simpl.
  destruct (invalidSettings si td ei) eqn:Hinv; [reflexivity|].
  destruct (invalidSettings_false _ _ _ Hinv) as (H1 & H2 & H3).
  rewrite (setSensitivity_returns _ _ H1).
  rewrite (setSettleTime_returns _ _ H2).
  rewrite (setErosion_returns _ _ H3). reflexivity.
Qed.

Lemma load_missing p me :
  missingSettings p = true ->
  load p me = (me, inl (FileException "Motion detection settings are missing" "load")).
Proof. intros Hm. unfold load. rewrite Hm. reflexivity. Qed.

(** A conversion the JSON library refuses ends [load] with the library's
    own exception and the extractor untouched. *)
Lemma load_refused p me :
  missingSettings p = false ->
  asInt (member p "sensitivity") = None \/
  asDouble (member p "settle time") = None \/
  asInt (member p "erosion level") = None ->
  load p me = (me, inl LogicError).
Proof.
  intros Hm Hr. unfold load. rewrite Hm. unfold bind.
  destruct (asInt (member p "sensitivity")) as [si|]; [|reflexivity].
  destruct (asDouble (member p "settle time")) as [td|]; [|reflexivity].
  destruct (asInt (member p "erosion level")) as [ei|]; [|reflexivity].
  destruct Hr as [Hr|[Hr|Hr]]; discriminate.
Qed.







Lemma member_save me :
  member (save me ∅) "sensitivity" = intValue (getSensitivity me) /\
  member (save me ∅) "settle time" = realValue (getSettleTime me) /\
  member (save me ∅) "erosion level" = intValue (getErosion me).
Proof.
  unfold save, member. split; [|split].
  - rewrite !lookup_insert_ne by done. rewrite lookup_insert_eq. reflexivity.
  - rewrite lookup_insert_ne by done. rewrite lookup_insert_eq. reflexivity.
  - rewrite lookup_insert_eq. reflexivity.
Qed.

(** What [load] makes of a saved record: sensitivity and erosion level
    come back as they were, the stable cap is computed anew from the
    saved quotient. *)
Lemma save_then_load me other :
  1 <= getSensitivity me <= 127 -> 0 <= getErosion me <= 8 ->
  (getSettleTime me <? 1)%float = false -> (60 <? getSettleTime me)%float = false ->
  load (save me ∅) other =
    (reset (set_erosionLevel
              (reset (set_stableCap
                        (reset (set_motionThreshold other (getSensitivity me)))
                        (double2uint (ceil (getSettleTime me * fps other)%float))))
              (getErosion me)),
     inr tt).
Proof.
  intros Hs He Ht1 Ht2.
  destruct (member_save me) as (Ms & Mt & Me).
  rewrite (load_converted (save me ∅) other (getSensitivity me) (getSettleTime me)
             (getErosion me)).
  - replace (invalidSettings (getSensitivity me) (getSettleTime me) (getErosion me))
      with false; [reflexivity|].
    symmetry. unfold invalidSettings. rewrite Ht1, Ht2.
    rewrite !orb_false_iff. repeat split; try reflexivity;
      first [apply Z.ltb_ge; lia | rewrite Z.gtb_ltb; apply Z.ltb_ge; lia].
  - unfold missingSettings. rewrite Ms, Mt, Me. reflexivity.
  - rewrite Ms. reflexivity.
  - rewrite Mt. reflexivity.
  - rewrite Me. reflexivity.
Qed.

(** C9. At 30 frames per second, an extractor whose settle time was set
    to 1.03125 s holds a stable cap of 31 frames and reports 31/30 s, a
    valid state. [save] writes that quotient; [load] into a fresh
    extractor built with the same rate accepts it and stores
    [ceil(31/30 * 30)], which rounds to 32 frames: the settle time read
    back is 32/30 s, not 31/30 s, while sensitivity and erosion level
    are reproduced. *)
Theorem save_load_settle_time_drifts :
  forall (fresh : nat -> nat -> Z) (frameWidth frameHeight : nat),
    let original :=
      fst (setSettleTime 1.03125%float
             (MotionExtractor_new fresh frameWidth frameHeight 30%float)) in
    let loaded :=
      load (save original ∅)
        (MotionExtractor_new fresh frameWidth frameHeight 30%float) in
    (getSensitivity original = 26 /\ getErosion original = 5 /\
     stableCap original = 31 /\
     (1 <=? getSettleTime original)%float = true /\
     (getSettleTime original <=? 60)%float = true) /\
    snd loaded = inr tt /\
    getSensitivity (fst loaded) = getSensitivity original /\
    getErosion (fst loaded) = getErosion original /\
    stableCap (fst loaded) = 32 /\
    (getSettleTime (fst loaded) =? getSettleTime original)%float = false /\
    getSettleTime (fst loaded) <> getSettleTime original.
Proof.
  intros fresh frameWidth frameHeight original loaded.
  split; [|split; [|split; [|split; [|split; [|split]]]]].
  - vm_compute. auto.
  - vm_compute. reflexivity.
  - vm_compute. reflexivity.
  - vm_compute. reflexivity.
  - vm_compute. reflexivity.
  - vm_compute. reflexivity.
  - intros Heq.
    pose proof (f_equal (fun x => (x =? getSettleTime original)%float) Heq) as Hb.
    vm_compute in Hb. discriminate.
Qed.

(** ** Buffers *)

Lemma nth_insert (l : list Z) (i j : nat) (v : Z) :
  nth j (<[i := v]> l) 0 =
    if decide (i = j /\ (j < length l)%nat) then v else nth j l 0.
Proof.
  rewrite !nth_lookup, list_lookup_insert.
  destruct (decide (i = j /\ (j < length l)%nat)) as [[-> Hj]|Hno];
    destruct (decide (_ /\ _)) as [[Heq Hi]|Hno']; try reflexivity.
  - exfalso. apply Hno'. split; [reflexivity|exact Hj].
  - exfalso. apply Hno. subst j. split; [reflexivity|exact Hi].
Qed.

Lemma peek_inside (beyond : Z -> Z) (buf : list Z) (i : nat) :
  (i < length buf)%nat -> peek beyond buf (Z.of_nat i) = nth i buf 0.
Proof.
  intros Hi. unfold peek.
  destruct (Z.leb_spec 0 (Z.of_nat i)); [|lia].
  destruct (Z.ltb_spec (Z.of_nat i) (Z.of_nat (length buf))); [|lia].
  simpl. rewrite Nat2Z.id. reflexivity.
Qed.

Lemma is_byte_nth (l : list Z) (i : nat) :
  Forall is_byte l -> is_byte (nth i l 0).
Proof.
  intros Hl. rewrite nth_lookup.
  destruct (l !! i) as [v|] eqn:Hv; simpl.
  - exact (Forall_lookup_1 _ _ _ _ Hl Hv).
  - unfold is_byte. lia.
Qed.

Lemma half_double (n : nat) : (2 * (n / kDownscaleRatio) <= n)%nat.
Proof. unfold kDownscaleRatio. apply Nat.Div0.mul_div_le. Qed.

(** ** downscale: the accumulation loop *)

Lemma addChannels_length beyond src sp a n :
  forall c acc, length (addChannels beyond src sp a c n acc) = length acc.
Proof.
  induction n as [|n IH]; intros c acc; simpl; [reflexivity|].
  rewrite IH, length_insert. reflexivity.
Qed.

Lemma addChannels_nth beyond src sp a n :
  forall c acc i,
    (a + c + n <= length acc)%nat ->
    nth i (addChannels beyond src sp a c n acc) 0 =
      if decide (a + c <= i < a + c + n)%nat
      then u16 (nth i acc 0 + peek beyond src (Z.of_nat (sp + (i - a))))
      else nth i acc 0.
Proof.
  induction n as [|n IH]; intros c acc i Hlen; simpl.
  - destruct (decide (a + c <= i < a + c + 0)%nat); [lia|reflexivity].
  - rewrite IH by (rewrite length_insert; lia).
    rewrite nth_insert.
    destruct (decide (a + S c <= i < a + S c + n)%nat) as [Hin|Hout].
    + destruct (decide ((a + c)%nat = i /\ (i < length acc)%nat)); [lia|].
      destruct (decide (a + c <= i < a + c + S n)%nat); [reflexivity|lia].
    + destruct (decide ((a + c)%nat = i /\ (i < length acc)%nat)) as [[<- _]|Hne].
      * destruct (decide (a + c <= a + c < a + c + S n)%nat); [|lia].
        replace (a + c - a)%nat with c by lia. reflexivity.
      * destruct (decide (a + c <= i < a + c + S n)%nat); [lia|reflexivity].
Qed.

Lemma addPixels_two beyond src a sp acc :
  addPixels beyond src a kDownscaleRatio sp acc =
    (addChannels beyond src (sp + 3) a 0 3 (addChannels beyond src sp a 0 3 acc),
     (sp + 6)%nat).
Proof.
  unfold kDownscaleRatio; simpl. unfold kBytesPerPixel.
  replace (sp + 3 + 3)%nat with (sp + 6)%nat by lia. reflexivity.
Qed.

Lemma addPixels_length beyond src a sp acc :
  length (fst (addPixels beyond src a kDownscaleRatio sp acc)) = length acc.
Proof. rewrite addPixels_two; cbn [fst]. rewrite !addChannels_length. reflexivity. Qed.

Lemma addPixels_nth beyond src a sp acc i :
  (a + 3 <= length acc)%nat ->
  nth i (fst (addPixels beyond src a kDownscaleRatio sp acc)) 0 =
    if decide (a <= i < a + 3)%nat
    then u16 (u16 (nth i acc 0 + peek beyond src (Z.of_nat (sp + (i - a))))
              + peek beyond src (Z.of_nat (sp + 3 + (i - a))))
    else nth i acc 0.
Proof.
  intros Hlen. rewrite addPixels_two; cbn [fst].
  rewrite addChannels_nth by (rewrite addChannels_length; lia).
  rewrite addChannels_nth by lia.
  destruct (decide (a + 0 <= i < a + 0 + 3)%nat);
    destruct (decide (a <= i < a + 3)%nat); try lia; reflexivity.
Qed.

Section DownscaleLoop.

Variable beyond : Z -> Z.
Variable me : MotionExtractor.
Variables frameWidth frameHeight : nat.
Variable src : list Z.
Hypothesis Hcoh : coherent frameWidth frameHeight me.

Lemma downscaleStep_accumulators s :
  accumulators (downscaleStep beyond me src s) =
    fst (addPixels beyond src (accum s) kDownscaleRatio (srcPixel s) (accumulators s)).
Proof.
  unfold downscaleStep.
  destruct (addPixels beyond src (accum s) kDownscaleRatio (srcPixel s)
              (accumulators s)) as [acc sp].
  destruct (Nat.eqb _ (imageWidth me)); [destruct (Nat.eqb _ kDownscaleRatio)|];
    reflexivity.
Qed.

Lemma downscaleStep_loopAt t x s :
  loopAt me frameWidth t x s -> (x < imageWidth me)%nat ->
  loopAt me frameWidth (fst (nextAt me t x)) (snd (nextAt me t x)) (downscaleStep beyond me src s).
Proof.
  intros [Hrows Hsr Hcol Hacc Hrow Hsrc Hlen] Hx.
  pose proof (coh_destLineSize _ _ _ Hcoh) as Hdest.
  pose proof (coh_srcLineSize _ _ _ Hcoh) as Hline.
  unfold kBytesPerPixel in Hdest, Hline.
  pose proof (downscaleStep_accumulators s) as Haccs.
  pose proof (addPixels_length beyond src (accum s) (srcPixel s) (accumulators s)) as Hl.
  rewrite <- Haccs in Hl. clear Haccs.
  revert Hl. unfold downscaleStep, nextAt. rewrite addPixels_two, Hcol.
  destruct (Nat.eqb_spec (S x) (imageWidth me)) as [Hend|Hmid].
  - unfold kDownscaleRatio.
    destruct (Nat.eqb_spec (S (srcRowsPerAccumRow s)) 2) as [Htwo|Hone];
      simpl; intros Hl; split; simpl; rewrite ?Hdest, ?Hline; try lia.
  - simpl; intros Hl; split; simpl; unfold kBytesPerPixel; try lia.
Qed.

Lemma loopAt_running t x s :
  loopAt me frameWidth t x s -> (t < 2 * imageHeight me)%nat -> (x < imageWidth me)%nat ->
  (accum s < 3 * (imageWidth me * imageHeight me))%nat.
Proof.
  intros [Hrows Hsr Hcol Hacc Hrow Hsrc Hlen] Ht Hx. rewrite Hacc.
  assert (accumRowsDone s < imageHeight me)%nat by lia.
  nia.
Qed.

Lemma loopAt_finished s :
  loopAt me frameWidth (2 * imageHeight me) 0 s ->
  accum s = (3 * (imageWidth me * imageHeight me))%nat.
Proof.
  intros [Hrows Hsr Hcol Hacc Hrow Hsrc Hlen]. rewrite Hacc.
  assert (accumRowsDone s = imageHeight me) as -> by lia. lia.
Qed.

Lemma nextAt_valid t x :
  (t < 2 * imageHeight me)%nat -> (x < imageWidth me)%nat ->
  ((fst (nextAt me t x) < 2 * imageHeight me)%nat /\
   (snd (nextAt me t x) < imageWidth me)%nat \/
   nextAt me t x = ((2 * imageHeight me)%nat, 0%nat)) /\
  S (roundsLeft me (fst (nextAt me t x)) (snd (nextAt me t x))) = roundsLeft me t x.
Proof.
  intros Ht Hx. unfold nextAt, roundsLeft.
  destruct (Nat.eqb_spec (S x) (imageWidth me)) as [Hend|Hmid]; simpl.
  - split.
    + destruct (decide (S t = 2 * imageHeight me)%nat) as [->|]; [right; reflexivity|].
      left. lia.
    + nia.
  - split; [left; lia|]. nia.
Qed.

End DownscaleLoop.

(** ** downscale: what the accumulators hold *)

Lemma sample_is_byte width px x y c :
  Forall is_byte px -> is_byte (sample width px x y c).
Proof. intros Hpx. unfold sample. apply is_byte_nth, Hpx. Qed.

Lemma rowPair_bounds width px x q c :
  Forall is_byte px -> 0 <= rowPair width px x q c <= 510.
Proof.
  intros Hpx. unfold rowPair.
  pose proof (sample_is_byte width px (2 * x) q c Hpx) as H1.
  pose proof (sample_is_byte width px (2 * x + 1) q c Hpx) as H2.
  unfold is_byte in *. lia.
Qed.

Lemma partialSum_bounds width px t x r' x' c :
  Forall is_byte px -> 0 <= partialSum width px t x r' x' c <= 1020.
Proof.
  intros Hpx. unfold partialSum.
  pose proof (rowPair_bounds width px x' (2 * r') c Hpx).
  pose proof (rowPair_bounds width px x' (2 * r' + 1) c Hpx).
  destruct (passed (2 * r') x' t x), (passed (2 * r' + 1) x' t x); lia.
Qed.

Lemma passed_nextAt me t x q x' :
  (x < imageWidth me)%nat -> (x' < imageWidth me)%nat ->
  passed q x' (fst (nextAt me t x)) (snd (nextAt me t x)) =
    passed q x' t x || bool_decide (q = t /\ x' = x).
Proof.
  intros Hx Hx'. unfold nextAt, passed.
  destruct (Nat.eqb_spec (S x) (imageWidth me)); simpl;
    repeat case_bool_decide; simpl; try reflexivity; exfalso; lia.
Qed.

Lemma u16_accumulate a s0 s1 :
  0 <= a <= 510 -> 0 <= s0 < 256 -> 0 <= s1 < 256 ->
  u16 (u16 (a + s0) + s1) = a + s0 + s1.
Proof.
  intros Ha H0 H1. unfold u16.
  rewrite (Z.mod_small (a + s0)) by lia. apply Z.mod_small. lia.
Qed.

Lemma pixel_index_inj (w r x r' x' : nat) :
  (x < w)%nat -> (x' < w)%nat ->
  (r' * w + x' = r * w + x)%nat -> r' = r /\ x' = x.
Proof. intros Hx Hx' Heq. assert (r' = r) by nia. subst. lia. Qed.

Section DownscaleContent.

Variable beyond : Z -> Z.
Variable me : MotionExtractor.
Variables frameWidth frameHeight : nat.
Variable src : list Z.
Hypothesis Hcoh : coherent frameWidth frameHeight me.
Hypothesis Hlen : length src = (frameWidth * frameHeight * kBytesPerPixel)%nat.
Hypothesis Hbytes : Forall is_byte src.

(** The two reads of a round are inside the frame and are the samples
    of the block. *)
Lemma block_reads t x c :
  (t < 2 * imageHeight me)%nat -> (x < imageWidth me)%nat -> (c < 3)%nat ->
  peek beyond src (Z.of_nat (t * (3 * frameWidth) + 6 * x + c))
    = sample frameWidth src (2 * x) t c /\
  peek beyond src (Z.of_nat (t * (3 * frameWidth) + 6 * x + 3 + c))
    = sample frameWidth src (2 * x + 1) t c.
Proof.
  intros Ht Hx Hc.
  pose proof (half_double frameWidth) as Hw.
  pose proof (half_double frameHeight) as Hh.
  rewrite <- (coh_imageWidth _ _ _ Hcoh) in Hw.
  rewrite <- (coh_imageHeight _ _ _ Hcoh) in Hh.
  assert (t * frameWidth + 2 * x + 1 < frameWidth * frameHeight)%nat by nia.
  unfold sample, kBytesPerPixel in *.
  rewrite !peek_inside by lia.
  split; f_equal; lia.
Qed.

Lemma downscaleStep_contentAt t x s :
  loopAt me frameWidth t x s ->
  contentAt me frameWidth src t x (accumulators s) ->
  (t < 2 * imageHeight me)%nat -> (x < imageWidth me)%nat ->
  contentAt me frameWidth src (fst (nextAt me t x)) (snd (nextAt me t x))
    (accumulators (downscaleStep beyond me src s)).
Proof.
  intros Hat Hcontent Ht Hx r' x' c Hr' Hx' Hc.
  pose proof (loopAt_running me frameWidth t x s Hat Ht Hx) as Hrun.
  destruct Hat as [Hrows Hsr Hcol Hacc Hrow Hsrc Hlength].
  rewrite downscaleStep_accumulators.
  rewrite addPixels_nth by lia.
  rewrite (Hcontent r' x' c Hr' Hx' Hc).
  unfold partialSum. rewrite !passed_nextAt by assumption.
  pose proof (rowPair_bounds frameWidth src x' (2 * r') c Hbytes) as Hb0.
  pose proof (rowPair_bounds frameWidth src x' (2 * r' + 1) c Hbytes) as Hb1.
  destruct (decide (accum s <= 3 * (r' * imageWidth me + x') + c < accum s + 3)%nat)
    as [Hin|Hout].
  - assert (r' * imageWidth me + x' = accumRowsDone s * imageWidth me + x)%nat
      as Hpix by lia.
    destruct (pixel_index_inj _ _ _ _ _ Hx Hx' Hpix) as [-> ->].
    replace (3 * (accumRowsDone s * imageWidth me + x) + c - accum s)%nat
      with c by lia.
    rewrite Hsrc.
    destruct (block_reads t x c Ht Hx Hc) as [-> ->].
    pose proof (sample_is_byte frameWidth src (2 * x) t c Hbytes) as Hs0.
    pose proof (sample_is_byte frameWidth src (2 * x + 1) t c Hbytes) as Hs1.
    unfold is_byte in Hs0, Hs1.
    assert (srcRowsPerAccumRow s = 0 \/ srcRowsPerAccumRow s = 1)%nat
      as [Hzero|Hone] by lia.
    + assert (t = 2 * accumRowsDone s)%nat as Et by lia.
      rewrite <- Et in *.
      replace (passed t x t x) with false
        by (unfold passed; case_bool_decide; [lia|reflexivity]).
      replace (passed (t + 1) x t x) with false
        by (unfold passed; case_bool_decide; [lia|reflexivity]).
      rewrite bool_decide_eq_true_2 by lia.
      rewrite (bool_decide_eq_false_2 (_ /\ _)) by lia.
      cbn [orb]. rewrite u16_accumulate by lia. unfold rowPair. lia.
    + assert (t = 2 * accumRowsDone s + 1)%nat as Et by lia.
      rewrite <- Et in *.
      replace (passed (2 * accumRowsDone s) x t x) with true
        by (unfold passed; case_bool_decide; [reflexivity|lia]).
      replace (passed t x t x) with false
        by (unfold passed; case_bool_decide; [lia|reflexivity]).
      rewrite (bool_decide_eq_true_2 (t = t /\ _)) by lia.
      cbn [orb]. rewrite u16_accumulate by lia. unfold rowPair. lia.
  - assert (~ (r' = accumRowsDone s /\ x' = x)) as Hother.
    { intros [-> ->]. lia. }
    rewrite !(bool_decide_eq_false_2 (_ /\ _)) by lia.
    rewrite !orb_false_r. reflexivity.
Qed.

End DownscaleContent.

(** ** downscale: the loop ends, with every block accumulated *)

Lemma downscaleLoop_O beyond me src accumEnd s :
  downscaleLoop 0 beyond me src accumEnd s =
    if Nat.ltb (accum s) accumEnd then None else Some s.
Proof. reflexivity. Qed.

Lemma downscaleLoop_S fuel beyond me src accumEnd s :
  downscaleLoop (S fuel) beyond me src accumEnd s =
    if Nat.ltb (accum s) accumEnd
    then downscaleLoop fuel beyond me src accumEnd (downscaleStep beyond me src s)
    else Some s.
Proof. reflexivity. Qed.

Section DownscaleRuns.

Variable beyond : Z -> Z.
Variable me : MotionExtractor.
Variables frameWidth frameHeight : nat.
Variable src : list Z.
Hypothesis Hcoh : coherent frameWidth frameHeight me.

(** Whatever holds at the start and is kept by every round holds when
    the loop ends, and the loop ends within the rounds left. *)
Lemma downscaleLoop_invariant (P : nat -> nat -> DownscaleLoop -> Prop) :
  (forall t x s,
      loopAt me frameWidth t x s -> P t x s ->
      (t < 2 * imageHeight me)%nat -> (x < imageWidth me)%nat ->
      P (fst (nextAt me t x)) (snd (nextAt me t x)) (downscaleStep beyond me src s)) ->
  forall fuel t x s,
    loopAt me frameWidth t x s -> P t x s ->
    ((t < 2 * imageHeight me)%nat /\ (x < imageWidth me)%nat \/
     (t, x) = ((2 * imageHeight me)%nat, 0%nat)) ->
    (roundsLeft me t x <= fuel)%nat ->
    exists s',
      downscaleLoop fuel beyond me src (3 * (imageWidth me * imageHeight me)) s
        = Some s' /\
      loopAt me frameWidth (2 * imageHeight me) 0 s' /\
      P (2 * imageHeight me)%nat 0%nat s'.
Proof.
  intros Hstep. induction fuel as [|fuel IH]; intros t x s Hat HP Hvalid Hfuel.
  - destruct Hvalid as [[Ht Hx]|Hend].
    + exfalso. unfold roundsLeft in Hfuel. nia.
    + injection Hend as -> ->. exists s. rewrite downscaleLoop_O.
      rewrite (loopAt_finished me frameWidth s Hat), Nat.ltb_irrefl. auto.
  - destruct Hvalid as [[Ht Hx]|Hend].
    + rewrite downscaleLoop_S.
      pose proof (loopAt_running me frameWidth t x s Hat Ht Hx) as Hrun.
      apply Nat.ltb_lt in Hrun. rewrite Hrun.
      destruct (nextAt_valid me t x Ht Hx) as [Hnext Hleft].
      apply (IH (fst (nextAt me t x)) (snd (nextAt me t x))).
      * apply (downscaleStep_loopAt beyond me frameWidth frameHeight src Hcoh);
          assumption.
      * apply Hstep; assumption.
      * destruct Hnext as [Hnext|Hnext]; [left; exact Hnext|right].
        rewrite <- Hnext. destruct (nextAt me t x); reflexivity.
      * lia.
    + injection Hend as -> ->. exists s. rewrite downscaleLoop_S.
      rewrite (loopAt_finished me frameWidth s Hat), Nat.ltb_irrefl. auto.
Qed.

Lemma loopAt_start (cleared : list Z) :
  length cleared = (3 * (imageWidth me * imageHeight me))%nat ->
  loopAt me frameWidth 0 0 (mkLoop 0 0 0 0 0 0 cleared).
Proof. intros Hl. split; simpl; lia. Qed.

Lemma imageSize_eq : imageSize me = (3 * (imageWidth me * imageHeight me))%nat.
Proof.
  rewrite (coh_imageSize _ _ _ Hcoh), (coh_imageArea _ _ _ Hcoh).
  unfold kBytesPerPixel. lia.
Qed.

(** The loop of [downscale], from the cleared accumulators. *)
Lemma downscaleLoop_returns (P : nat -> nat -> DownscaleLoop -> Prop) :
  (forall t x s,
      loopAt me frameWidth t x s -> P t x s ->
      (t < 2 * imageHeight me)%nat -> (x < imageWidth me)%nat ->
      P (fst (nextAt me t x)) (snd (nextAt me t x)) (downscaleStep beyond me src s)) ->
  P 0%nat 0%nat (mkLoop 0 0 0 0 0 0 (map (fun _ => 0) (downscaleAccumulators me))) ->
  (imageWidth me = 0%nat \/
   exists s',
     downscaleLoop (kDownscaleRatio * imageArea me) beyond me src
       (length (map (fun _ : Z => 0) (downscaleAccumulators me)))
       (mkLoop 0 0 0 0 0 0 (map (fun _ => 0) (downscaleAccumulators me)))
       = Some s' /\
     length (accumulators s') = imageSize me /\
     P (2 * imageHeight me)%nat 0%nat s') /\
  exists s',
    downscaleLoop (kDownscaleRatio * imageArea me) beyond me src
      (length (map (fun _ : Z => 0) (downscaleAccumulators me)))
      (mkLoop 0 0 0 0 0 0 (map (fun _ => 0) (downscaleAccumulators me)))
      = Some s' /\
    length (accumulators s') = imageSize me.
Proof.
  intros Hstep Hstart.
  assert (length (map (fun _ : Z => 0) (downscaleAccumulators me))
          = (3 * (imageWidth me * imageHeight me))%nat) as Hcl.
  { rewrite length_map, (coh_accumulators _ _ _ Hcoh). apply imageSize_eq. }
  destruct (decide (imageWidth me = 0%nat)) as [Hzero|Hpos].
  - split; [left; exact Hzero|].
    exists (mkLoop 0 0 0 0 0 0 (map (fun _ => 0) (downscaleAccumulators me))).
    rewrite (coh_imageArea _ _ _ Hcoh), Hzero in *. simpl.
    rewrite Hcl. simpl. split; [reflexivity|].
    rewrite imageSize_eq, Hzero. reflexivity.
  - destruct (downscaleLoop_invariant P Hstep (kDownscaleRatio * imageArea me) 0 0
                (mkLoop 0 0 0 0 0 0 (map (fun _ => 0) (downscaleAccumulators me))))
      as (s' & Hrun & Hat & HP).
    + apply loopAt_start, Hcl.
    + exact Hstart.
    + destruct (decide (imageHeight me = 0%nat)) as [Hh|Hh].
      * right. rewrite Hh. reflexivity.
      * left. lia.
    + unfold roundsLeft, kDownscaleRatio. rewrite (coh_imageArea _ _ _ Hcoh). lia.
    + rewrite Hcl.
      assert (length (accumulators s') = imageSize me) as Hlen'.
      { rewrite imageSize_eq. apply (at_length _ _ _ _ _ Hat). }
      split; [right|]; exists s'; auto.
Qed.

End DownscaleRuns.

(** ** downscale: the result *)

Lemma divideInto_length accs :
  forall dp, length (divideInto accs dp) = length dp.
Proof.
  induction accs as [|a accs IH]; intros [|d dp]; simpl; try reflexivity.
  rewrite IH. reflexivity.
Qed.

Lemma divideInto_nth accs :
  forall dp i,
    length accs = length dp -> (i < length dp)%nat ->
    nth i (divideInto accs dp) 0 = u8 (nth i accs 0 / 4).
Proof.
  induction accs as [|a accs IH]; intros [|d dp] i Hlen Hi; simpl in *; try lia.
  destruct i as [|i]; [reflexivity|].
  apply IH; lia.
Qed.

Lemma downscale_returns beyond me frameWidth frameHeight frame :
  coherent frameWidth frameHeight me ->
  exists accs,
    downscale beyond me frame =
      Some (set_downscaleBuff (set_downscaleAccumulators me accs)
              (withPixels (downscaleBuff me)
                 (divideInto accs (getPixels (downscaleBuff me))))) /\
    length accs = imageSize me.
Proof.
  intros Hcoh.
  destruct (downscaleLoop_returns beyond me frameWidth frameHeight (getPixels frame)
              Hcoh (fun _ _ _ => True)) as [_ (s' & Hrun & Hlen)]; [auto|auto|].
  exists (accumulators s'). unfold downscale. rewrite Hrun. split; [reflexivity|exact Hlen].
Qed.

Lemma downscale_content beyond me frameWidth frameHeight frame :
  coherent frameWidth frameHeight me ->
  length (getPixels frame) = (frameWidth * frameHeight * kBytesPerPixel)%nat ->
  Forall is_byte (getPixels frame) ->
  exists accs,
    downscale beyond me frame =
      Some (set_downscaleBuff (set_downscaleAccumulators me accs)
              (withPixels (downscaleBuff me)
                 (divideInto accs (getPixels (downscaleBuff me))))) /\
    length accs = imageSize me /\
    contentAt me frameWidth (getPixels frame) (2 * imageHeight me) 0 accs.
Proof.
  intros Hcoh Hlen Hbytes.
  destruct (downscaleLoop_returns beyond me frameWidth frameHeight (getPixels frame)
              Hcoh
              (fun t x s => contentAt me frameWidth (getPixels frame) t x (accumulators s)))
    as [Hcontent (s' & Hrun & Hlen')].
  - intros t x s Hat HP Ht Hx.
    apply (downscaleStep_contentAt beyond me frameWidth frameHeight (getPixels frame)
             Hcoh Hlen Hbytes); assumption.
  - intros r' x' c Hr' Hx' Hc. simpl.
    unfold partialSum, passed.
    rewrite !bool_decide_eq_false_2 by lia.
    rewrite nth_lookup, list_lookup_fmap.
    destruct (downscaleAccumulators me !! _); reflexivity.
  - exists (accumulators s'). unfold downscale. rewrite Hrun.
    split; [reflexivity|]. split; [exact Hlen'|].
    destruct Hcontent as [Hzero|(s'' & Hrun' & _ & Hc)].
    + intros r' x' c Hr' Hx'. lia.
    + rewrite Hrun in Hrun'. injection Hrun' as <-. exact Hc.
Qed.

Lemma set_downscale_coherent frameWidth frameHeight me accs px :
  coherent frameWidth frameHeight me ->
  length accs = imageSize me -> length px = imageSize me ->
  coherent frameWidth frameHeight
    (set_downscaleBuff (set_downscaleAccumulators me accs)
       (withPixels (downscaleBuff me) px)).
Proof. intros [] Ha Hp. split; simpl; assumption. Qed.

Lemma blockAverage_bounds width px x y c :
  Forall is_byte px -> 0 <= blockAverage width px x y c < 256.
Proof.
  intros Hpx. unfold blockAverage.
  pose proof (sample_is_byte width px (2 * x) (2 * y) c Hpx).
  pose proof (sample_is_byte width px (2 * x + 1) (2 * y) c Hpx).
  pose proof (sample_is_byte width px (2 * x) (2 * y + 1) c Hpx).
  pose proof (sample_is_byte width px (2 * x + 1) (2 * y + 1) c Hpx).
  unfold is_byte in *. split.
  - apply Z.div_pos; lia.
  - apply Z.div_lt_upper_bound; lia.
Qed.

(** Every channel of every pixel of the downscaled frame is the
    truncated mean of its 2x2 block. *)
Lemma downscale_samples beyond me frameWidth frameHeight frame :
  coherent frameWidth frameHeight me ->
  length (getPixels frame) = (frameWidth * frameHeight * kBytesPerPixel)%nat ->
  Forall is_byte (getPixels frame) ->
  exists me',
    downscale beyond me frame = Some me' /\
    coherent frameWidth frameHeight me' /\
    forall x y c : nat,
      (x < imageWidth me)%nat -> (y < imageHeight me)%nat -> (c < 3)%nat ->
      sample (imageWidth me) (getPixels (downscaleBuff me')) x y c
        = blockAverage frameWidth (getPixels frame) x y c.
Proof.
  intros Hcoh Hlen Hbytes.
  destruct (downscale_content beyond me frameWidth frameHeight frame Hcoh Hlen Hbytes)
    as (accs & Hrun & Hlen' & Hcontent).
  eexists. split; [exact Hrun|]. split.
  { apply set_downscale_coherent; try assumption.
    rewrite divideInto_length. apply (coh_downscaleBuff _ _ _ Hcoh). }
  intros x y c Hx Hy Hc. simpl. unfold sample, kBytesPerPixel.
  pose proof (coh_downscaleBuff _ _ _ Hcoh) as Hdown.
  pose proof (imageSize_eq me frameWidth frameHeight Hcoh) as Hsize.
  rewrite divideInto_nth by (rewrite ?Hdown, ?Hlen', ?Hsize; nia).
  replace ((y * imageWidth me + x) * 3 + c)%nat
    with (3 * (y * imageWidth me + x) + c)%nat by lia.
  rewrite (Hcontent y x c Hy Hx Hc).
  unfold partialSum, passed. rewrite !bool_decide_eq_true_2 by lia.
  pose proof (blockAverage_bounds frameWidth (getPixels frame) x y c Hbytes) as Hb.
  unfold blockAverage in *. unfold rowPair.
  match goal with
  | |- u8 (?a / 4) = ?b / 4 => replace a with b by lia
  end.
  unfold u8. apply Z.mod_small. exact Hb.
Qed.

(** Two buffers of a [w] x [h] image with the same samples are equal. *)
Lemma pixel_buffer_ext (w h : nat) (l1 l2 : list Z) :
  length l1 = (3 * (w * h))%nat -> length l2 = (3 * (w * h))%nat ->
  (forall x y c : nat, (x < w)%nat -> (y < h)%nat -> (c < 3)%nat ->
     sample w l1 x y c = sample w l2 x y c) ->
  l1 = l2.
Proof.
  intros H1 H2 Hsame. apply (nth_ext _ _ 0 0); [lia|].
  intros i Hi. rewrite H1 in Hi.
  assert (w <> 0)%nat as Hw by (intros ->; simpl in Hi; lia).
  pose proof (Nat.div_mod_eq i 3) as Hi3.
  pose proof (Nat.mod_upper_bound i 3 ltac:(lia)) as Hc.
  pose proof (Nat.div_mod_eq (i / 3) w) as Hj.
  pose proof (Nat.mod_upper_bound (i / 3) w Hw) as Hx.
  assert (i / 3 / w < h)%nat as Hy.
  { apply Nat.Div0.div_lt_upper_bound. lia. }
  specialize (Hsame ((i / 3) mod w) (i / 3 / w) (i mod 3) Hx Hy Hc)%nat.
  unfold sample, kBytesPerPixel in Hsame.
  replace ((i / 3 / w * w + (i / 3) mod w) * 3 + i mod 3)%nat with i in Hsame by lia.
  exact Hsame.
Qed.

Lemma coherent_halves frameWidth frameHeight me :
  coherent frameWidth frameHeight me ->
  imageWidth me = (frameWidth / 2)%nat /\ imageHeight me = (frameHeight / 2)%nat /\
  (2 * imageWidth me <= frameWidth)%nat /\ (2 * imageHeight me <= frameHeight)%nat.
Proof.
  intros Hcoh.
  pose proof (half_double frameWidth). pose proof (half_double frameHeight).
  rewrite (coh_imageWidth _ _ _ Hcoh), (coh_imageHeight _ _ _ Hcoh).
  unfold kDownscaleRatio in *. auto.
Qed.

(** C5. For a frame of the configured source geometry, [downscale]
    returns; the downscaled frame is floor(width/2) x floor(height/2)
    pixels; every channel of every output pixel is the sum of the four
    samples of its 2x2 source block divided by 4 with truncation; and
    two frames that agree on the first 2*floor(width/2) columns and
    2*floor(height/2) rows give the same downscaled frame, so a trailing
    odd row or column contributes nothing. *)
Theorem downscale_block_average :
  forall (beyond : Z -> Z) (me : MotionExtractor) (frameWidth frameHeight : nat)
         (frame : VideoFrame),
    coherent frameWidth frameHeight me ->
    length (getPixels frame) = (frameWidth * frameHeight * kBytesPerPixel)%nat ->
    Forall is_byte (getPixels frame) ->
    exists me',
      downscale beyond me frame = Some me' /\
      getWidth (downscaleBuff me') = (frameWidth / 2)%nat /\
      getHeight (downscaleBuff me') = (frameHeight / 2)%nat /\
      length (getPixels (downscaleBuff me'))
        = (frameWidth / 2 * (frameHeight / 2) * kBytesPerPixel)%nat /\
      (forall x y c : nat,
         (x < frameWidth / 2)%nat -> (y < frameHeight / 2)%nat -> (c < 3)%nat ->
         sample (frameWidth / 2) (getPixels (downscaleBuff me')) x y c
           = blockAverage frameWidth (getPixels frame) x y c) /\
      (forall frame2 : VideoFrame,
         length (getPixels frame2) = (frameWidth * frameHeight * kBytesPerPixel)%nat ->
         Forall is_byte (getPixels frame2) ->
         (forall x y c : nat,
            (x < 2 * (frameWidth / 2))%nat -> (y < 2 * (frameHeight / 2))%nat ->
            (c < 3)%nat ->
            sample frameWidth (getPixels frame2) x y c
              = sample frameWidth (getPixels frame) x y c) ->
         exists me2,
           downscale beyond me frame2 = Some me2 /\
           getPixels (downscaleBuff me2) = getPixels (downscaleBuff me')).
Proof.
  intros beyond me frameWidth frameHeight frame Hcoh Hlen Hbytes.
  destruct (coherent_halves _ _ _ Hcoh) as (Hw & Hh & _ & _).
  destruct (downscale_samples beyond me frameWidth frameHeight frame Hcoh Hlen Hbytes)
    as (me' & Hrun & Hcoh' & Hsamples).
  pose proof (imageSize_eq me' frameWidth frameHeight Hcoh') as Hsize'.
  destruct (coherent_halves _ _ _ Hcoh') as (Hw' & Hh' & _ & _).
  exists me'. split; [exact Hrun|].
  split; [rewrite (coh_downWidth _ _ _ Hcoh'); exact Hw'|].
  split; [rewrite (coh_downHeight _ _ _ Hcoh'); exact Hh'|].
  split.
  { rewrite (coh_downscaleBuff _ _ _ Hcoh'), Hsize', Hw', Hh'.
    unfold kBytesPerPixel. lia. }
  split.
  { rewrite <- Hw, <- Hh. exact Hsamples. }
  intros frame2 Hlen2 Hbytes2 Hagree.
  destruct (downscale_samples beyond me frameWidth frameHeight frame2 Hcoh Hlen2 Hbytes2)
    as (me2 & Hrun2 & Hcoh2 & Hsamples2).
  pose proof (imageSize_eq me2 frameWidth frameHeight Hcoh2) as Hsize2.
  destruct (coherent_halves _ _ _ Hcoh2) as (Hw2 & Hh2 & _ & _).
  exists me2. split; [exact Hrun2|].
  apply (pixel_buffer_ext (imageWidth me) (imageHeight me)).
  - rewrite (coh_downscaleBuff _ _ _ Hcoh2), Hsize2, Hw2, Hh2, Hw, Hh. reflexivity.
  - rewrite (coh_downscaleBuff _ _ _ Hcoh'), Hsize', Hw', Hh', Hw, Hh. reflexivity.
  - intros x y c Hx Hy Hc.
    rewrite (Hsamples2 x y c Hx Hy Hc), (Hsamples x y c Hx Hy Hc).
    unfold blockAverage. rewrite Hw in Hx. rewrite Hh in Hy.
    rewrite !Hagree by lia. reflexivity.
Qed.

(** ** The geometry is kept *)

Lemma pixelSteps_pixels (n : nat) : pixelSteps (n * kBytesPerPixel) = n.
Proof.
  unfold pixelSteps, kBytesPerPixel.
  replace (n * 3 + (3 - 1))%nat with (2 + n * 3)%nat by lia.
  rewrite Nat.div_add by lia. reflexivity.
Qed.

Lemma length_uninitialised wrap fresh k n :
  length (uninitialised wrap fresh k n) = n.
Proof. unfold uninitialised. rewrite length_map, length_seq. reflexivity. Qed.

Lemma length_memcpy dst src n :
  (n <= length src)%nat -> (n <= length dst)%nat ->
  length (memcpy dst src n) = length dst.
Proof.
  intros Hs Hd. unfold memcpy. rewrite length_app, length_take, length_drop. lia.
Qed.

Lemma memcpy_whole dst src :
  length dst = length src -> memcpy dst src (length src) = src.
Proof.
  intros Hl. unfold memcpy.
  rewrite take_ge, drop_ge by lia. apply app_nil_r.
Qed.

Lemma reset_records_zero me :
  length (stableRecords me) = imageArea me ->
  stableRecords (reset me) = replicate (imageArea me) 0.
Proof.
  intros Hl. simpl.
  rewrite take_ge, drop_ge by lia. rewrite app_nil_r.
  rewrite <- Hl. clear Hl. induction (stableRecords me) as [|r l IH]; simpl; congruence.
Qed.

Lemma reset_coherent frameWidth frameHeight me :
  coherent frameWidth frameHeight me -> coherent frameWidth frameHeight (reset me).
Proof.
  intros Hcoh. pose proof (reset_records_zero me (coh_records _ _ _ Hcoh)) as Hz.
  destruct Hcoh. split; try assumption.
  - simpl. rewrite length_map. assumption.
  - rewrite Hz, length_replicate. reflexivity.
Qed.

Lemma allocate_coherent fresh frameWidth frameHeight videoFPS :
  coherent frameWidth frameHeight (allocate fresh frameWidth frameHeight videoFPS).
Proof.
  split; simpl; rewrite ?length_uninitialised, ?length_replicate; reflexivity.
Qed.

Lemma new_coherent fresh frameWidth frameHeight videoFPS :
  coherent frameWidth frameHeight
    (MotionExtractor_new fresh frameWidth frameHeight videoFPS).
Proof. apply reset_coherent, allocate_coherent. Qed.

Lemma set_motionThreshold_coherent frameWidth frameHeight me v :
  coherent frameWidth frameHeight me ->
  coherent frameWidth frameHeight (set_motionThreshold me v).
Proof. intros []. split; assumption. Qed.

Lemma set_stableCap_coherent frameWidth frameHeight me v :
  coherent frameWidth frameHeight me ->
  coherent frameWidth frameHeight (set_stableCap me v).
Proof. intros []. split; assumption. Qed.

Lemma set_erosionLevel_coherent frameWidth frameHeight me v :
  coherent frameWidth frameHeight me ->
  coherent frameWidth frameHeight (set_erosionLevel me v).
Proof. intros []. split; assumption. Qed.

Lemma setIndicator_length v p : length (setIndicator v p) = length p.
Proof. apply length_insert. Qed.

Lemma wipeIndicator_length bpp fuel :
  forall mask, length (wipeIndicator fuel bpp mask) = length mask.
Proof.
  induction fuel as [|fuel IH]; intros [|b mask]; try reflexivity.
  cbn [wipeIndicator].
  rewrite length_app, setIndicator_length, IH, length_take, length_drop. lia.
Qed.

Lemma wipeIndicator_clear fuel :
  forall mask,
    (length mask <= 3 * fuel)%nat ->
    indicatorClear (wipeIndicator fuel 3 mask).
Proof.
  unfold indicatorClear, kBytesPerPixel.
  induction fuel as [|fuel IH]; intros mask Hfuel i Hi.
  - rewrite wipeIndicator_length in Hi. lia.
  - rewrite wipeIndicator_length in Hi.
    destruct mask as [|b0 mask]; [simpl in Hi; lia|].
    cbn [wipeIndicator].
    destruct i as [|i].
    + reflexivity.
    + assert (length (setIndicator 0 (take 3 (b0 :: mask))) = 3%nat) as Hthree.
      { rewrite setIndicator_length, length_take. lia. }
      rewrite app_nth2 by lia. rewrite Hthree.
      replace (S i * 3 - 3)%nat with (i * 3)%nat by lia.
      apply IH.
      * rewrite length_drop. lia.
      * rewrite wipeIndicator_length, length_drop. lia.
Qed.

Lemma firstFrameBranch_coherent frameWidth frameHeight me :
  coherent frameWidth frameHeight me ->
  coherent frameWidth frameHeight (firstFrameBranch me).
Proof.
  intros []. split; simpl; try assumption.
  - rewrite length_memcpy; lia.
  - rewrite length_memcpy; lia.
  - rewrite wipeIndicator_length. assumption.
Qed.

(** What the first-frame branch leaves. *)
Lemma firstFrameBranch_images frameWidth frameHeight me :
  coherent frameWidth frameHeight me ->
  getPixels (currentImage (firstFrameBranch me)) = getPixels (downscaleBuff me) /\
  getPixels (refImage (firstFrameBranch me)) = getPixels (downscaleBuff me) /\
  indicatorClear (getPixels (motionMask (firstFrameBranch me))) /\
  firstFrame (firstFrameBranch me) = false /\
  currentStableTimes (firstFrameBranch me) = currentStableTimes me /\
  stableRecords (firstFrameBranch me) = stableRecords me.
Proof.
  intros Hcoh. simpl.
  rewrite <- (coh_downscaleBuff _ _ _ Hcoh).
  rewrite !memcpy_whole
    by (rewrite ?(coh_currentImage _ _ _ Hcoh), ?(coh_refImage _ _ _ Hcoh),
          ?(coh_downscaleBuff _ _ _ Hcoh); reflexivity).
  repeat split.
  rewrite (coh_maskBpp _ _ _ Hcoh). apply wipeIndicator_clear.
  unfold getTotalSize. lia.
Qed.

(** ** The two passes over the downscaled frame *)

Lemma nth_drop (l : list Z) (n i : nat) : nth i (drop n l) 0 = nth (n + i) l 0.
Proof. rewrite !nth_lookup, lookup_drop. reflexivity. Qed.

Lemma nth_take (l : list Z) (n i : nat) :
  (i < n)%nat -> nth i (take n l) 0 = nth i l 0.
Proof. intros Hi. rewrite !nth_lookup, lookup_take_lt by exact Hi. reflexivity. Qed.

Lemma tail_length (l : list Z) : length (tail l) = (length l - 1)%nat.
Proof. destruct l; simpl; lia. Qed.

Lemma nth_app_pixel (p rest : list Z) (i : nat) :
  length p = 3%nat ->
  nth i (p ++ rest) 0 = if decide (i < 3)%nat then nth i p 0 else nth (i - 3) rest 0.
Proof.
  intros Hp. destruct (decide (i < 3)%nat).
  - apply app_nth1. lia.
  - rewrite app_nth2 by lia. rewrite Hp. reflexivity.
Qed.

Lemma trackPass_S thr n tip cip currentTime :
  trackPass thr (S n) tip cip currentTime =
    (trackedPixel thr tip cip
       ++ fst (trackPass thr n (drop 3 tip) (drop 3 cip) (tail currentTime)),
     trackedTime thr tip cip currentTime
       :: snd (trackPass thr n (drop 3 tip) (drop 3 cip) (tail currentTime))).
Proof.
  cbn [trackPass]. unfold trackedPixel, trackedTime, kBytesPerPixel.
  destruct (trackPass thr n (drop 3 tip) (drop 3 cip) (tail currentTime)).
  destruct (pixelIsDifferent thr tip cip); reflexivity.
Qed.

Lemma trackedPixel_length thr tip cip :
  (3 <= length tip)%nat -> (3 <= length cip)%nat ->
  length (trackedPixel thr tip cip) = 3%nat.
Proof.
  intros Ht Hc. unfold trackedPixel, nudge, memcpy, kBytesPerPixel.
  destruct (pixelIsDifferent thr tip cip).
  - rewrite length_take, length_app, length_take, length_drop. lia.
  - rewrite length_zip_with, !length_take. lia.
Qed.

Lemma trackPass_length thr n :
  forall tip cip currentTime,
    length tip = (3 * n)%nat -> length cip = (3 * n)%nat ->
    length currentTime = n ->
    length (fst (trackPass thr n tip cip currentTime)) = (3 * n)%nat /\
    length (snd (trackPass thr n tip cip currentTime)) = n.
Proof.
  induction n as [|n IH]; intros tip cip ct Ht Hc Hn.
  - simpl. auto.
  - rewrite trackPass_S. cbn [fst snd].
    destruct (IH (drop 3 tip) (drop 3 cip) (tail ct)) as [IH1 IH2];
      rewrite ?length_drop, ?tail_length; try lia.
    rewrite length_app, trackedPixel_length, IH1 by lia.
    simpl. rewrite IH2. split; lia.
Qed.

Lemma promotePass_S thr cap n cip rip bmp currentTime record :
  promotePass thr cap (S n) cip rip bmp currentTime record =
    let rest :=
      promotePass thr cap n (drop 3 cip)
        (drop 3 (promotedRef cip rip currentTime record))
        (drop 3 (markedMask thr cip rip bmp currentTime record))
        (tail currentTime) (tail record) in
    (take 3 (promotedRef cip rip currentTime record) ++ fst (fst rest),
     take 3 (markedMask thr cip rip bmp currentTime record) ++ snd (fst rest),
     promotedRecord cap currentTime record :: snd rest).
Proof.
  cbn [promotePass].
  unfold markedMask, promotedRecord, promotedRef, promoted, kBytesPerPixel.
  cbv zeta.
  destruct (promotePass thr cap n _ _ _ _ _) as [[r b] q]. reflexivity.
Qed.

Lemma promotedRef_length cip rip currentTime record :
  (3 <= length cip)%nat -> (3 <= length rip)%nat ->
  length (promotedRef cip rip currentTime record) = length rip.
Proof.
  intros Hc Hr. unfold promotedRef, kBytesPerPixel.
  destruct (promoted currentTime record); [|reflexivity].
  apply length_memcpy; lia.
Qed.

Lemma promotePass_length thr cap n :
  forall cip rip bmp currentTime record,
    length cip = (3 * n)%nat -> length rip = (3 * n)%nat ->
    length bmp = (3 * n)%nat ->
    length (fst (fst (promotePass thr cap n cip rip bmp currentTime record)))
      = (3 * n)%nat /\
    length (snd (fst (promotePass thr cap n cip rip bmp currentTime record)))
      = (3 * n)%nat /\
    length (snd (promotePass thr cap n cip rip bmp currentTime record)) =
      (n + (length record - n))%nat.
Proof.
  induction n as [|n IH]; intros cip rip bmp ct record Hc Hr Hb.
  - simpl. repeat split; auto. lia.
  - rewrite promotePass_S. cbv zeta. cbn [fst snd].
    pose proof (promotedRef_length cip rip ct record ltac:(lia) ltac:(lia)) as Hp.
    assert (length (markedMask thr cip rip bmp ct record) = length bmp) as Hm
      by apply setIndicator_length.
    destruct (IH (drop 3 cip) (drop 3 (promotedRef cip rip ct record))
                (drop 3 (markedMask thr cip rip bmp ct record)) (tail ct) (tail record))
      as (IH1 & IH2 & IH3).
    { rewrite length_drop. lia. }
    { rewrite length_drop, Hp. lia. }
    { rewrite length_drop, Hm. lia. }
    rewrite !length_app, !length_take, IH1, IH2, Hp, Hm.
    cbn [length]. rewrite IH3, tail_length. repeat split; lia.
Qed.

(** ** A call keeps the geometry and returns *)

Lemma updateModel_eq me :
  updateModel me =
    set_motionMask
      (set_stableRecords
         (set_refImage
            (set_currentImage
               (set_currentStableTimes me (snd (trackedOf me)))
               (withPixels (currentImage me) (fst (trackedOf me))))
            (withPixels (refImage me) (fst (fst (promotedOf me)))))
         (snd (promotedOf me)))
      (withPixels (motionMask me) (snd (fst (promotedOf me)))).
Proof.
  unfold updateModel, promotedOf, trackedOf.
  destruct (trackPass _ _ _ _ _) as [cur times]. cbn [fst snd].
  destruct (promotePass _ _ _ _ _ _ _ _) as [[r b] q]. reflexivity.
Qed.

Lemma coherent_steps frameWidth frameHeight me :
  coherent frameWidth frameHeight me ->
  pixelSteps (imageSize me) = imageArea me /\
  imageSize me = (3 * imageArea me)%nat.
Proof.
  intros Hcoh. rewrite (coh_imageSize _ _ _ Hcoh), pixelSteps_pixels.
  unfold kBytesPerPixel. split; lia.
Qed.

Lemma trackedOf_length frameWidth frameHeight me :
  coherent frameWidth frameHeight me ->
  length (fst (trackedOf me)) = imageSize me /\
  length (snd (trackedOf me)) = imageArea me.
Proof.
  intros Hcoh. destruct (coherent_steps _ _ _ Hcoh) as [Hn Hs].
  unfold trackedOf. rewrite Hn, Hs.
  apply trackPass_length;
    rewrite ?(coh_downscaleBuff _ _ _ Hcoh), ?(coh_currentImage _ _ _ Hcoh),
      ?(coh_times _ _ _ Hcoh); auto.
Qed.

Lemma promotedOf_length frameWidth frameHeight me :
  coherent frameWidth frameHeight me ->
  length (fst (fst (promotedOf me))) = imageSize me /\
  length (snd (fst (promotedOf me))) = imageSize me /\
  length (snd (promotedOf me)) = imageArea me.
Proof.
  intros Hcoh. destruct (coherent_steps _ _ _ Hcoh) as [Hn Hs].
  destruct (trackedOf_length _ _ _ Hcoh) as [Ht1 Ht2].
  unfold promotedOf. rewrite Hn, Hs.
  destruct (promotePass_length (motionThreshold me) (stableCap me) (imageArea me)
              (fst (trackedOf me)) (getPixels (refImage me))
              (getPixels (motionMask me)) (snd (trackedOf me)) (stableRecords me))
    as (H1 & H2 & H3);
    rewrite ?Ht1, ?(coh_refImage _ _ _ Hcoh), ?(coh_motionMask _ _ _ Hcoh); auto.
  rewrite H3, (coh_records _ _ _ Hcoh). repeat split; auto. lia.
Qed.

Lemma updateModel_coherent frameWidth frameHeight me :
  coherent frameWidth frameHeight me ->
  coherent frameWidth frameHeight (updateModel me).
Proof.
  intros Hcoh. rewrite updateModel_eq.
  destruct (trackedOf_length _ _ _ Hcoh) as [Ht1 Ht2].
  destruct (promotedOf_length _ _ _ Hcoh) as (Hp1 & Hp2 & Hp3).
  destruct Hcoh. split; simpl; assumption.
Qed.

Lemma erodePass_length beyond lvl offs width mask n :
  forall bmp x y eroded,
    length eroded = (3 * n)%nat ->
    length (erodePass beyond lvl offs width mask n bmp x y eroded) = (3 * n)%nat.
Proof.
  induction n as [|n IH]; intros bmp x y eroded Hl; [exact Hl|].
  cbn [erodePass]. destruct (nextCoordinates width x y) as [x1 y1].
  rewrite length_app, IH by (rewrite length_drop; unfold kBytesPerPixel; lia).
  simpl. lia.
Qed.

Lemma dilatePass_length beyond offs width mask n :
  forall bmp x y eroded,
    length eroded = (3 * n)%nat ->
    length (dilatePass beyond offs width mask n bmp x y eroded) = (3 * n)%nat.
Proof.
  induction n as [|n IH]; intros bmp x y eroded Hl; [exact Hl|].
  cbn [dilatePass]. destruct (nextCoordinates width x y) as [x1 y1].
  rewrite length_app, IH by (rewrite length_drop; unfold kBytesPerPixel; lia).
  simpl. lia.
Qed.

Lemma erosion_coherent beyond frameWidth frameHeight me :
  coherent frameWidth frameHeight me ->
  coherent frameWidth frameHeight (erosion beyond me).
Proof.
  intros Hcoh. destruct (coherent_steps _ _ _ Hcoh) as [Hn Hs].
  assert (length (getPixels (motionMask (erosion beyond me))) = imageSize me) as Hl.
  { simpl. unfold getTotalSize. rewrite (coh_motionMask _ _ _ Hcoh), Hn, Hs.
    apply erodePass_length. rewrite (coh_erodedMask _ _ _ Hcoh). exact Hs. }
  destruct Hcoh. split; try assumption; exact Hl.
Qed.

Lemma dilation_coherent beyond frameWidth frameHeight me :
  coherent frameWidth frameHeight me ->
  coherent frameWidth frameHeight (dilation beyond (imageSize me) me).
Proof.
  intros Hcoh. destruct (coherent_steps _ _ _ Hcoh) as [Hn Hs].
  assert (length (getPixels (motionMask (dilation beyond (imageSize me) me)))
          = imageSize me) as Hl.
  { simpl. rewrite Hn, Hs.
    apply dilatePass_length. rewrite (coh_erodedMask _ _ _ Hcoh). exact Hs. }
  destruct Hcoh. split; try assumption; exact Hl.
Qed.

Lemma morphologicalFilter_coherent beyond frameWidth frameHeight me :
  coherent frameWidth frameHeight me ->
  coherent frameWidth frameHeight (morphologicalFilter beyond me).
Proof.
  intros Hcoh. unfold morphologicalFilter.
  destruct (erosionLevel me >? 0); [|exact Hcoh].
  unfold getTotalSize. rewrite (coh_motionMask _ _ _ Hcoh).
  pose proof (erosion_coherent beyond _ _ _ Hcoh) as Her.
  replace (imageSize me) with (imageSize (erosion beyond me)) by reflexivity.
  apply dilation_coherent. exact Her.
Qed.

(** The filter touches the two masks only. *)
Lemma morphologicalFilter_model beyond me :
  currentImage (morphologicalFilter beyond me) = currentImage me /\
  refImage (morphologicalFilter beyond me) = refImage me /\
  currentStableTimes (morphologicalFilter beyond me) = currentStableTimes me /\
  stableRecords (morphologicalFilter beyond me) = stableRecords me /\
  firstFrame (morphologicalFilter beyond me) = firstFrame me /\
  motionThreshold (morphologicalFilter beyond me) = motionThreshold me /\
  stableCap (morphologicalFilter beyond me) = stableCap me /\
  erosionLevel (morphologicalFilter beyond me) = erosionLevel me /\
  fps (morphologicalFilter beyond me) = fps me.
Proof.
  unfold morphologicalFilter. destruct (erosionLevel me >? 0); repeat split.
Qed.

Lemma morphologicalFilter_bypass beyond me :
  erosionLevel me = 0 -> morphologicalFilter beyond me = me.
Proof. intros H. unfold morphologicalFilter. rewrite H. reflexivity. Qed.

Lemma downscaled_coherent frameWidth frameHeight me accs :
  coherent frameWidth frameHeight me -> length accs = imageSize me ->
  coherent frameWidth frameHeight (downscaled me accs).
Proof.
  intros Hcoh Hl. apply set_downscale_coherent; try assumption.
  rewrite divideInto_length. apply (coh_downscaleBuff _ _ _ Hcoh).
Qed.

Lemma generateMotionMask_eq beyond me frame accs :
  downscale beyond me frame = Some (downscaled me accs) ->
  generateMotionMask beyond me frame =
    Some (if firstFrame me
          then firstFrameBranch (downscaled me accs)
          else morphologicalFilter beyond (updateModel (downscaled me accs))).
Proof.
  intros Hd. unfold generateMotionMask. rewrite Hd.
  change (firstFrame (downscaled me accs)) with (firstFrame me).
  destruct (firstFrame me); reflexivity.
Qed.

Lemma generateMotionMask_returns beyond frameWidth frameHeight me frame :
  coherent frameWidth frameHeight me ->
  exists me',
    generateMotionMask beyond me frame = Some me' /\
    coherent frameWidth frameHeight me'.
Proof.
  intros Hcoh.
  destruct (downscale_returns beyond me frameWidth frameHeight frame Hcoh)
    as (accs & Hd & Hl).
  pose proof (downscaled_coherent _ _ _ _ Hcoh Hl) as Hcoh1.
  rewrite (generateMotionMask_eq beyond me frame accs Hd).
  eexists. split; [reflexivity|].
  destruct (firstFrame me).
  - apply firstFrameBranch_coherent, Hcoh1.
  - apply morphologicalFilter_coherent, updateModel_coherent, Hcoh1.
Qed.

(** ** What every reachable state satisfies *)

Lemma u8_is_byte z : is_byte (u8 z).
Proof. unfold is_byte, u8. apply Z.mod_pos_bound. lia. Qed.

Lemma u32_range z : 0 <= u32 z < 4294967296.
Proof. unfold u32. apply Z.mod_pos_bound. lia. Qed.

Lemma double2uint_range d : 0 <= double2uint d < 4294967296.
Proof.
  unfold double2uint. destruct (truncZ d); [apply u32_range|lia].
Qed.

Lemma uninitialised_bytes fresh k n : Forall is_byte (uninitialised u8 fresh k n).
Proof.
  unfold uninitialised. apply Forall_forall. intros z Hz.
  apply list_elem_of_In, in_map_iff in Hz. destruct Hz as (i & <- & _).
  apply u8_is_byte.
Qed.

Lemma Forall_zeros (P : Z -> Prop) (l : list Z) :
  P 0 -> Forall P (map (fun _ => 0) l).
Proof. intros H0. induction l; simpl; constructor; auto. Qed.

Lemma Forall_replicate_zero (P : Z -> Prop) (n : nat) :
  P 0 -> Forall P (replicate n 0).
Proof. intros H0. induction n; simpl; constructor; auto. Qed.

Lemma reset_sound frameWidth frameHeight me :
  coherent frameWidth frameHeight me ->
  0 <= stableCap me < 4294967296 ->
  1 <= motionThreshold me <= 127 ->
  0 <= erosionLevel me <= 8 ->
  Forall is_byte (getPixels (currentImage me)) ->
  sound frameWidth frameHeight (reset me).
Proof.
  intros Hcoh Hcap Hthr Her Hbytes.
  pose proof (reset_records_zero me (coh_records _ _ _ Hcoh)) as Hz.
  split; try assumption.
  - apply reset_coherent, Hcoh.
  - unfold recordsCapped. rewrite Hz. apply Forall_replicate_zero.
    change (stableCap (reset me)) with (stableCap me). lia.
  - apply Forall_zeros. lia.
Qed.

Lemma new_sound fresh frameWidth frameHeight videoFPS :
  sound frameWidth frameHeight
    (MotionExtractor_new fresh frameWidth frameHeight videoFPS).
Proof.
  apply reset_sound; simpl; try lia.
  - apply allocate_coherent.
  - apply double2uint_range.
  - apply uninitialised_bytes.
Qed.

Lemma divideInto_bytes accs :
  forall dp, length accs = length dp -> Forall is_byte (divideInto accs dp).
Proof.
  induction accs as [|a accs IH]; intros [|d dp] Hl; simpl in *; try lia.
  - constructor.
  - constructor; [apply u8_is_byte|apply IH; lia].
Qed.

Lemma downscaled_bytes frameWidth frameHeight me accs :
  coherent frameWidth frameHeight me -> length accs = imageSize me ->
  Forall is_byte (getPixels (downscaleBuff (downscaled me accs))).
Proof.
  intros Hcoh Hl. simpl. apply divideInto_bytes.
  rewrite Hl, (coh_downscaleBuff _ _ _ Hcoh). reflexivity.
Qed.

Lemma trackedPixel_bytes thr tip cip :
  Forall is_byte tip -> Forall is_byte cip -> Forall is_byte (trackedPixel thr tip cip).
Proof.
  intros Ht Hc. unfold trackedPixel, memcpy, nudge.
  destruct (pixelIsDifferent thr tip cip).
  - apply Forall_take, Forall_app. split; [apply Forall_take|apply Forall_drop]; assumption.
  - apply Forall_forall. intros z Hz.
    apply list_elem_of_lookup in Hz. destruct Hz as (i & Hi).
    apply lookup_zip_with_Some in Hi. destruct Hi as (c & t & -> & _ & _).
    apply u8_is_byte.
Qed.

Lemma trackPass_sound thr n :
  forall tip cip currentTime,
    Forall is_byte tip -> Forall is_byte cip ->
    Forall (fun t => 0 <= t < 4294967296) currentTime ->
    Forall is_byte (fst (trackPass thr n tip cip currentTime)) /\
    Forall (fun t => 0 <= t < 4294967296) (snd (trackPass thr n tip cip currentTime)).
Proof.
  induction n as [|n IH]; intros tip cip ct Ht Hc Hn; [simpl; auto|].
  rewrite trackPass_S. cbn [fst snd].
  destruct (IH (drop 3 tip) (drop 3 cip) (tail ct)) as [IH1 IH2].
  { apply Forall_drop, Ht. }
  { apply Forall_drop, Hc. }
  { destruct ct; [constructor|]. simpl. inversion Hn; assumption. }
  split.
  - apply Forall_app. split; [apply trackedPixel_bytes; assumption|exact IH1].
  - constructor; [|exact IH2].
    unfold trackedTime. destruct (pixelIsDifferent thr tip cip); [lia|apply u32_range].
Qed.

Lemma promotePass_records thr cap n :
  forall cip rip bmp currentTime record,
    0 <= cap ->
    Forall (fun r => r <= cap) record ->
    Forall (fun r => r <= cap)
      (snd (promotePass thr cap n cip rip bmp currentTime record)).
Proof.
  induction n as [|n IH]; intros cip rip bmp ct record Hcap Hr; [exact Hr|].
  rewrite promotePass_S. cbv zeta. cbn [snd].
  constructor.
  - unfold promotedRecord. destruct (promoted ct record); [lia|].
    destruct record as [|r record]; simpl; [lia|]. inversion Hr; assumption.
  - apply IH; [exact Hcap|].
    destruct record; [constructor|]. simpl. inversion Hr; assumption.
Qed.

Lemma generateMotionMask_sound beyond frameWidth frameHeight me me' frame :
  sound frameWidth frameHeight me ->
  generateMotionMask beyond me frame = Some me' ->
  sound frameWidth frameHeight me'.
Proof.
  intros [Hcoh Hcap Hrec Hthr Her Hbytes Htimes] Hgen.
  destruct (downscale_returns beyond me frameWidth frameHeight frame Hcoh)
    as (accs & Hd & Hl).
  pose proof (downscaled_coherent _ _ _ _ Hcoh Hl) as Hcoh1.
  pose proof (downscaled_bytes _ _ _ _ Hcoh Hl) as Hdown.
  rewrite (generateMotionMask_eq beyond me frame accs Hd) in Hgen.
  injection Hgen as <-.
  destruct (firstFrame me).
  - destruct (firstFrameBranch_images _ _ _ Hcoh1) as (HT & _ & _ & _ & Htm & Hrc).
    split; try assumption.
    + apply firstFrameBranch_coherent, Hcoh1.
    + rewrite HT. exact Hdown.
  - destruct (morphologicalFilter_model beyond (updateModel (downscaled me accs)))
      as (HT & _ & Htm & Hrc & _ & Ht & Hc & He & _).
    destruct (trackPass_sound (motionThreshold me)
                (pixelSteps (imageSize me))
                (getPixels (downscaleBuff (downscaled me accs)))
                (getPixels (currentImage me)) (currentStableTimes me)
                Hdown Hbytes Htimes) as [Hb' Ht'].
    split.
    + apply morphologicalFilter_coherent, updateModel_coherent, Hcoh1.
    + rewrite Hc, updateModel_eq. exact Hcap.
    + unfold recordsCapped. rewrite Hrc, Hc, updateModel_eq. simpl.
      apply promotePass_records; [change (0 <= stableCap me); lia|exact Hrec].
    + rewrite Ht, updateModel_eq. exact Hthr.
    + rewrite He, updateModel_eq. exact Her.
    + rewrite HT, updateModel_eq. exact Hb'.
    + rewrite Htm, updateModel_eq. exact Ht'.
Qed.

Lemma setSensitivity_cases newSens me :
  setSensitivity newSens me =
    (me, inl (ArgumentOutOfRangeException
                "Sensitivity must be between 1 and 127" "setSensitivity")) \/
  1 <= newSens <= 127 /\
  setSensitivity newSens me = (reset (set_motionThreshold me newSens), inr tt).
Proof.
  destruct ((newSens <? 1) || (newSens >? 127)) eqn:Hv.
  - left. apply setSensitivity_throws, Hv.
  - right. split; [|apply setSensitivity_returns, Hv].
    apply orb_false_iff in Hv. destruct Hv as [H1 H2].
    apply Z.ltb_ge in H1. rewrite Z.gtb_ltb in H2. apply Z.ltb_ge in H2. lia.
Qed.

Lemma setSettleTime_cases newTime me :
  setSettleTime newTime me =
    (me, inl (ArgumentOutOfRangeException
                "Settle time must be between 1 and 60 seconds" "setSettleTime")) \/
  setSettleTime newTime me =
    (reset (set_stableCap me (double2uint (ceil (newTime * fps me)%float))), inr tt).
Proof.
  destruct ((newTime <? 1)%float || (60 <? newTime)%float) eqn:Hv.
  - left. apply setSettleTime_throws, Hv.
  - right. apply setSettleTime_returns, Hv.
Qed.

Lemma setErosion_cases newErosion me :
  setErosion newErosion me =
    (me, inl (ArgumentOutOfRangeException
                "Erosion value must be between 0 and 8 pixels" "setErosion")) \/
  0 <= newErosion <= 8 /\
  setErosion newErosion me = (reset (set_erosionLevel me newErosion), inr tt).
Proof.
  destruct ((newErosion <? 0) || (newErosion >? 8)) eqn:Hv.
  - left. apply setErosion_throws, Hv.
  - right. split; [|apply setErosion_returns, Hv].
    apply orb_false_iff in Hv. destruct Hv as [H1 H2].
    apply Z.ltb_ge in H1. rewrite Z.gtb_ltb in H2. apply Z.ltb_ge in H2. lia.
Qed.

Lemma set_motionThreshold_sound frameWidth frameHeight me v :
  sound frameWidth frameHeight me -> 1 <= v <= 127 ->
  sound frameWidth frameHeight (reset (set_motionThreshold me v)).
Proof.
  intros [] Hv. apply reset_sound; try assumption.
  apply set_motionThreshold_coherent; assumption.
Qed.

Lemma set_stableCap_sound frameWidth frameHeight me d :
  sound frameWidth frameHeight me ->
  sound frameWidth frameHeight (reset (set_stableCap me (double2uint d))).
Proof.
  intros []. apply reset_sound; try assumption.
  - apply set_stableCap_coherent; assumption.
  - apply double2uint_range.
Qed.

Lemma set_erosionLevel_sound frameWidth frameHeight me v :
  sound frameWidth frameHeight me -> 0 <= v <= 8 ->
  sound frameWidth frameHeight (reset (set_erosionLevel me v)).
Proof.
  intros [] Hv. apply reset_sound; try assumption.
  apply set_erosionLevel_coherent; assumption.
Qed.

Lemma load_cases p me :
  (exists exn, load p me = (me, inl exn)) \/
  exists si td ei,
    1 <= si <= 127 /\ 0 <= ei <= 8 /\
    load p me =
      (reset (set_erosionLevel
                (reset (set_stableCap
                          (reset (set_motionThreshold me si))
                          (double2uint (ceil (td * fps me)%float))))
                ei),
       inr tt).
Proof.
  destruct (missingSettings p) eqn:Hm.
  { left. eexists. apply load_missing, Hm. }
  destruct (asInt (member p "sensitivity")) as [si|] eqn:Hs;
    [|left; eexists; apply load_refused; auto].
  destruct (asDouble (member p "settle time")) as [td|] eqn:Ht;
    [|left; eexists; apply load_refused; auto].
  destruct (asInt (member p "erosion level")) as [ei|] eqn:He;
    [|left; eexists; apply load_refused; auto].
  rewrite (load_converted p me si td ei Hm Hs Ht He).
  destruct (invalidSettings si td ei) eqn:Hinv; [left; eexists; reflexivity|].
  right. exists si, td, ei. split; [|split; [|reflexivity]].
  - destruct (Z_le_gt_dec 1 si), (Z_le_gt_dec si 127); try lia;
      exfalso; apply not_true_iff_false in Hinv; apply Hinv;
      apply invalidSettings_true; lia.
  - destruct (Z_le_gt_dec 0 ei), (Z_le_gt_dec ei 8); try lia;
      exfalso; apply not_true_iff_false in Hinv; apply Hinv;
      apply invalidSettings_true; lia.
Qed.

Lemma reachable_sound frameWidth frameHeight me :
  reachable frameWidth frameHeight me -> sound frameWidth frameHeight me.
Proof.
  induction 1 as [fresh videoFPS | beyond me me' frame _ IH Hgen | me _ IH
                  | me v _ IH | me t _ IH | me e _ IH | me p _ IH].
  - apply new_sound.
  - exact (generateMotionMask_sound beyond _ _ me me' frame IH Hgen).
  - destruct IH. apply reset_sound; assumption.
  - destruct (setSensitivity_cases v me) as [->|[Hv ->]]; [exact IH|].
    apply set_motionThreshold_sound; assumption.
  - destruct (setSettleTime_cases t me) as [->| ->]; [exact IH|].
    apply set_stableCap_sound; assumption.
  - destruct (setErosion_cases e me) as [->|[Hv ->]]; [exact IH|].
    apply set_erosionLevel_sound; assumption.
  - destruct (load_cases p me) as [[exn ->]|(si & td & ei & Hs & He & ->)]; [exact IH|].
    cbn [fst].
    apply set_erosionLevel_sound; [|exact He].
    change (fps me) with (fps (reset (set_motionThreshold me si))).
    apply set_stableCap_sound.
    apply set_motionThreshold_sound; assumption.
Qed.

(** ** The stability records *)

Lemma promotePass_record_nth thr cap n :
  forall cip rip bmp currentTime record i,
    (i < n)%nat ->
    nth i (snd (promotePass thr cap n cip rip bmp currentTime record)) 0 =
      if nth i currentTime 0 >? nth i record 0
      then Z.min (nth i currentTime 0) cap
      else nth i record 0.
Proof.
  induction n as [|n IH]; intros cip rip bmp ct record i Hi; [lia|].
  rewrite promotePass_S. cbv zeta. cbn [snd].
  destruct i as [|i].
  - unfold promotedRecord, promoted. destruct ct, record; reflexivity.
  - cbn [nth]. rewrite IH by lia. destruct ct, record; simpl; try reflexivity;
      destruct i; reflexivity.
Qed.

(** C6. In every state reachable from construction by calls of
    [generateMotionMask], [reset], the setters and [load], every
    stability record is at most the stable cap. [reset] and a setter
    that returns leave all records at zero, and a call of
    [generateMotionMask] leaves a record as it was or rewrites it to the
    minimum of its timer and the cap. *)
Theorem stability_records_capped :
  forall (frameWidth frameHeight : nat) (me : MotionExtractor),
    reachable frameWidth frameHeight me ->
    recordsCapped me /\
    Forall (fun record => record = 0) (stableRecords (reset me)) /\
    (forall v, snd (setSensitivity v me) = inr tt ->
       Forall (fun record => record = 0) (stableRecords (fst (setSensitivity v me)))) /\
    (forall s, snd (setSettleTime s me) = inr tt ->
       Forall (fun record => record = 0) (stableRecords (fst (setSettleTime s me)))) /\
    (forall e, snd (setErosion e me) = inr tt ->
       Forall (fun record => record = 0) (stableRecords (fst (setErosion e me)))) /\
    (forall beyond frame me',
       generateMotionMask beyond me frame = Some me' ->
       forall i : nat, (i < imageArea me)%nat ->
         nth i (stableRecords me') 0 = nth i (stableRecords me) 0 \/
         nth i (stableRecords me') 0
           = Z.min (nth i (currentStableTimes me') 0) (stableCap me)).
Proof.
  intros frameWidth frameHeight me Hreach.
  pose proof (reachable_sound _ _ _ Hreach) as [Hcoh Hcap Hrec Hthr Her Hbytes Htimes].
  assert (forall me1, stableRecords me1 = stableRecords me ->
                      imageArea me1 = imageArea me ->
                      Forall (fun record => record = 0) (stableRecords (reset me1)))
    as Hzero.
  { intros me1 H1 H2. rewrite reset_records_zero
      by (rewrite H1, H2; apply (coh_records _ _ _ Hcoh)).
    apply Forall_replicate_zero. reflexivity. }
  split; [exact Hrec|]. split; [apply Hzero; reflexivity|].
  split; [|split; [|split]].
  - intros v Hok. destruct (setSensitivity_cases v me) as [Hs|[_ Hs]];
      rewrite Hs in *; [discriminate|]. apply Hzero; reflexivity.
  - intros s Hok. destruct (setSettleTime_cases s me) as [Hs|Hs];
      rewrite Hs in *; [discriminate|]. apply Hzero; reflexivity.
  - intros e Hok. destruct (setErosion_cases e me) as [Hs|[_ Hs]];
      rewrite Hs in *; [discriminate|]. apply Hzero; reflexivity.
  - intros beyond frame me' Hgen i Hi.
    destruct (downscale_returns beyond me frameWidth frameHeight frame Hcoh)
      as (accs & Hd & Hl).
    rewrite (generateMotionMask_eq beyond me frame accs Hd) in Hgen.
    injection Hgen as <-.
    destruct (firstFrame me); [left; reflexivity|].
    destruct (morphologicalFilter_model beyond (updateModel (downscaled me accs)))
      as (_ & _ & -> & -> & _).
    rewrite updateModel_eq. cbn [stableRecords currentStableTimes set_motionMask
      set_stableRecords set_refImage set_currentImage set_currentStableTimes].
    unfold promotedOf.
    destruct (coherent_steps _ _ _ Hcoh) as [Hn _].
    change (imageSize (downscaled me accs)) with (imageSize me). rewrite Hn.
    rewrite promotePass_record_nth by exact Hi.
    destruct (_ >? _); [right|left]; reflexivity.
Qed.

(** ** The first frame *)

Lemma first_call beyond frameWidth frameHeight me frame :
  coherent frameWidth frameHeight me -> firstFrame me = true ->
  exists down me',
    downscale beyond me frame = Some down /\
    generateMotionMask beyond me frame = Some me' /\
    indicatorClear (getPixels (motionMask me')) /\
    getPixels (currentImage me') = getPixels (downscaleBuff down) /\
    getPixels (refImage me') = getPixels (downscaleBuff down) /\
    firstFrame me' = false.
Proof.
  intros Hcoh Hfirst.
  destruct (downscale_returns beyond me frameWidth frameHeight frame Hcoh)
    as (accs & Hd & Hl).
  pose proof (downscaled_coherent _ _ _ _ Hcoh Hl) as Hcoh1.
  destruct (firstFrameBranch_images _ _ _ Hcoh1) as (HT & HR & Hclear & Hff & _).
  exists (downscaled me accs), (firstFrameBranch (downscaled me accs)).
  split; [exact Hd|]. split.
  { rewrite (generateMotionMask_eq beyond me frame accs Hd), Hfirst. reflexivity. }
  auto.
Qed.

(** C2. Whatever the frame, the first call of [generateMotionMask] on a
    freshly constructed extractor, or after [reset] in any reachable
    state, returns a mask whose indicator channel is all-zero and leaves
    both the tracked image and the reference image equal to the
    downscaled frame; the first-frame flag is cleared. *)
Theorem first_frame_mask_is_clear :
  forall (beyond : Z -> Z) (fresh : nat -> nat -> Z) (frameWidth frameHeight : nat)
         (videoFPS : float) (me start : MotionExtractor) (frame : VideoFrame),
    reachable frameWidth frameHeight me ->
    start = MotionExtractor_new fresh frameWidth frameHeight videoFPS \/
    start = reset me ->
    exists down me',
      downscale beyond start frame = Some down /\
      generateMotionMask beyond start frame = Some me' /\
      indicatorClear (getPixels (motionMask me')) /\
      getPixels (currentImage me') = getPixels (downscaleBuff down) /\
      getPixels (refImage me') = getPixels (downscaleBuff down) /\
      firstFrame me' = false.
Proof.
  intros beyond fresh frameWidth frameHeight videoFPS me start frame Hreach Hstart.
  apply (first_call beyond frameWidth frameHeight).
  - destruct Hstart as [-> | ->].
    + apply new_coherent.
    + apply reset_coherent, (sound_coherent _ _ _ (reachable_sound _ _ _ Hreach)).
  - destruct Hstart as [-> | ->]; reflexivity.
Qed.

(** ** Tracking a frame that does not change *)

Lemma close_not_different thr a b : close thr a b -> pixelIsDifferent thr a b = false.
Proof. intros Hc. apply pixelIsDifferent_false. intros c _. apply Hc. Qed.

Lemma close_drop thr a b n : close thr a b -> close thr (drop n a) (drop n b).
Proof. intros Hc i. rewrite !nth_drop. apply Hc. Qed.

Lemma close_refl thr a : 0 <= thr -> close thr a a.
Proof. intros Hthr i. rewrite Z.sub_diag. simpl. exact Hthr. Qed.

Lemma nudge_step c t :
  is_byte c -> is_byte t ->
  u8 (c + sign (t - c)) = c + Z.sgn (t - c) /\
  Z.abs (t - (c + Z.sgn (t - c))) <= Z.abs (t - c).
Proof.
  unfold is_byte, u8, sign. intros Hc Ht.
  destruct (Z.lt_trichotomy (t - c) 0) as [Hlt|[Heq|Hgt]].
  - rewrite (Z.sgn_neg _ Hlt). split; [apply Z.mod_small|]; lia.
  - rewrite Heq. simpl. split; [apply Z.mod_small|]; lia.
  - rewrite (Z.sgn_pos _ Hgt). split; [apply Z.mod_small|]; lia.
Qed.

Lemma nudge_nth cip tip i :
  (i < 3)%nat -> (3 <= length cip)%nat -> (3 <= length tip)%nat ->
  nth i (nudge cip tip) 0 = u8 (nth i cip 0 + sign (nth i tip 0 - nth i cip 0)).
Proof.
  intros Hi Hc Ht. unfold nudge, kBytesPerPixel.
  rewrite nth_lookup, lookup_zip_with, !lookup_take_lt by exact Hi.
  destruct (lookup_lt_is_Some_2 cip i ltac:(lia)) as [c Hci].
  destruct (lookup_lt_is_Some_2 tip i ltac:(lia)) as [t Hti].
  rewrite !nth_lookup, Hci, Hti. reflexivity.
Qed.

Lemma trackedPixel_close thr tip cip i :
  0 <= thr -> (i < 3)%nat ->
  (3 <= length tip)%nat -> (3 <= length cip)%nat ->
  Forall is_byte tip -> Forall is_byte cip ->
  Z.abs (nth i tip 0 - nth i (trackedPixel thr tip cip) 0) <= thr.
Proof.
  intros Hthr Hi Hlt Hlc Hbt Hbc. unfold trackedPixel.
  destruct (pixelIsDifferent thr tip cip) eqn:Hd.
  - unfold memcpy, kBytesPerPixel.
    rewrite nth_take by exact Hi.
    rewrite app_nth1 by (rewrite length_take; lia).
    rewrite nth_take by exact Hi. rewrite Z.sub_diag. simpl. exact Hthr.
  - rewrite nudge_nth by assumption.
    pose proof (proj1 (pixelIsDifferent_false thr tip cip) Hd i Hi) as Hle.
    destruct (nudge_step (nth i cip 0) (nth i tip 0)
                (is_byte_nth _ _ Hbc) (is_byte_nth _ _ Hbt)) as [-> Hn].
    lia.
Qed.

Lemma trackPass_close thr n :
  forall tip cip currentTime,
    0 <= thr ->
    length tip = (3 * n)%nat -> length cip = (3 * n)%nat ->
    Forall is_byte tip -> Forall is_byte cip ->
    close thr tip (fst (trackPass thr n tip cip currentTime)).
Proof.
  induction n as [|n IH]; intros tip cip ct Hthr Hlt Hlc Hbt Hbc i.
  - destruct tip, cip; try discriminate. destruct i; simpl; exact Hthr.
  - rewrite trackPass_S. cbn [fst].
    rewrite nth_app_pixel by (apply trackedPixel_length; lia).
    destruct (decide (i < 3)%nat) as [Hi|Hi].
    + apply trackedPixel_close; try assumption; lia.
    + replace i with (3 + (i - 3))%nat at 1 by lia. rewrite <- nth_drop.
      apply IH; rewrite ?length_drop; try lia; try (apply Forall_drop; assumption).
Qed.

(** The timers after the first pass, when no pixel differs and in
    general. *)
Lemma trackPass_timers_close thr (P Q : Z -> Prop) n :
  (forall t, P t -> Q (u32 (t + 1))) ->
  forall tip cip currentTime,
    close thr tip cip -> length currentTime = n -> Forall P currentTime ->
    Forall Q (snd (trackPass thr n tip cip currentTime)).
Proof.
  intros Hstep. induction n as [|n IH]; intros tip cip ct Hc Hl HP.
  - destruct ct; [constructor|discriminate].
  - rewrite trackPass_S. cbn [snd].
    destruct ct as [|t ct]; [discriminate|]. inversion HP; subst.
    constructor.
    + unfold trackedTime. rewrite (close_not_different _ _ _ Hc). apply Hstep. assumption.
    + apply IH; [apply close_drop, Hc|simpl in *; lia|assumption].
Qed.

Lemma trackPass_timers thr (P Q : Z -> Prop) n :
  (forall t, P t -> Q 0) -> (forall t, P t -> Q (u32 (t + 1))) ->
  forall tip cip currentTime,
    length currentTime = n -> Forall P currentTime ->
    Forall Q (snd (trackPass thr n tip cip currentTime)).
Proof.
  intros Hzero Hstep. induction n as [|n IH]; intros tip cip ct Hl HP.
  - destruct ct; [constructor|discriminate].
  - rewrite trackPass_S. cbn [snd].
    destruct ct as [|t ct]; [discriminate|]. inversion HP; subst.
    constructor.
    + unfold trackedTime. destruct (pixelIsDifferent thr tip cip); [eapply Hzero|];
        [eassumption|]. apply Hstep. assumption.
    + apply IH; [simpl in *; lia|assumption].
Qed.

Lemma nudge_same l :
  (3 <= length l)%nat -> Forall is_byte l -> nudge l l = take 3 l.
Proof.
  intros Hl Hb. unfold nudge, kBytesPerPixel.
  assert (Forall is_byte (take 3 l)) as Hb3 by (apply Forall_take, Hb).
  induction Hb3 as [|c p Hc _ IH]; [reflexivity|].
  simpl. rewrite IH. f_equal.
  unfold sign. rewrite Z.sub_diag. simpl. rewrite Z.add_0_r.
  apply Z.mod_small. exact Hc.
Qed.

Lemma trackPass_same thr n :
  forall D currentTime,
    0 <= thr -> length D = (3 * n)%nat -> Forall is_byte D ->
    fst (trackPass thr n D D currentTime) = D.
Proof.
  induction n as [|n IH]; intros D ct Hthr Hl Hb; [reflexivity|].
  rewrite trackPass_S. cbn [fst].
  rewrite IH; rewrite ?length_drop; try lia; try (apply Forall_drop; assumption).
  unfold trackedPixel.
  rewrite (close_not_different _ _ _ (close_refl thr D Hthr)).
  rewrite nudge_same by (try assumption; lia).
  apply take_drop.
Qed.

Lemma memcpy_same l n : memcpy l l n = l.
Proof. apply take_drop. Qed.

Lemma take_memcpy dst src n :
  (n <= length src)%nat -> take n (memcpy dst src n) = take n src.
Proof.
  intros Hn. unfold memcpy. rewrite take_app_le by (rewrite length_take; lia).
  rewrite take_take. f_equal. lia.
Qed.

Lemma drop_memcpy dst src n :
  (n <= length src)%nat -> drop n (memcpy dst src n) = drop n dst.
Proof.
  intros Hn. unfold memcpy.
  rewrite drop_app_length' by (rewrite length_take; lia). reflexivity.
Qed.

(** When every pixel is promoted, or the reference image already is the
    tracked image, the second pass leaves the reference image equal to
    the tracked image and every indicator at zero. *)
Lemma promotePass_settles thr cap n :
  forall cip rip bmp currentTime record,
    0 <= thr ->
    length cip = (3 * n)%nat -> length rip = (3 * n)%nat ->
    length bmp = (3 * n)%nat ->
    rip = cip \/
    (length currentTime = n /\ Forall2 (fun t r => r < t) currentTime record) ->
    fst (fst (promotePass thr cap n cip rip bmp currentTime record)) = cip /\
    indicatorClear (snd (fst (promotePass thr cap n cip rip bmp currentTime record))).
Proof.
  induction n as [|n IH]; intros cip rip bmp ct record Hthr Hlc Hlr Hlb Hwhy.
  - destruct cip, rip, bmp; try discriminate. simpl. split; [reflexivity|].
    intros i Hi. simpl in Hi. lia.
  - rewrite promotePass_S. cbv zeta. cbn [fst snd].
    assert (promotedRef cip rip ct record = memcpy rip cip 3) as Href.
    { unfold promotedRef, kBytesPerPixel. destruct Hwhy as [->|[Hl HF]].
      - rewrite memcpy_same. destruct (promoted ct record); reflexivity.
      - destruct HF as [|t r ct' record' Hrt _]; [discriminate|].
        unfold promoted. simpl. destruct (Z.gtb_spec t r); [reflexivity|lia]. }
    assert (pixelIsDifferent thr (promotedRef cip rip ct record) cip = false) as Hsame.
    { apply pixelIsDifferent_false. intros c Hc. rewrite Href.
      rewrite <- (nth_take (memcpy rip cip 3) 3 c Hc), take_memcpy by lia.
      rewrite nth_take by exact Hc. rewrite Z.sub_diag. simpl. exact Hthr. }
    unfold markedMask. rewrite Hsame, Href.
    rewrite drop_memcpy, take_memcpy by lia.
    destruct (IH (drop 3 cip) (drop 3 rip) (drop 3 (setIndicator 0 bmp))
                (tail ct) (tail record)) as [IH1 IH2].
    { exact Hthr. }
    { rewrite length_drop. lia. }
    { rewrite length_drop. lia. }
    { rewrite length_drop, setIndicator_length. lia. }
    { destruct Hwhy as [->|[Hl HF]]; [left; reflexivity|right].
      destruct HF; [discriminate|]. simpl in *. split; [lia|assumption]. }
    rewrite IH1. split; [apply take_drop|].
    intros i Hi. unfold kBytesPerPixel in *.
    assert (length (take 3 (setIndicator 0 bmp)) = 3%nat) as Hthree
      by (rewrite length_take, setIndicator_length; lia).
    destruct i as [|i].
    + destruct bmp; [discriminate|reflexivity].
    + rewrite app_nth2 by lia. rewrite Hthree.
      replace (S i * 3 - 3)%nat with (i * 3)%nat by lia.
      apply IH2. unfold kBytesPerPixel. rewrite length_app, Hthree in Hi. lia.
Qed.

Lemma capped_promoted cap (times records : list Z) :
  length times = length records ->
  Forall (fun t => cap < t) times -> Forall (fun r => r <= cap) records ->
  Forall2 (fun t r => r < t) times records.
Proof.
  revert records. induction times as [|t times IH]; intros [|r records] Hl Ht Hr;
    try discriminate; [constructor|].
  inversion Ht; inversion Hr; subst. constructor; [lia|].
  apply IH; auto.
Qed.

(** ** downscale depends on the extractor through its geometry only *)

Lemma downscaleStep_ext beyond me1 me2 src s :
  imageWidth me1 = imageWidth me2 -> destLineSize me1 = destLineSize me2 ->
  srcLineSize me1 = srcLineSize me2 ->
  downscaleStep beyond me1 src s = downscaleStep beyond me2 src s.
Proof. intros Hw Hd Hs. unfold downscaleStep. rewrite Hw, Hd, Hs. reflexivity. Qed.

Lemma downscaleLoop_ext beyond me1 me2 src accumEnd fuel :
  imageWidth me1 = imageWidth me2 -> destLineSize me1 = destLineSize me2 ->
  srcLineSize me1 = srcLineSize me2 ->
  forall s,
    downscaleLoop fuel beyond me1 src accumEnd s
      = downscaleLoop fuel beyond me2 src accumEnd s.
Proof.
  intros Hw Hd Hs. induction fuel as [|fuel IH]; intros s; [reflexivity|].
  rewrite !downscaleLoop_S, IH, (downscaleStep_ext beyond me1 me2 src s Hw Hd Hs).
  reflexivity.
Qed.

Lemma map_zero_replicate (l : list Z) : map (fun _ => 0) l = replicate (length l) 0.
Proof. induction l; simpl; congruence. Qed.

Lemma divideInto_map accs :
  forall dp, length accs = length dp ->
    divideInto accs dp = map (fun a => u8 (a / 4)) accs.
Proof.
  induction accs as [|a accs IH]; intros [|d dp] Hl; simpl in *; try lia; [reflexivity|].
  rewrite IH by lia. reflexivity.
Qed.

(** Two extractors of the same geometry downscale a frame to the same
    pixels. *)
Lemma downscale_same_pixels beyond frameWidth frameHeight me1 me2 frame accs :
  coherent frameWidth frameHeight me1 -> coherent frameWidth frameHeight me2 ->
  downscale beyond me1 frame = Some (downscaled me1 accs) ->
  length accs = imageSize me1 ->
  downscale beyond me2 frame = Some (downscaled me2 accs) /\
  getPixels (downscaleBuff (downscaled me2 accs))
    = getPixels (downscaleBuff (downscaled me1 accs)).
Proof.
  intros H1 H2 Hd Hl.
  assert (imageWidth me2 = imageWidth me1) as Hw
    by (rewrite (coh_imageWidth _ _ _ H1), (coh_imageWidth _ _ _ H2); reflexivity).
  assert (imageHeight me2 = imageHeight me1) as Hh
    by (rewrite (coh_imageHeight _ _ _ H1), (coh_imageHeight _ _ _ H2); reflexivity).
  assert (imageArea me2 = imageArea me1) as Ha
    by (rewrite (coh_imageArea _ _ _ H1), (coh_imageArea _ _ _ H2), Hw, Hh; reflexivity).
  assert (imageSize me2 = imageSize me1) as Hs
    by (rewrite (coh_imageSize _ _ _ H1), (coh_imageSize _ _ _ H2), Ha; reflexivity).
  assert (destLineSize me2 = destLineSize me1) as Hdl
    by (rewrite (coh_destLineSize _ _ _ H1), (coh_destLineSize _ _ _ H2), Hw; reflexivity).
  assert (srcLineSize me2 = srcLineSize me1) as Hsl
    by (rewrite (coh_srcLineSize _ _ _ H1), (coh_srcLineSize _ _ _ H2); reflexivity).
  split.
  - revert Hd. unfold downscale.
    rewrite !map_zero_replicate, (coh_accumulators _ _ _ H1),
      (coh_accumulators _ _ _ H2), Ha, Hs.
    rewrite (downscaleLoop_ext beyond me2 me1 _ _ _ Hw Hdl Hsl).
    destruct (downscaleLoop _ beyond me1 _ _ _) as [s|]; [|discriminate].
    intros Heq.
    apply (f_equal (fun o => match o with
                             | Some d => downscaleAccumulators d
                             | None => []
                             end)) in Heq.
    simpl in Heq. rewrite Heq. reflexivity.
  - simpl. rewrite !divideInto_map; [reflexivity| |].
    + rewrite Hl. symmetry. apply (coh_downscaleBuff _ _ _ H1).
    + rewrite Hl, <- Hs. symmetry. apply (coh_downscaleBuff _ _ _ H2).
Qed.

(** ** Calls with one and the same frame *)

Section SameFrame.

Variable beyond : Z -> Z.
Variables frameWidth frameHeight : nat.
Variable frame : VideoFrame.

(** The accumulators and the pixels [frame] is downscaled to, by any
    extractor of this geometry. *)
Variable me0 : MotionExtractor.
Variable accs : list Z.
Hypothesis Hcoh0 : coherent frameWidth frameHeight me0.
Hypothesis Hdown0 : downscale beyond me0 frame = Some (downscaled me0 accs).
Hypothesis Haccs0 : length accs = imageSize me0.

Lemma downscaledFrame_bytes : Forall is_byte (downscaledFrame me0 accs).
Proof. apply (downscaled_bytes frameWidth frameHeight); assumption. Qed.

Lemma downscale_here me :
  coherent frameWidth frameHeight me ->
  downscale beyond me frame = Some (downscaled me accs) /\
  getPixels (downscaleBuff (downscaled me accs)) = (downscaledFrame me0 accs) /\
  length (downscaledFrame me0 accs) = (3 * imageArea me)%nat /\
  length accs = imageSize me.
Proof.
  intros Hcoh.
  destruct (downscale_same_pixels beyond frameWidth frameHeight me0 me frame accs
              Hcoh0 Hcoh Hdown0 Haccs0) as [Hd Hp].
  destruct (coherent_steps _ _ _ Hcoh) as [_ Hs].
  assert (length accs = imageSize me) as Hl.
  { rewrite Haccs0, (coh_imageSize _ _ _ Hcoh0), (coh_imageSize _ _ _ Hcoh),
      (coh_imageArea _ _ _ Hcoh0), (coh_imageArea _ _ _ Hcoh),
      (coh_imageWidth _ _ _ Hcoh0), (coh_imageWidth _ _ _ Hcoh),
      (coh_imageHeight _ _ _ Hcoh0), (coh_imageHeight _ _ _ Hcoh). reflexivity. }
  repeat split; try assumption.
  unfold downscaledFrame. rewrite <- Hp, <- Hs.
  apply (coh_downscaleBuff _ _ _ (downscaled_coherent _ _ _ _ Hcoh Hl)).
Qed.

Lemma call_unfold me :
  coherent frameWidth frameHeight me -> firstFrame me = false ->
  generateMotionMask beyond me frame
    = Some (morphologicalFilter beyond (updateModel (downscaled me accs))) /\
  getPixels (currentImage (updateModel (downscaled me accs))) = fst (tracked me0 accs me) /\
  currentStableTimes (updateModel (downscaled me accs)) = snd (tracked me0 accs me) /\
  getPixels (refImage (updateModel (downscaled me accs)))
    = fst (fst (promotion me0 accs me)) /\
  getPixels (motionMask (updateModel (downscaled me accs)))
    = snd (fst (promotion me0 accs me)) /\
  stableRecords (updateModel (downscaled me accs)) = snd (promotion me0 accs me) /\
  firstFrame (updateModel (downscaled me accs)) = false /\
  motionThreshold (updateModel (downscaled me accs)) = motionThreshold me /\
  stableCap (updateModel (downscaled me accs)) = stableCap me /\
  erosionLevel (updateModel (downscaled me accs)) = erosionLevel me.
Proof.
  intros Hcoh Hfirst.
  destruct (downscale_here me Hcoh) as (Hd & Hp & _ & _).
  destruct (coherent_steps _ _ _ Hcoh) as [Hn _].
  split.
  { rewrite (generateMotionMask_eq beyond me frame accs Hd), Hfirst. reflexivity. }
  rewrite updateModel_eq. unfold promotedOf, trackedOf, promotion, tracked.
  change (imageSize (downscaled me accs)) with (imageSize me).
  rewrite Hp, Hn. simpl. rewrite Hfirst. repeat split.
Qed.

Lemma tracked_length me :
  coherent frameWidth frameHeight me ->
  length (fst (tracked me0 accs me)) = (3 * imageArea me)%nat /\
  length (snd (tracked me0 accs me)) = imageArea me.
Proof.
  intros Hcoh. destruct (downscale_here me Hcoh) as (_ & _ & HD & _).
  destruct (coherent_steps _ _ _ Hcoh) as [_ Hs].
  apply trackPass_length; [exact HD| |apply (coh_times _ _ _ Hcoh)].
  rewrite (coh_currentImage _ _ _ Hcoh). exact Hs.
Qed.

Lemma tracked_times n k me :
  sound frameWidth frameHeight me -> (k < n)%nat ->
  Forall (fun t => t + Z.of_nat (n - k) < 4294967296) (currentStableTimes me) ->
  Forall (fun t => t + Z.of_nat (n - S k) < 4294967296) (snd (tracked me0 accs me)).
Proof.
  intros Hs Hk Hbound.
  apply (trackPass_timers _
           (fun t => 0 <= t < 4294967296 /\ t + Z.of_nat (n - k) < 4294967296)).
  - intros t [H0 H1]. lia.
  - intros t [H0 H1]. unfold u32. rewrite Z.mod_small; lia.
  - apply (coh_times _ _ _ (sound_coherent _ _ _ Hs)).
  - apply Forall_and. split; [apply (sound_times _ _ _ Hs)|exact Hbound].
Qed.

Lemma tracked_settled me :
  sound frameWidth frameHeight me -> settledOn me0 accs me ->
  fst (tracked me0 accs me) = (downscaledFrame me0 accs) /\
  fst (fst (promotion me0 accs me)) = (downscaledFrame me0 accs) /\
  indicatorClear (snd (fst (promotion me0 accs me))).
Proof.
  intros Hs (Hff & HT & HR).
  pose proof (sound_coherent _ _ _ Hs) as Hcoh.
  destruct (downscale_here me Hcoh) as (_ & _ & HD & _).
  destruct (coherent_steps _ _ _ Hcoh) as [_ Hsz].
  pose proof (sound_threshold _ _ _ Hs) as Hthr.
  assert (fst (tracked me0 accs me) = (downscaledFrame me0 accs)) as Htr.
  { unfold tracked. rewrite HT.
    apply trackPass_same; [lia|exact HD|apply downscaledFrame_bytes]. }
  split; [exact Htr|].
  unfold promotion. rewrite Htr, HR.
  apply promotePass_settles; try assumption; try lia.
  - rewrite (coh_motionMask _ _ _ Hcoh). exact Hsz.
  - left. reflexivity.
Qed.

Lemma tracked_close me :
  sound frameWidth frameHeight me ->
  close (motionThreshold me) (downscaledFrame me0 accs) (fst (tracked me0 accs me)).
Proof.
  intros Hs. pose proof (sound_coherent _ _ _ Hs) as Hcoh.
  destruct (downscale_here me Hcoh) as (_ & _ & HD & _).
  destruct (coherent_steps _ _ _ Hcoh) as [_ Hsz].
  pose proof (sound_threshold _ _ _ Hs) as Hthr.
  apply trackPass_close; try assumption; try lia.
  - rewrite (coh_currentImage _ _ _ Hcoh). exact Hsz.
  - apply downscaledFrame_bytes.
  - apply (sound_tracked _ _ _ Hs).
Qed.

(** One more call with the frame. *)
Lemma fed_step cap0 er0 n k me :
  fed frameWidth frameHeight me0 accs cap0 er0 n k me -> (k < n)%nat ->
  exists me',
    generateMotionMask beyond me frame = Some me' /\ fed frameWidth frameHeight me0 accs cap0 er0 n (S k) me'.
Proof.
  intros [Hs Hcap Her Htimes Hprog] Hk.
  pose proof (sound_coherent _ _ _ Hs) as Hcoh.
  destruct (downscale_here me Hcoh) as (Hd & Hp & HD & Hl).
  pose proof (downscaled_coherent _ _ _ _ Hcoh Hl) as Hcoh1.
  destruct (firstFrame me) eqn:Hfirst.
  - (* the first frame *)
    destruct (firstFrameBranch_images _ _ _ Hcoh1) as (HT & HR & _ & Hff & Htm & _).
    exists (firstFrameBranch (downscaled me accs)).
    assert (generateMotionMask beyond me frame
            = Some (firstFrameBranch (downscaled me accs))) as Hgen
      by (rewrite (generateMotionMask_eq beyond me frame accs Hd), Hfirst; reflexivity).
    split; [exact Hgen|]. split.
    + exact (generateMotionMask_sound beyond _ _ me _ frame Hs Hgen).
    + exact Hcap.
    + exact Her.
    + rewrite Htm. change (currentStableTimes (downscaled me accs))
        with (currentStableTimes me).
      eapply Forall_impl; [exact Htimes|]. intros t Ht. simpl in Ht. lia.
    + right. left. split; [exact Hff|]. rewrite HT, HR, Hp. auto.
  - destruct (call_unfold me Hcoh Hfirst)
      as (Hgen & HT & Htm & HR & HM & Hrec & Hff & Hthr & Hc & He).
    destruct (morphologicalFilter_model beyond (updateModel (downscaled me accs)))
      as (FT & FR & Ftm & Frec & Fff & Fthr & Fc & Fe & _).
    exists (morphologicalFilter beyond (updateModel (downscaled me accs))).
    split; [exact Hgen|]. split.
    + exact (generateMotionMask_sound beyond _ _ me _ frame Hs Hgen).
    + rewrite Fc, Hc. exact Hcap.
    + rewrite Fe, He. exact Her.
    + rewrite Ftm, Htm. apply tracked_times; assumption.
    + right. destruct Hprog as [Hzero|[Hset|(_ & Hclose & Hlow)]].
      * right. repeat split.
        -- rewrite Fff. exact Hff.
        -- rewrite FT, HT, Fthr, Hthr. apply tracked_close, Hs.
        -- rewrite Ftm, Htm. subst k.
           apply (trackPass_timers _ (fun t => 0 <= t < 4294967296)).
           ++ intros t Ht. lia.
           ++ intros t Ht. pose proof (u32_range (t + 1)). lia.
           ++ apply (coh_times _ _ _ Hcoh).
           ++ apply (sound_times _ _ _ Hs).
      * left. destruct (tracked_settled me Hs Hset) as (Htr & Hpr & _).
        repeat split.
        -- rewrite Fff. exact Hff.
        -- rewrite FT, HT. exact Htr.
        -- rewrite FR, HR. exact Hpr.
      * right. repeat split.
        -- rewrite Fff. exact Hff.
        -- rewrite FT, HT, Fthr, Hthr. apply tracked_close, Hs.
        -- rewrite Ftm, Htm.
           apply (trackPass_timers_close _
                    (fun t => (Z.of_nat k - 1 <= t /\ 0 <= t < 4294967296) /\
                              t + Z.of_nat (n - k) < 4294967296)).
           ++ intros t [[H1 H2] H3]. unfold u32. rewrite Z.mod_small; lia.
           ++ exact Hclose.
           ++ apply (coh_times _ _ _ Hcoh).
           ++ apply Forall_and. split; [apply Forall_and; split|]; try assumption.
              apply (sound_times _ _ _ Hs).
Qed.

(** A call after enough calls with the frame: every pixel is promoted
    or already settled. *)
Lemma fed_enough cap0 er0 n k me :
  fed frameWidth frameHeight me0 accs cap0 er0 n k me -> (k < n)%nat -> cap0 < Z.of_nat k ->
  firstFrame me = false /\
  generateMotionMask beyond me frame
    = Some (morphologicalFilter beyond (updateModel (downscaled me accs))) /\
  getPixels (refImage (updateModel (downscaled me accs)))
    = getPixels (currentImage (updateModel (downscaled me accs))) /\
  indicatorClear (getPixels (motionMask (updateModel (downscaled me accs)))).
Proof.
  intros [Hs Hcap Her Htimes Hprog] Hk Hcapk.
  pose proof (sound_coherent _ _ _ Hs) as Hcoh.
  pose proof (sound_cap _ _ _ Hs) as Hcap0.
  destruct (coherent_steps _ _ _ Hcoh) as [_ Hsz].
  destruct (tracked_length me Hcoh) as [Hlt1 Hlt2].
  assert (firstFrame me = false) as Hfirst.
  { destruct Hprog as [Hzero|[(Hff & _)|(Hff & _)]]; [lia|exact Hff|exact Hff]. }
  destruct (call_unfold me Hcoh Hfirst)
    as (Hgen & HT & Htm & HR & HM & Hrec & Hff & Hthr & Hc & He).
  split; [exact Hfirst|]. split; [exact Hgen|].
  rewrite HT, HR, HM.
  destruct Hprog as [Hzero|[Hset|(_ & Hclose & Hlow)]]; [lia| |].
  - destruct (tracked_settled me Hs Hset) as (Htr & Hpr & Hclear).
    rewrite Htr, Hpr. auto.
  - unfold promotion.
    apply promotePass_settles; try assumption; try lia.
    + pose proof (sound_threshold _ _ _ Hs). lia.
    + rewrite (coh_refImage _ _ _ Hcoh). exact Hsz.
    + rewrite (coh_motionMask _ _ _ Hcoh). exact Hsz.
    + right. split; [exact Hlt2|].
      apply (capped_promoted (stableCap me)).
      * rewrite Hlt2, (coh_records _ _ _ Hcoh). reflexivity.
      * apply (trackPass_timers_close _
                 (fun t => (Z.of_nat k - 1 <= t /\ 0 <= t < 4294967296) /\
                           t + Z.of_nat (n - k) < 4294967296)).
        -- intros t [[H1 H2] H3]. unfold u32. rewrite Z.mod_small; lia.
        -- exact Hclose.
        -- apply (coh_times _ _ _ Hcoh).
        -- apply Forall_and. split; [apply Forall_and; split|]; try assumption.
           apply (sound_times _ _ _ Hs).
      * apply (sound_records _ _ _ Hs).
Qed.

Lemma fed_feed cap0 er0 n m :
  forall k me,
    fed frameWidth frameHeight me0 accs cap0 er0 n k me -> (k + m <= n)%nat ->
    exists me', feed beyond m me frame = Some me' /\ fed frameWidth frameHeight me0 accs cap0 er0 n (k + m) me'.
Proof.
  induction m as [|m IH]; intros k me Hfed Hkm.
  - exists me. rewrite Nat.add_0_r. split; [reflexivity|exact Hfed].
  - destruct (fed_step cap0 er0 n k me Hfed ltac:(lia)) as (me1 & Hgen & Hfed1).
    destruct (IH (S k) me1 Hfed1 ltac:(lia)) as (me' & Hfeed & Hfed').
    exists me'. split.
    + simpl. rewrite Hgen. exact Hfeed.
    + replace (k + S m)%nat with (S k + m)%nat by lia. exact Hfed'.
Qed.

End SameFrame.

Lemma feed_last beyond frame m :
  forall me st st',
    feed beyond m me frame = Some st ->
    generateMotionMask beyond st frame = Some st' ->
    feed beyond (S m) me frame = Some st'.
Proof.
  induction m as [|m IH]; intros me st st' Hfeed Hgen.
  - injection Hfeed as <-. simpl. rewrite Hgen. reflexivity.
  - change (feed beyond (S m) me frame) with
      (match generateMotionMask beyond me frame with
       | Some me1 => feed beyond m me1 frame
       | None => None
       end) in Hfeed.
    change (feed beyond (S (S m)) me frame) with
      (match generateMotionMask beyond me frame with
       | Some me1 => feed beyond (S m) me1 frame
       | None => None
       end).
    destruct (generateMotionMask beyond me frame) as [me1|]; [|discriminate].
    exact (IH me1 st st' Hfeed Hgen).
Qed.

Lemma feed_reachable beyond frameWidth frameHeight frame n :
  forall me me',
    reachable frameWidth frameHeight me ->
    feed beyond n me frame = Some me' ->
    reachable frameWidth frameHeight me'.
Proof.
  induction n as [|n IH]; intros me me' Hreach Hfeed.
  - injection Hfeed as <-. exact Hreach.
  - simpl in Hfeed.
    destruct (generateMotionMask beyond me frame) as [me1|] eqn:Hgen; [|discriminate].
    apply (IH me1 me'); [|exact Hfeed].
    exact (reach_generateMotionMask _ _ beyond me me1 frame Hreach Hgen).
Qed.

(** C4, amended. From any reachable state, when no stability timer
    overflows its 32 bits on the way, at least [stableCap + 2] calls with
    one and the same frame leave the reference image equal to the
    tracked image at every pixel, and the indicator channel all-zero in
    the mask as the two passes of the last call leave it, before the
    morphological filter; with an erosion level of 0 that is the mask
    returned. *)
Theorem identical_frames_converge :
  forall (beyond : Z -> Z) (frameWidth frameHeight : nat) (me : MotionExtractor)
         (frame : VideoFrame) (n : nat),
    reachable frameWidth frameHeight me ->
    Forall (fun t => t + Z.of_nat n < 4294967296) (currentStableTimes me) ->
    stableCap me + 2 <= Z.of_nat n ->
    exists previous down final,
      feed beyond (n - 1) me frame = Some previous /\
      downscale beyond previous frame = Some down /\
      firstFrame down = false /\
      final = morphologicalFilter beyond (updateModel down) /\
      feed beyond n me frame = Some final /\
      getPixels (refImage final) = getPixels (currentImage final) /\
      indicatorClear (getPixels (motionMask (updateModel down))) /\
      (erosionLevel me = 0 -> indicatorClear (getPixels (motionMask final))).
Proof.
  intros beyond frameWidth frameHeight me frame n Hreach Htimes Hn.
  pose proof (reachable_sound _ _ _ Hreach) as Hs.
  pose proof (sound_coherent _ _ _ Hs) as Hcoh.
  pose proof (sound_cap _ _ _ Hs) as Hcap.
  destruct (downscale_returns beyond me frameWidth frameHeight frame Hcoh)
    as (accs & Hd & Hl).
  assert (fed frameWidth frameHeight me accs
            (stableCap me) (erosionLevel me) n 0 me) as Hfed0.
  { split; auto. rewrite Nat.sub_0_r. exact Htimes. }
  destruct (fed_feed beyond frameWidth frameHeight frame me accs Hcoh Hd Hl
              (stableCap me) (erosionLevel me) n (n - 1) 0 me Hfed0 ltac:(lia))
    as (previous & Hfeed & Hfed).
  simpl in Hfed.
  destruct (fed_enough beyond frameWidth frameHeight frame me accs Hcoh Hd Hl
              (stableCap me) (erosionLevel me) n (n - 1) previous Hfed
              ltac:(lia) ltac:(lia))
    as (Hfirst & Hgen & Hsame & Hclear).
  pose proof (fed_sound _ _ _ _ _ _ _ _ _ Hfed) as Hsp.
  destruct (downscale_here beyond frameWidth frameHeight frame me accs Hcoh Hd Hl
              previous (sound_coherent _ _ _ Hsp)) as (Hdp & _).
  destruct (morphologicalFilter_model beyond (updateModel (downscaled previous accs)))
    as (FT & FR & _).
  exists previous, (downscaled previous accs),
    (morphologicalFilter beyond (updateModel (downscaled previous accs))).
  split; [exact Hfeed|]. split; [exact Hdp|]. split; [exact Hfirst|].
  split; [reflexivity|]. split.
  { replace n with (S (n - 1)) at 1 by lia. exact (feed_last _ _ _ _ _ _ Hfeed Hgen). }
  split; [rewrite FT, FR; exact Hsame|]. split; [exact Hclear|].
  intros Hzero. rewrite morphologicalFilter_bypass; [exact Hclear|].
  rewrite updateModel_eq. simpl.
  rewrite (fed_erosion _ _ _ _ _ _ _ _ _ Hfed). exact Hzero.
Qed.

(** Against C4 with [stableCap] calls: an extractor built for one frame per second has
    a stable cap of 1. After two calls with a black frame, one call with
    a bright frame, which is [stableCap] calls, leaves the reference
    image black and the tracked image bright; so do two such calls. *)
Lemma convergence_needs_more_calls :
  exists me final1 final2 : MotionExtractor,
    feed (fun _ => 0) 2 (MotionExtractor_new (fun _ _ => 0) 2 2 1%float)
      (mkFrame 2 2 3 (replicate 12 0)) = Some me /\
    stableCap me = 1 /\
    feed (fun _ => 0) 1 me (mkFrame 2 2 3 (replicate 12 200)) = Some final1 /\
    getPixels (refImage final1) = [0; 0; 0] /\
    getPixels (currentImage final1) = [200; 200; 200] /\
    getPixels (refImage final1) <> getPixels (currentImage final1) /\
    feed (fun _ => 0) 2 me (mkFrame 2 2 3 (replicate 12 200)) = Some final2 /\
    getPixels (refImage final2) <> getPixels (currentImage final2).
Proof.
  eexists. eexists. eexists.
  split; [vm_compute; reflexivity|].
  split; [vm_compute; reflexivity|].
  split; [vm_compute; reflexivity|].
  split; [vm_compute; reflexivity|].
  split; [vm_compute; reflexivity|].
  split; [vm_compute; discriminate|].
  split; [vm_compute; reflexivity|].
  vm_compute; discriminate.
Qed.

(** ** The erosion pass *)

(** The three entries of the offset table for the row below carry the
    byte offsets of the three entries for the row above. *)
Lemma offsets_below_point_above bpp width :
  map offP (filter (fun it => offY it = 1) (pixelOffsets bpp width))
    = map offP (filter (fun it => offY it = -1) (pixelOffsets bpp width)).
Proof. reflexivity. Qed.

(** C1. An extractor for 8x8 frames with erosion level 3 has seen the
    black frame twice and is given the frame with the bright block. The
    two passes turn on the four mask pixels (1,1), (2,1), (1,2), (2,2)
    of the 4x4 mask. Pixel (1,1) has three of its eight neighbours on,
    all with positive coordinates, which reaches the erosion level; the
    erosion pass counts 1, because it reads the row above once more for
    the three neighbours of the row below, and turns the pixel off. It
    is off in the mask the call returns. *)
Theorem erosion_reads_row_above_for_row_below :
  forall beyond : Z -> Z,
    (forall bpp width : nat,
       map offP (filter (fun it => offY it = 1) (pixelOffsets bpp width))
         = map offP (filter (fun it => offY it = -1) (pixelOffsets bpp width))) /\
    exists st down final : MotionExtractor,
      feed beyond 2
        (fst (setErosion 3 (MotionExtractor_new (fun _ _ => 0) 8 8 30%float)))
        blackFrame = Some st /\
      downscale beyond st blockFrame = Some down /\
      getErosion (updateModel down) = 3 /\
      sample 4 (getPixels (motionMask (updateModel down))) 1 1 0 = 255 /\
      sample 4 (getPixels (motionMask (updateModel down))) 2 1 0 = 255 /\
      sample 4 (getPixels (motionMask (updateModel down))) 1 2 0 = 255 /\
      sample 4 (getPixels (motionMask (updateModel down))) 2 2 0 = 255 /\
      neighboursOn 4 (getPixels (motionMask (updateModel down))) 1 1 = 3 /\
      countAdjacents beyond (getPixels (motionMask (updateModel down)))
        (Z.of_nat ((1 * 4 + 1) * kBytesPerPixel)) 1 1 (offs (updateModel down)) 0 = 1 /\
      sample 4 (getPixels (motionMask (erosion beyond (updateModel down)))) 1 1 0 = 0 /\
      generateMotionMask beyond st blockFrame = Some final /\
      sample 4 (getPixels (motionMask final)) 1 1 0 = 0.
Proof.
  intros beyond. split; [intros; reflexivity|].
  eexists. eexists. eexists.
  split; [vm_compute; reflexivity|].
  split; [vm_compute; reflexivity|].
  split; [vm_compute; reflexivity|].
  split; [vm_compute; reflexivity|].
  split; [vm_compute; reflexivity|].
  split; [vm_compute; reflexivity|].
  split; [vm_compute; reflexivity|].
  split; [vm_compute; reflexivity|].
  split; [vm_compute; reflexivity|].
  split; [vm_compute; reflexivity|].
  split; [vm_compute; reflexivity|].
  vm_compute; reflexivity.
Qed.

(** After three calls with a black 4x4 frame both images are black and
    the mask is clear before the filter; what the filter then returns
    follows the bytes around the mask buffer, which its neighbour reads
    reach at the first row and at the last pixel. *)
Lemma filtered_mask_follows_memory_outside :
  (exists final : MotionExtractor,
     feed (fun _ => 0) 3 (MotionExtractor_new (fun _ _ => 0) 4 4 1%float)
       (mkFrame 4 4 3 (replicate 48 0)) = Some final /\
     getPixels (refImage final) = getPixels (currentImage final) /\
     map (fun i : nat => nth (i * kBytesPerPixel) (getPixels (motionMask final)) 0)
       (seq 0 4) = [0; 0; 0; 0]) /\
  (exists final : MotionExtractor,
     feed (fun _ => 255) 3 (MotionExtractor_new (fun _ _ => 0) 4 4 1%float)
       (mkFrame 4 4 3 (replicate 48 0)) = Some final /\
     getPixels (refImage final) = getPixels (currentImage final) /\
     map (fun i : nat => nth (i * kBytesPerPixel) (getPixels (motionMask final)) 0)
       (seq 0 4) = [255; 255; 0; 255]).
Proof.
  split; eexists; (split; [vm_compute; reflexivity|]);
    split; vm_compute; reflexivity.
Qed.

(** ** The theorems at concrete inputs *)

Lemma staleBackground_reachable : reachable 2 2 staleBackground.
Proof.
  apply (feed_reachable (fun _ => 0) 2 2 (mkFrame 2 2 3 (replicate 12 0)) 2
           (MotionExtractor_new (fun _ _ => 0) 2 2 1%float)).
  - apply reach_new.
  - vm_compute. reflexivity.
Defined.

Lemma first_frame_mask_is_clear_witness :
  exists down me',
    downscale (fun _ => 0) (reset staleBackground)
      (mkFrame 2 2 3 (replicate 12 200)) = Some down /\
    generateMotionMask (fun _ => 0) (reset staleBackground)
      (mkFrame 2 2 3 (replicate 12 200)) = Some me' /\
    indicatorClear (getPixels (motionMask me')) /\
    getPixels (currentImage me') = getPixels (downscaleBuff down) /\
    getPixels (refImage me') = getPixels (downscaleBuff down) /\
    firstFrame me' = false.
Proof.
  apply (first_frame_mask_is_clear (fun _ => 0) (fun _ _ => 0) 2 2 1%float
           staleBackground (reset staleBackground)
           (mkFrame 2 2 3 (replicate 12 200))).
  - exact staleBackground_reachable.
  - right. reflexivity.
Defined.

Lemma identical_frames_converge_witness :
  exists previous down final,
    feed (fun _ => 0) (3 - 1) staleBackground (mkFrame 2 2 3 (replicate 12 200))
      = Some previous /\
    downscale (fun _ => 0) previous (mkFrame 2 2 3 (replicate 12 200)) = Some down /\
    firstFrame down = false /\
    final = morphologicalFilter (fun _ => 0) (updateModel down) /\
    feed (fun _ => 0) 3 staleBackground (mkFrame 2 2 3 (replicate 12 200))
      = Some final /\
    getPixels (refImage final) = getPixels (currentImage final) /\
    indicatorClear (getPixels (motionMask (updateModel down))) /\
    (erosionLevel staleBackground = 0 ->
     indicatorClear (getPixels (motionMask final))).
Proof.
  apply (identical_frames_converge (fun _ => 0) 2 2 staleBackground
           (mkFrame 2 2 3 (replicate 12 200)) 3).
  - exact staleBackground_reachable.
  - apply (bool_decide_unpack _). vm_compute. exact I.
  - apply (bool_decide_unpack _). vm_compute. exact I.
Defined.

Lemma downscale_block_average_witness :
  exists me',
    downscale (fun _ => 0) (MotionExtractor_new (fun _ _ => 0) 5 5 30%float)
      (mkFrame 5 5 3 (map Z.of_nat (seq 0 75))) = Some me' /\
    getWidth (downscaleBuff me') = (5 / 2)%nat /\
    getHeight (downscaleBuff me') = (5 / 2)%nat /\
    length (getPixels (downscaleBuff me')) = (5 / 2 * (5 / 2) * kBytesPerPixel)%nat /\
    (forall x y c : nat,
       (x < 5 / 2)%nat -> (y < 5 / 2)%nat -> (c < 3)%nat ->
       sample (5 / 2) (getPixels (downscaleBuff me')) x y c
         = blockAverage 5 (map Z.of_nat (seq 0 75)) x y c) /\
    (forall frame2 : VideoFrame,
       length (getPixels frame2) = (5 * 5 * kBytesPerPixel)%nat ->
       Forall is_byte (getPixels frame2) ->
       (forall x y c : nat,
          (x < 2 * (5 / 2))%nat -> (y < 2 * (5 / 2))%nat -> (c < 3)%nat ->
          sample 5 (getPixels frame2) x y c
            = sample 5 (map Z.of_nat (seq 0 75)) x y c) ->
       exists me2,
         downscale (fun _ => 0) (MotionExtractor_new (fun _ _ => 0) 5 5 30%float) frame2
           = Some me2 /\
         getPixels (downscaleBuff me2) = getPixels (downscaleBuff me')).
Proof.
  apply (downscale_block_average (fun _ => 0)
           (MotionExtractor_new (fun _ _ => 0) 5 5 30%float) 5 5
           (mkFrame 5 5 3 (map Z.of_nat (seq 0 75)))).
  - split; vm_compute; reflexivity.
  - reflexivity.
  - apply (bool_decide_unpack _). vm_compute. exact I.
Defined.

Lemma stability_records_capped_witness :
  recordsCapped staleBackground /\
  Forall (fun record => record = 0) (stableRecords (reset staleBackground)) /\
  (forall v, snd (setSensitivity v staleBackground) = inr tt ->
     Forall (fun record => record = 0)
       (stableRecords (fst (setSensitivity v staleBackground)))) /\
  (forall s, snd (setSettleTime s staleBackground) = inr tt ->
     Forall (fun record => record = 0)
       (stableRecords (fst (setSettleTime s staleBackground)))) /\
  (forall e, snd (setErosion e staleBackground) = inr tt ->
     Forall (fun record => record = 0)
       (stableRecords (fst (setErosion e staleBackground)))) /\
  (forall beyond frame me',
     generateMotionMask beyond staleBackground frame = Some me' ->
     forall i : nat, (i < imageArea staleBackground)%nat ->
       nth i (stableRecords me') 0 = nth i (stableRecords staleBackground) 0 \/
       nth i (stableRecords me') 0
         = Z.min (nth i (currentStableTimes me') 0) (stableCap staleBackground)).
Proof.
  apply (stability_records_capped 2 2 staleBackground).
  exact staleBackground_reachable.
Defined.

(** * Further properties of the code *)

(** ** The passes, pixel by pixel *)

Lemma channelAt_pixelAt px i c : nth c (pixelAt px i) 0 = channelAt px i c.
Proof. unfold pixelAt, channelAt. apply nth_drop. Qed.

Lemma pixelIsDifferent_ext thr a a' b b' :
  (forall c : nat, (c < 3)%nat -> nth c a 0 = nth c a' 0) ->
  (forall c : nat, (c < 3)%nat -> nth c b 0 = nth c b' 0) ->
  pixelIsDifferent thr a b = pixelIsDifferent thr a' b'.
Proof.
  intros Ha Hb.
  destruct (pixelIsDifferent thr a' b') eqn:Hd.
  - apply pixelIsDifferent_true in Hd. destruct Hd as (c & Hc & Hgt).
    apply pixelIsDifferent_true. exists c. split; [exact Hc|].
    rewrite (Ha c Hc), (Hb c Hc). exact Hgt.
  - apply pixelIsDifferent_false. intros c Hc.
    rewrite (Ha c Hc), (Hb c Hc).
    exact (proj1 (pixelIsDifferent_false thr a' b') Hd c Hc).
Qed.

Lemma pixelIsDifferent_take thr a b :
  pixelIsDifferent thr (take 3 a) b = pixelIsDifferent thr a b /\
  pixelIsDifferent thr a (take 3 b) = pixelIsDifferent thr a b.
Proof.
  split; apply pixelIsDifferent_ext; intros c Hc; try reflexivity;
    apply nth_take, Hc.
Qed.

Lemma pixelIsDifferent_sym thr a b :
  pixelIsDifferent thr a b = pixelIsDifferent thr b a.
Proof.
  destruct (pixelIsDifferent thr b a) eqn:Hd.
  - apply pixelIsDifferent_true in Hd. destruct Hd as (c & Hc & Hgt).
    apply pixelIsDifferent_true. exists c. split; [exact Hc|]. lia.
  - apply pixelIsDifferent_false. intros c Hc.
    pose proof (proj1 (pixelIsDifferent_false thr b a) Hd c Hc). lia.
Qed.

Lemma drop_setIndicator v p n : (0 < n)%nat -> drop n (setIndicator v p) = drop n p.
Proof.
  intros Hn. unfold setIndicator. destruct p as [|b p]; [reflexivity|].
  destruct n as [|n]; [lia|]. reflexivity.
Qed.

Lemma drop_tail {A} (l : list A) i : drop i (tail l) = drop (S i) l.
Proof. destruct l; [simpl; rewrite drop_nil|]; reflexivity. Qed.

Lemma drop_promotedRef cip rip ct record :
  (3 <= length cip)%nat ->
  drop 3 (promotedRef cip rip ct record) = drop 3 rip.
Proof.
  intros Hc. unfold promotedRef, kBytesPerPixel.
  destruct (promoted ct record); [apply drop_memcpy; lia|reflexivity].
Qed.

Lemma trackPass_pixel thr n :
  forall tip cip currentTime i,
    (i < n)%nat -> length tip = (3 * n)%nat -> length cip = (3 * n)%nat ->
    take 3 (drop (3 * i) (fst (trackPass thr n tip cip currentTime)))
      = trackedPixel thr (drop (3 * i) tip) (drop (3 * i) cip) /\
    nth i (snd (trackPass thr n tip cip currentTime)) 0
      = trackedTime thr (drop (3 * i) tip) (drop (3 * i) cip) (drop i currentTime).
Proof.
  induction n as [|n IH]; intros tip cip ct i Hi Ht Hc; [lia|].
  rewrite trackPass_S. cbn [fst snd].
  assert (length (trackedPixel thr tip cip) = 3%nat) as H3
    by (apply trackedPixel_length; lia).
  destruct i as [|i].
  - rewrite Nat.mul_0_r. rewrite !drop_0. split; [|reflexivity].
    rewrite take_app_length' by (symmetry; exact H3). reflexivity.
  - destruct (IH (drop 3 tip) (drop 3 cip) (tail ct) i) as [IH1 IH2];
      rewrite ?length_drop; try lia.
    replace (3 * S i)%nat with (3 + 3 * i)%nat by lia.
    rewrite <- !drop_drop.
    rewrite (drop_app_length' (trackedPixel thr tip cip))
      by (first [exact H3 | symmetry; exact H3]).
    split; [exact IH1|].
    rewrite <- (drop_tail ct i), <- IH2. destruct ct; [destruct i|]; reflexivity.
Qed.

Lemma promotePass_pixel thr cap n :
  forall cip rip bmp currentTime record i,
    (i < n)%nat -> length cip = (3 * n)%nat -> length rip = (3 * n)%nat ->
    length bmp = (3 * n)%nat ->
    take 3 (drop (3 * i)
              (fst (fst (promotePass thr cap n cip rip bmp currentTime record))))
      = take 3 (promotedRef (drop (3 * i) cip) (drop (3 * i) rip)
                  (drop i currentTime) (drop i record)) /\
    take 3 (drop (3 * i)
              (snd (fst (promotePass thr cap n cip rip bmp currentTime record))))
      = take 3 (markedMask thr (drop (3 * i) cip) (drop (3 * i) rip)
                  (drop (3 * i) bmp) (drop i currentTime) (drop i record)).
Proof.
  induction n as [|n IH]; intros cip rip bmp ct record i Hi Hc Hr Hb; [lia|].
  rewrite promotePass_S. cbv zeta. cbn [fst snd].
  rewrite drop_promotedRef by lia.
  unfold markedMask at 1 3. rewrite drop_setIndicator by lia.
  fold (markedMask thr cip rip bmp ct record).
  assert (length (take 3 (promotedRef cip rip ct record)) = 3%nat) as H3r
    by (rewrite length_take, promotedRef_length; lia).
  assert (length (take 3 (markedMask thr cip rip bmp ct record)) = 3%nat) as H3m
    by (unfold markedMask; rewrite length_take, setIndicator_length; lia).
  destruct i as [|i].
  - rewrite Nat.mul_0_r, !drop_0.
    rewrite !take_app_length' by (symmetry; assumption).
    split; reflexivity.
  - destruct (IH (drop 3 cip) (drop 3 rip) (drop 3 bmp) (tail ct) (tail record) i)
      as [IH1 IH2]; rewrite ?length_drop; try lia.
    replace (3 * S i)%nat with (3 + 3 * i)%nat by lia.
    rewrite <- !drop_drop.
    rewrite (drop_app_length' (take 3 (promotedRef cip rip ct record)))
      by (first [exact H3r | symmetry; exact H3r]).
    rewrite (drop_app_length' (take 3 (markedMask thr cip rip bmp ct record)))
      by (first [exact H3m | symmetry; exact H3m]).
    rewrite <- (drop_tail ct i), <- (drop_tail record i).
    split; assumption.
Qed.

Lemma trackedPixel_channel thr tip cip c :
  (c < 3)%nat -> (3 <= length tip)%nat -> (3 <= length cip)%nat ->
  is_byte (nth c tip 0) -> is_byte (nth c cip 0) ->
  nth c (trackedPixel thr tip cip) 0 =
    if pixelIsDifferent thr tip cip then nth c tip 0
    else nth c cip 0 + Z.sgn (nth c tip 0 - nth c cip 0).
Proof.
  intros Hc Ht Hl Hbt Hbc. unfold trackedPixel, kBytesPerPixel.
  destruct (pixelIsDifferent thr tip cip).
  - rewrite nth_take by exact Hc. unfold memcpy.
    rewrite app_nth1 by (rewrite length_take; lia).
    apply nth_take, Hc.
  - rewrite nudge_nth by assumption.
    apply (nudge_step _ _ Hbc Hbt).
Qed.

Lemma promotedRef_channel cip rip currentTime record c :
  (c < 3)%nat -> (3 <= length cip)%nat ->
  nth c (promotedRef cip rip currentTime record) 0 =
    if promoted currentTime record then nth c cip 0 else nth c rip 0.
Proof.
  intros Hc Hl. unfold promotedRef, kBytesPerPixel, memcpy.
  destruct (promoted currentTime record); [|reflexivity].
  rewrite app_nth1 by (rewrite length_take; lia).
  apply nth_take, Hc.
Qed.

Lemma markedMask_channel thr cip rip bmp currentTime record c :
  (1 <= length bmp)%nat ->
  nth c (markedMask thr cip rip bmp currentTime record) 0 =
    match c with
    | O => if pixelIsDifferent thr (promotedRef cip rip currentTime record) cip
           then 255 else 0
    | S _ => nth c bmp 0
    end.
Proof.
  intros Hl. unfold markedMask, setIndicator.
  destruct bmp as [|b bmp]; [simpl in Hl; lia|].
  destruct c; reflexivity.
Qed.

Lemma promoted_nth currentTime record i :
  promoted (drop i currentTime) (drop i record)
    = (nth i currentTime 0 >? nth i record 0).
Proof.
  unfold promoted.
  assert (forall l : list Z, hd 0 (drop i l) = nth i l 0) as Hhd.
  { intros l. rewrite <- (Nat.add_0_r i) at 2. rewrite <- nth_drop.
    destruct (drop i l); reflexivity. }
  rewrite !Hhd. reflexivity.
Qed.

Lemma trackedTime_nth thr tip cip currentTime i :
  trackedTime thr tip cip (drop i currentTime) =
    if pixelIsDifferent thr tip cip then 0 else u32 (nth i currentTime 0 + 1).
Proof.
  unfold trackedTime.
  replace (hd 0 (drop i currentTime)) with (nth i currentTime 0); [reflexivity|].
  rewrite <- (Nat.add_0_r i) at 1. rewrite <- nth_drop.
  destruct (drop i currentTime); reflexivity.
Qed.

(** ** One call after the first, pixel by pixel *)

Lemma channelAt_take px px' i c :
  (c < 3)%nat ->
  take 3 (pixelAt px i) = take 3 px' ->
  channelAt px i c = nth c px' 0.
Proof.
  intros Hc Heq. rewrite <- channelAt_pixelAt, <- (nth_take _ 3) by exact Hc.
  rewrite Heq. apply nth_take, Hc.
Qed.

Lemma pixelAt_length px i n :
  length px = (3 * n)%nat -> (i < n)%nat -> (3 <= length (pixelAt px i))%nat.
Proof.
  intros Hl Hi. unfold pixelAt, kBytesPerPixel. rewrite length_drop. lia.
Qed.

Lemma pixelAt_drop px i : drop (3 * i) px = pixelAt px i.
Proof. unfold pixelAt, kBytesPerPixel. rewrite (Nat.mul_comm i 3). reflexivity. Qed.

Lemma later_call beyond frameWidth frameHeight me frame :
  sound frameWidth frameHeight me -> firstFrame me = false ->
  exists down model : MotionExtractor,
    downscale beyond me frame = Some down /\
    generateMotionMask beyond me frame = Some (morphologicalFilter beyond model) /\
    model = updateModel down /\
    coherent frameWidth frameHeight model /\
    erosionLevel model = erosionLevel me /\
    Forall is_byte (getPixels (downscaleBuff down)) /\
    forall i : nat, (i < imageArea me)%nat ->
      let thr := motionThreshold me in
      let differs :=
        pixelIsDifferent thr (pixelAt (getPixels (downscaleBuff down)) i)
          (pixelAt (getPixels (currentImage me)) i) in
      let promotes :=
        nth i (currentStableTimes model) 0 >? nth i (stableRecords me) 0 in
      nth i (currentStableTimes model) 0
        = (if differs then 0 else u32 (nth i (currentStableTimes me) 0 + 1)) /\
      (forall c : nat, (c < 3)%nat ->
         channelAt (getPixels (currentImage model)) i c
           = if differs then channelAt (getPixels (downscaleBuff down)) i c
             else channelAt (getPixels (currentImage me)) i c
                  + Z.sgn (channelAt (getPixels (downscaleBuff down)) i c
                           - channelAt (getPixels (currentImage me)) i c)) /\
      (forall c : nat, (c < 3)%nat ->
         channelAt (getPixels (refImage model)) i c
           = if promotes then channelAt (getPixels (currentImage model)) i c
             else channelAt (getPixels (refImage me)) i c) /\
      indicatorAt (getPixels (motionMask model)) i
        = (if pixelIsDifferent thr (pixelAt (getPixels (refImage model)) i)
                (pixelAt (getPixels (currentImage model)) i)
           then 255 else 0) /\
      (forall c : nat, (0 < c < 3)%nat ->
         channelAt (getPixels (motionMask model)) i c
           = channelAt (getPixels (motionMask me)) i c) /\
      nth i (stableRecords model) 0
        = (if promotes then Z.min (nth i (currentStableTimes model) 0) (stableCap me)
           else nth i (stableRecords me) 0).
Proof.
  intros Hs Hfirst. pose proof (sound_coherent _ _ _ Hs) as Hcoh.
  destruct (downscale_returns beyond me frameWidth frameHeight frame Hcoh)
    as (accs & Hd & Hl).
  fold (downscaled me accs) in Hd.
  destruct (call_unfold beyond _ _ frame me accs Hcoh Hd Hl me Hcoh Hfirst)
    as (Hgen & HT & Htm & HR & HM & Hrc & _ & _ & _ & Her).
  destruct (downscale_here beyond _ _ frame me accs Hcoh Hd Hl me Hcoh)
    as (_ & _ & HD & _).
  pose proof (downscaled_coherent _ _ _ _ Hcoh Hl) as Hcoh1.
  pose proof (downscaled_bytes _ _ _ _ Hcoh Hl) as Hbytes.
  destruct (coherent_steps _ _ _ Hcoh) as [_ Hsz].
  exists (downscaled me accs), (updateModel (downscaled me accs)).
  split; [exact Hd|]. split; [exact Hgen|]. split; [reflexivity|].
  split; [apply updateModel_coherent, Hcoh1|]. split; [exact Her|].
  split; [exact Hbytes|].
  intros i Hi.
  destruct (tracked_length beyond _ _ frame me accs Hcoh Hd Hl me Hcoh) as [HlT' _].
  unfold promotion, tracked, downscaledFrame in *.
  set (D := getPixels (downscaleBuff (downscaled me accs))) in *.
  assert (length (getPixels (currentImage me)) = (3 * imageArea me)%nat) as HlT
    by (rewrite (coh_currentImage _ _ _ Hcoh); exact Hsz).
  assert (length (getPixels (refImage me)) = (3 * imageArea me)%nat) as HlR
    by (rewrite (coh_refImage _ _ _ Hcoh); exact Hsz).
  assert (length (getPixels (motionMask me)) = (3 * imageArea me)%nat) as HlM
    by (rewrite (coh_motionMask _ _ _ Hcoh); exact Hsz).
  destruct (trackPass_pixel (motionThreshold me) (imageArea me) D
              (getPixels (currentImage me)) (currentStableTimes me) i Hi HD HlT)
    as [Hpx Htime].
  destruct (promotePass_pixel (motionThreshold me) (stableCap me) (imageArea me)
              _ (getPixels (refImage me))
              (getPixels (motionMask me)) (snd (trackPass (motionThreshold me) (imageArea me) D
              (getPixels (currentImage me)) (currentStableTimes me)))
              (stableRecords me) i Hi HlT' HlR HlM) as [Href Hmask].
  rewrite <- HR in Href. rewrite <- HM in Hmask.
  rewrite <- HT in Hpx, Href, Hmask. rewrite <- Htm in Htime, Href, Hmask.
  repeat rewrite pixelAt_drop in Hpx. repeat rewrite pixelAt_drop in Htime.
  repeat rewrite pixelAt_drop in Href. repeat rewrite pixelAt_drop in Hmask.
  rewrite trackedTime_nth in Htime.
  set (model := updateModel (downscaled me accs)) in *.
  pose proof (pixelAt_length D i _ HD Hi) as H3D.
  pose proof (pixelAt_length _ i _ HlT Hi) as H3T.
  pose proof (pixelAt_length _ i _ HlR Hi) as H3R.
  pose proof (pixelAt_length _ i _ HlM Hi) as H3M.
  assert (3 <= length (pixelAt (getPixels (currentImage model)) i))%nat as H3T'.
  { apply (pixelAt_length _ i (imageArea me)); [|exact Hi]. rewrite HT. exact HlT'. }
  assert (forall c : nat, (c < 3)%nat ->
            channelAt (getPixels (refImage model)) i c
            = if nth i (currentStableTimes model) 0 >? nth i (stableRecords me) 0
              then channelAt (getPixels (currentImage model)) i c
              else channelAt (getPixels (refImage me)) i c) as Hrefc.
  { intros c Hc.
    rewrite (channelAt_take _ _ i c Hc Href).
    rewrite promotedRef_channel by assumption.
    rewrite promoted_nth, !channelAt_pixelAt. reflexivity. }
  cbv zeta. split; [exact Htime|]. split; [|split; [exact Hrefc|split; [|split]]].
  - intros c Hc.
    assert (take 3 (pixelAt (getPixels (currentImage model)) i)
            = take 3 (trackedPixel (motionThreshold me) (pixelAt D i)
                        (pixelAt (getPixels (currentImage me)) i))) as Heq.
    { rewrite Hpx. symmetry. apply take_ge.
      rewrite trackedPixel_length; [lia|exact H3D|exact H3T]. }
    rewrite (channelAt_take _ _ i c Hc Heq).
    rewrite trackedPixel_channel; try assumption.
    + rewrite !channelAt_pixelAt. reflexivity.
    + rewrite channelAt_pixelAt. apply is_byte_nth, Hbytes.
    + rewrite channelAt_pixelAt. apply is_byte_nth, (sound_tracked _ _ _ Hs).
  - unfold indicatorAt.
    rewrite (channelAt_take _ _ i 0%nat ltac:(lia) Hmask).
    rewrite markedMask_channel by lia.
    rewrite (pixelIsDifferent_ext (motionThreshold me)
               (pixelAt (getPixels (refImage model)) i) 
               (promotedRef (pixelAt (getPixels (currentImage model)) i)
                  (pixelAt (getPixels (refImage me)) i)
                  (drop i (currentStableTimes model)) (drop i (stableRecords me)))
               (pixelAt (getPixels (currentImage model)) i)
               (pixelAt (getPixels (currentImage model)) i)); [reflexivity| |reflexivity].
    intros c Hc. rewrite channelAt_pixelAt, (Hrefc c Hc).
    rewrite promotedRef_channel by assumption.
    rewrite promoted_nth, !channelAt_pixelAt. reflexivity.
  - intros c Hc.
    rewrite (channelAt_take _ _ i c ltac:(lia) Hmask).
    rewrite markedMask_channel by lia.
    destruct c; [lia|]. apply channelAt_pixelAt.
  - rewrite Hrc, Htm.
    apply promotePass_record_nth, Hi.
Qed.

(** ** The morphological filter, pixel by pixel *)

Lemma erodePass_pixel beyond lvl offs width mask n :
  forall bmp x y eroded i,
    (i < n)%nat ->
    let out := erodePass beyond lvl offs width mask n bmp x y eroded in
    (nth (3 * i) out 0 = 0 \/
     0 < nth (bmp + 3 * i) mask 0 /\ nth (3 * i) out 0 = nth (bmp + 3 * i) mask 0) /\
    nth (3 * i + 1) out 0 = nth (bmp + 3 * i + 1) mask 0 /\
    nth (3 * i + 2) out 0 = nth (bmp + 3 * i + 2) mask 0.
Proof.
  induction n as [|n IH]; intros bmp x y eroded i Hi; [lia|].
  cbn [erodePass]. cbv zeta.
  destruct (nextCoordinates width x y) as [x1 y1].
  destruct i as [|i].
  - rewrite Nat.mul_0_r, !Nat.add_0_r. cbn [app nth Nat.add].
    split; [|split; reflexivity].
    destruct (nth bmp mask 0 >? 0) eqn:Hon; [|left; reflexivity].
    destruct (countAdjacents beyond mask (Z.of_nat bmp) x y offs 0 >=? lvl);
      [|left; reflexivity].
    right. split; [lia|reflexivity].
  - specialize (IH (bmp + kBytesPerPixel)%nat x1 y1 (drop kBytesPerPixel eroded) i
                  ltac:(lia)).
    cbv zeta in IH. unfold kBytesPerPixel in IH.
    replace (3 * S i)%nat with (S (S (S (3 * i)))) by lia.
    replace (bmp + S (S (S (3 * i))))%nat with (bmp + 3 + 3 * i)%nat by lia.
    cbn [app nth Nat.add]. exact IH.
Qed.

Lemma dilatePass_pixel beyond offs width mask n :
  forall bmp x y eroded i,
    (i < n)%nat ->
    let out := dilatePass beyond offs width mask n bmp x y eroded in
    (0 < nth (bmp + 3 * i) mask 0 -> nth (3 * i) out 0 = nth (bmp + 3 * i) mask 0) /\
    (nth (bmp + 3 * i) mask 0 <= 0 -> nth (3 * i) out 0 = 0 \/ nth (3 * i) out 0 = 255) /\
    nth (3 * i + 1) out 0 = nth (bmp + 3 * i + 1) mask 0 /\
    nth (3 * i + 2) out 0 = nth (bmp + 3 * i + 2) mask 0.
Proof.
  induction n as [|n IH]; intros bmp x y eroded i Hi; [lia|].
  cbn [dilatePass]. cbv zeta.
  destruct (nextCoordinates width x y) as [x1 y1].
  destruct i as [|i].
  - rewrite Nat.mul_0_r, !Nat.add_0_r. cbn [app nth Nat.add].
    split; [|split; [|split; reflexivity]].
    + intros Hon. replace (nth bmp mask 0 >? 0) with true by lia. reflexivity.
    + intros Hoff. replace (nth bmp mask 0 >? 0) with false by lia.
      destruct (activeNeighbors beyond mask (Z.of_nat bmp) x y offs); auto.
  - specialize (IH (bmp + kBytesPerPixel)%nat x1 y1 (drop kBytesPerPixel eroded) i
                  ltac:(lia)).
    cbv zeta in IH. unfold kBytesPerPixel in IH.
    replace (3 * S i)%nat with (S (S (S (3 * i)))) by lia.
    replace (bmp + S (S (S (3 * i))))%nat with (bmp + 3 + 3 * i)%nat by lia.
    cbn [app nth Nat.add]. exact IH.
Qed.

(** What the filter does to the mask of a well-sized extractor: erosion
    only turns indicators off, dilation only turns them on, and both
    copy the two other bytes of every pixel. *)
Lemma erosion_pixel beyond frameWidth frameHeight me i :
  coherent frameWidth frameHeight me -> (i < imageArea me)%nat ->
  let before := getPixels (motionMask me) in
  let after := getPixels (motionMask (erosion beyond me)) in
  (indicatorAt after i = 0 \/
   0 < indicatorAt before i /\ indicatorAt after i = indicatorAt before i) /\
  channelAt after i 1 = channelAt before i 1 /\
  channelAt after i 2 = channelAt before i 2.
Proof.
  intros Hcoh Hi. destruct (coherent_steps _ _ _ Hcoh) as [Hn Hs].
  cbv zeta. unfold indicatorAt, channelAt, kBytesPerPixel.
  rewrite Nat.add_0_r, (Nat.mul_comm i 3).
  cbn [erosion motionMask set_motionMask getPixels withPixels].
  unfold getTotalSize. rewrite (coh_motionMask _ _ _ Hcoh), Hn.
  exact (erodePass_pixel beyond (erosionLevel me) (offs me)
           (Z.of_nat (getWidth (motionMask me))) (getPixels (motionMask me))
           (imageArea me) 0%nat 0 0 (getPixels (erodedMask me)) i Hi).
Qed.

Lemma dilation_pixel beyond frameWidth frameHeight me i :
  coherent frameWidth frameHeight me -> (i < imageArea me)%nat ->
  let before := getPixels (motionMask me) in
  let after := getPixels (motionMask (dilation beyond (imageSize me) me)) in
  (0 < indicatorAt before i -> indicatorAt after i = indicatorAt before i) /\
  (indicatorAt before i <= 0 -> indicatorAt after i = 0 \/ indicatorAt after i = 255) /\
  channelAt after i 1 = channelAt before i 1 /\
  channelAt after i 2 = channelAt before i 2.
Proof.
  intros Hcoh Hi. destruct (coherent_steps _ _ _ Hcoh) as [Hn Hs].
  cbv zeta. unfold indicatorAt, channelAt, kBytesPerPixel.
  rewrite Nat.add_0_r, (Nat.mul_comm i 3).
  cbn [dilation motionMask set_motionMask getPixels withPixels].
  rewrite Hn.
  exact (dilatePass_pixel beyond (offs me)
           (Z.of_nat (getWidth (motionMask me))) (getPixels (motionMask me))
           (imageArea me) 0%nat 0 0 (getPixels (erodedMask me)) i Hi).
Qed.

Lemma wipeIndicator_channel fuel :
  forall mask n i c,
    length mask = (3 * n)%nat -> (i < n)%nat -> (0 < c < 3)%nat ->
    nth (3 * i + c) (wipeIndicator fuel 3 mask) 0 = nth (3 * i + c) mask 0.
Proof.
  induction fuel as [|fuel IH]; intros mask n i c Hl Hi Hc; [destruct mask; reflexivity|].
  destruct mask as [|b0 mask]; [reflexivity|].
  cbn [wipeIndicator].
  assert (length (setIndicator 0 (take 3 (b0 :: mask))) = 3%nat) as Hthree.
  { rewrite setIndicator_length, length_take. lia. }
  destruct i as [|i].
  - rewrite app_nth1 by lia. rewrite Nat.mul_0_r, Nat.add_0_l.
    destruct c as [|c]; [lia|]. unfold setIndicator.
    change (nth c (take 2 mask) 0 = nth c mask 0). apply nth_take. lia.
  - rewrite app_nth2 by lia. rewrite Hthree.
    replace (3 * S i + c - 3)%nat with (3 * i + c)%nat by lia.
    rewrite (IH (drop 3 (b0 :: mask)) (n - 1)%nat i c);
      [|rewrite length_drop; lia|lia|exact Hc].
    rewrite nth_drop. f_equal. lia.
Qed.

(** The mask a call returns, against the mask before the filter. *)
Lemma morphologicalFilter_pixel beyond frameWidth frameHeight me i :
  coherent frameWidth frameHeight me -> (i < imageArea me)%nat ->
  let before := getPixels (motionMask me) in
  let after := getPixels (motionMask (morphologicalFilter beyond me)) in
  (indicatorAt before i = 0 \/ indicatorAt before i = 255 ->
   indicatorAt after i = 0 \/ indicatorAt after i = 255) /\
  channelAt after i 1 = channelAt before i 1 /\
  channelAt after i 2 = channelAt before i 2.
Proof.
  intros Hcoh Hi. cbv zeta. unfold morphologicalFilter.
  destruct (erosionLevel me >? 0); [|auto].
  unfold getTotalSize. rewrite (coh_motionMask _ _ _ Hcoh).
  pose proof (erosion_coherent beyond _ _ _ Hcoh) as Hcoh1.
  destruct (erosion_pixel beyond _ _ me i Hcoh Hi) as (He & He1 & He2).
  destruct (dilation_pixel beyond _ _ (erosion beyond me) i Hcoh1 Hi)
    as (Hon & Hoff & Hd1 & Hd2).
  change (imageSize (erosion beyond me)) with (imageSize me) in *.
  split; [|split; congruence].
  intros Hbin.
  destruct (Z_lt_le_dec 0 (indicatorAt (getPixels (motionMask (erosion beyond me))) i))
    as [Hpos|Hnon].
  - rewrite (Hon Hpos). destruct He as [He|[_ He]]; [lia|]. rewrite He. exact Hbin.
  - exact (Hoff Hnon).
Qed.

(** * Properties of the difference test *)

(** X1. The difference test of two pixels does not depend on their
    order; with a non-negative sensitivity a pixel is never different
    from itself; and a pair that is different at some sensitivity is
    different at every lower one. *)
Theorem difference_test_is_symmetric :
  forall (thr : Z) (a b : list Z),
    pixelIsDifferent thr a b = pixelIsDifferent thr b a /\
    (0 <= thr -> pixelIsDifferent thr a a = false) /\
    (forall lower : Z, lower <= thr ->
       pixelIsDifferent thr a b = true -> pixelIsDifferent lower a b = true).
Proof.
  intros thr a b. split; [apply pixelIsDifferent_sym|]. split.
  - intros Hthr. apply pixelIsDifferent_false. intros c _.
    rewrite Z.sub_diag. simpl. exact Hthr.
  - intros lower Hle Hd. apply pixelIsDifferent_true in Hd.
    destruct Hd as (c & Hc & Hgt).
    apply pixelIsDifferent_true. exists c. split; [exact Hc|lia].
Qed.

(** * Properties of a call of generateMotionMask *)

(** X2. In every reachable state a call with a frame of the size the
    extractor was built for returns: the accumulation loop of
    [downscale] ends. The call keeps the geometry and the size of every
    buffer, leaves the three parameters and the frame rate as they are,
    and clears the first-frame flag. *)
Theorem every_call_returns :
  forall (beyond : Z -> Z) (frameWidth frameHeight : nat) (me : MotionExtractor)
         (frame : VideoFrame),
    reachable frameWidth frameHeight me ->
    length (getPixels frame) = (frameWidth * frameHeight * kBytesPerPixel)%nat ->
    exists me' : MotionExtractor,
      generateMotionMask beyond me frame = Some me' /\
      coherent frameWidth frameHeight me' /\
      firstFrame me' = false /\
      getSensitivity me' = getSensitivity me /\
      stableCap me' = stableCap me /\
      getErosion me' = getErosion me /\
      fps me' = fps me.
Proof.
  intros beyond fw fh me frame Hreach _.
  pose proof (reachable_sound _ _ _ Hreach) as Hs.
  pose proof (sound_coherent _ _ _ Hs) as Hcoh.
  destruct (downscale_returns beyond me fw fh frame Hcoh) as (accs & Hd & Hl).
  fold (downscaled me accs) in Hd.
  pose proof (downscaled_coherent _ _ _ _ Hcoh Hl) as Hcoh1.
  rewrite (generateMotionMask_eq beyond me frame accs Hd).
  destruct (firstFrame me) eqn:Hfirst.
  - exists (firstFrameBranch (downscaled me accs)).
    split; [reflexivity|]. split; [apply firstFrameBranch_coherent, Hcoh1|].
    repeat split.
  - exists (morphologicalFilter beyond (updateModel (downscaled me accs))).
    split; [reflexivity|].
    split; [apply morphologicalFilter_coherent, updateModel_coherent, Hcoh1|].
    destruct (morphologicalFilter_model beyond (updateModel (downscaled me accs)))
      as (_ & _ & _ & _ & Hff & Ht & Hc & He & Hfps).
    unfold getSensitivity, getErosion. rewrite Hff, Ht, Hc, He, Hfps.
    rewrite updateModel_eq. simpl. rewrite Hfirst. repeat split.
Qed.

(** X3. The first pass of a call after the first, at every pixel: when
    the downscaled sample differs from the tracked pixel, the tracked
    pixel becomes the sample and its timer restarts at 0; otherwise the
    timer goes up by one, modulo 2^32, and every channel of the tracked
    pixel moves one step towards the sample, or stays when it has
    reached it. *)
Theorem tracked_pixel_follows_sample :
  forall (beyond : Z -> Z) (frameWidth frameHeight : nat) (me : MotionExtractor)
         (frame : VideoFrame),
    reachable frameWidth frameHeight me ->
    firstFrame me = false ->
    exists down me' : MotionExtractor,
      downscale beyond me frame = Some down /\
      generateMotionMask beyond me frame = Some me' /\
      forall i : nat, (i < imageArea me)%nat ->
        if pixelIsDifferent (getSensitivity me)
             (pixelAt (getPixels (downscaleBuff down)) i)
             (pixelAt (getPixels (currentImage me)) i)
        then
          nth i (currentStableTimes me') 0 = 0 /\
          forall c : nat, (c < 3)%nat ->
            channelAt (getPixels (currentImage me')) i c
              = channelAt (getPixels (downscaleBuff down)) i c
        else
          nth i (currentStableTimes me') 0
            = u32 (nth i (currentStableTimes me) 0 + 1) /\
          forall c : nat, (c < 3)%nat ->
            channelAt (getPixels (currentImage me')) i c
              = channelAt (getPixels (currentImage me)) i c
                + Z.sgn (channelAt (getPixels (downscaleBuff down)) i c
                         - channelAt (getPixels (currentImage me)) i c).
Proof.
  intros beyond fw fh me frame Hreach Hfirst.
  pose proof (reachable_sound _ _ _ Hreach) as Hs.
  destruct (later_call beyond fw fh me frame Hs Hfirst)
    as (down & model & Hd & Hgen & _ & _ & _ & _ & Hpx).
  exists down, (morphologicalFilter beyond model).
  split; [exact Hd|]. split; [exact Hgen|].
  intros i Hi.
  destruct (morphologicalFilter_model beyond model) as (HT & _ & Htm & _).
  rewrite HT, Htm.
  destruct (Hpx i Hi) as (Htime & Hch & _). cbv zeta in Htime, Hch.
  unfold getSensitivity.
  destruct (pixelIsDifferent (motionThreshold me)
              (pixelAt (getPixels (downscaleBuff down)) i)
              (pixelAt (getPixels (currentImage me)) i));
    (split; [exact Htime|exact Hch]).
Qed.

(** X4. After every call, the first or a later one, no channel of the
    tracked image is further than the sensitivity from the same channel
    of the downscaled frame. *)
Theorem tracked_image_within_sensitivity :
  forall (beyond : Z -> Z) (frameWidth frameHeight : nat) (me : MotionExtractor)
         (frame : VideoFrame),
    reachable frameWidth frameHeight me ->
    exists down me' : MotionExtractor,
      downscale beyond me frame = Some down /\
      generateMotionMask beyond me frame = Some me' /\
      forall i c : nat,
        Z.abs (channelAt (getPixels (downscaleBuff down)) i c
               - channelAt (getPixels (currentImage me')) i c)
          <= getSensitivity me.
Proof.
  intros beyond fw fh me frame Hreach.
  pose proof (reachable_sound _ _ _ Hreach) as Hs.
  pose proof (sound_coherent _ _ _ Hs) as Hcoh.
  pose proof (sound_threshold _ _ _ Hs) as Hthr.
  destruct (firstFrame me) eqn:Hfirst.
  - destruct (first_call beyond fw fh me frame Hcoh Hfirst)
      as (down & me' & Hd & Hgen & _ & HT & _).
    exists down, me'. split; [exact Hd|]. split; [exact Hgen|].
    intros i c. rewrite HT, Z.sub_diag. unfold getSensitivity. simpl. lia.
  - destruct (downscale_returns beyond me fw fh frame Hcoh) as (accs & Hd & Hl).
    fold (downscaled me accs) in Hd.
    destruct (call_unfold beyond _ _ frame me accs Hcoh Hd Hl me Hcoh Hfirst)
      as (Hgen & HT & _).
    exists (downscaled me accs),
      (morphologicalFilter beyond (updateModel (downscaled me accs))).
    split; [exact Hd|]. split; [exact Hgen|].
    intros i c.
    destruct (morphologicalFilter_model beyond (updateModel (downscaled me accs)))
      as (HT' & _).
    rewrite HT', HT.
    exact (tracked_close beyond _ _ frame me accs Hcoh Hd Hl me Hs
             (i * kBytesPerPixel + c)%nat).
Qed.

(** X5. The second pass of a call after the first, at every pixel: the
    reference pixel is rewritten only when the timer the first pass
    left exceeds the pixel's stability record, and then with the
    tracked pixel; otherwise it is kept. A stability record never goes
    down in a call. *)
Theorem reference_pixel_promoted_on_new_record :
  forall (beyond : Z -> Z) (frameWidth frameHeight : nat) (me : MotionExtractor)
         (frame : VideoFrame),
    reachable frameWidth frameHeight me ->
    firstFrame me = false ->
    exists me' : MotionExtractor,
      generateMotionMask beyond me frame = Some me' /\
      forall i : nat, (i < imageArea me)%nat ->
        nth i (stableRecords me) 0 <= nth i (stableRecords me') 0 /\
        forall c : nat, (c < 3)%nat ->
          channelAt (getPixels (refImage me')) i c
            = if nth i (currentStableTimes me') 0 >? nth i (stableRecords me) 0
              then channelAt (getPixels (currentImage me')) i c
              else channelAt (getPixels (refImage me)) i c.
Proof.
  intros beyond fw fh me frame Hreach Hfirst.
  pose proof (reachable_sound _ _ _ Hreach) as Hs.
  destruct (later_call beyond fw fh me frame Hs Hfirst)
    as (down & model & Hd & Hgen & _ & _ & _ & _ & Hpx).
  exists (morphologicalFilter beyond model). split; [exact Hgen|].
  intros i Hi.
  destruct (morphologicalFilter_model beyond model) as (HT & HR & Htm & Hrc & _).
  rewrite HT, HR, Htm, Hrc.
  destruct (Hpx i Hi) as (_ & _ & Href & _ & _ & Hrec). cbv zeta in Href, Hrec.
  split; [|exact Href].
  rewrite Hrec.
  destruct (nth i (currentStableTimes model) 0 >? nth i (stableRecords me) 0) eqn:Hp;
    [|lia].
  pose proof (sound_records _ _ _ Hs) as Hcap. unfold recordsCapped in Hcap.
  destruct (Nat.lt_ge_cases i (length (stableRecords me))) as [Hin|Hout].
  - pose proof (proj1 (List.Forall_forall _ _) Hcap _ (nth_In _ 0 Hin)) as Hle.
    cbv beta in Hle. lia.
  - exfalso.
    rewrite (coh_records _ _ _ (sound_coherent _ _ _ Hs)) in Hout. lia.
Qed.

(** X6. The indicator a call after the first writes for a pixel is 255
    when the reference pixel and the tracked pixel, both as the call
    leaves them, differ by more than the sensitivity in some channel,
    and 0 otherwise. With an erosion level of 0 this is the mask the
    call returns. *)
Theorem indicator_compares_reference_and_tracked :
  forall (beyond : Z -> Z) (frameWidth frameHeight : nat) (me : MotionExtractor)
         (frame : VideoFrame),
    reachable frameWidth frameHeight me ->
    firstFrame me = false ->
    exists down me' : MotionExtractor,
      downscale beyond me frame = Some down /\
      generateMotionMask beyond me frame = Some me' /\
      me' = morphologicalFilter beyond (updateModel down) /\
      forall i : nat, (i < imageArea me)%nat ->
        indicatorAt (getPixels (motionMask (updateModel down))) i
          = (if pixelIsDifferent (getSensitivity me)
                  (pixelAt (getPixels (refImage me')) i)
                  (pixelAt (getPixels (currentImage me')) i)
             then 255 else 0) /\
        (getErosion me = 0 ->
         indicatorAt (getPixels (motionMask me')) i
           = indicatorAt (getPixels (motionMask (updateModel down))) i).
Proof.
  intros beyond fw fh me frame Hreach Hfirst.
  pose proof (reachable_sound _ _ _ Hreach) as Hs.
  destruct (later_call beyond fw fh me frame Hs Hfirst)
    as (down & model & Hd & Hgen & -> & _ & Her & _ & Hpx).
  exists down, (morphologicalFilter beyond (updateModel down)).
  split; [exact Hd|]. split; [exact Hgen|]. split; [reflexivity|].
  intros i Hi.
  destruct (morphologicalFilter_model beyond (updateModel down)) as (HT & HR & _).
  rewrite HT, HR.
  destruct (Hpx i Hi) as (_ & _ & _ & Hind & _). cbv zeta in Hind.
  split; [exact Hind|].
  unfold getErosion. intros Hzero.
  rewrite morphologicalFilter_bypass by congruence. reflexivity.
Qed.

(** X7. Whatever the erosion level and whatever lies in memory around
    the mask, the indicator a call returns for a pixel is 0 or 255, and
    the call writes no other byte of the mask: bytes 1 and 2 of every
    pixel keep what they held before the call. *)
Theorem returned_indicator_is_binary :
  forall (beyond : Z -> Z) (frameWidth frameHeight : nat) (me : MotionExtractor)
         (frame : VideoFrame),
    reachable frameWidth frameHeight me ->
    exists me' : MotionExtractor,
      generateMotionMask beyond me frame = Some me' /\
      forall i : nat, (i < imageArea me)%nat ->
        (indicatorAt (getPixels (motionMask me')) i = 0 \/
         indicatorAt (getPixels (motionMask me')) i = 255) /\
        channelAt (getPixels (motionMask me')) i 1
          = channelAt (getPixels (motionMask me)) i 1 /\
        channelAt (getPixels (motionMask me')) i 2
          = channelAt (getPixels (motionMask me)) i 2.
Proof.
  intros beyond fw fh me frame Hreach.
  pose proof (reachable_sound _ _ _ Hreach) as Hs.
  pose proof (sound_coherent _ _ _ Hs) as Hcoh.
  destruct (coherent_steps _ _ _ Hcoh) as [_ Hsz].
  destruct (firstFrame me) eqn:Hfirst.
  - destruct (downscale_returns beyond me fw fh frame Hcoh) as (accs & Hd & Hl).
    fold (downscaled me accs) in Hd.
    pose proof (downscaled_coherent _ _ _ _ Hcoh Hl) as Hcoh1.
    exists (firstFrameBranch (downscaled me accs)).
    split.
    { rewrite (generateMotionMask_eq beyond me frame accs Hd), Hfirst. reflexivity. }
    intros i Hi.
    destruct (firstFrameBranch_images _ _ _ Hcoh1) as (_ & _ & Hclear & _).
    pose proof (firstFrameBranch_coherent _ _ _ Hcoh1) as Hcoh2.
    split.
    + left. unfold indicatorAt, channelAt. rewrite Nat.add_0_r. apply Hclear.
      rewrite (coh_motionMask _ _ _ Hcoh2).
      change (imageSize (firstFrameBranch (downscaled me accs))) with (imageSize me).
      unfold kBytesPerPixel. lia.
    + assert (getPixels (motionMask (firstFrameBranch (downscaled me accs)))
              = wipeIndicator (getTotalSize (motionMask me)) 3
                  (getPixels (motionMask me))) as ->.
      { transitivity
          (wipeIndicator (getTotalSize (motionMask me))
             (getBytesPerPixel (motionMask me)) (getPixels (motionMask me)));
          [reflexivity|].
        rewrite (coh_maskBpp _ _ _ Hcoh). reflexivity. }
      unfold channelAt, kBytesPerPixel. rewrite (Nat.mul_comm i 3).
      split; apply (wipeIndicator_channel _ _ (imageArea me)); try lia;
        rewrite (coh_motionMask _ _ _ Hcoh); exact Hsz.
  - destruct (later_call beyond fw fh me frame Hs Hfirst)
      as (down & model & Hd & Hgen & _ & Hcohm & _ & _ & Hpx).
    exists (morphologicalFilter beyond model). split; [exact Hgen|].
    intros i Hi.
    assert (imageArea model = imageArea me) as Harea.
    { rewrite (coh_imageArea _ _ _ Hcohm), (coh_imageArea _ _ _ Hcoh),
        (coh_imageWidth _ _ _ Hcohm), (coh_imageWidth _ _ _ Hcoh),
        (coh_imageHeight _ _ _ Hcohm), (coh_imageHeight _ _ _ Hcoh). reflexivity. }
    destruct (morphologicalFilter_pixel beyond fw fh model i Hcohm
                ltac:(rewrite Harea; exact Hi)) as (Hbin & H1 & H2).
    destruct (Hpx i Hi) as (_ & _ & _ & Hind & Hch & _). cbv zeta in Hind.
    split; [|split].
    + apply Hbin. rewrite Hind.
      destruct (pixelIsDifferent _ _ _); [right|left]; reflexivity.
    + rewrite H1. apply Hch. lia.
    + rewrite H2. apply Hch. lia.
Qed.

(** X8. The two passes of the morphological filter on a mask of the
    extractor's size: erosion only turns pixels off, so a pixel that is
    on after it was on before, with the same indicator; dilation never
    turns a pixel off, so a pixel that is on before it keeps its
    indicator. Both passes copy bytes 1 and 2 of every pixel. *)
Theorem erosion_shrinks_and_dilation_grows :
  forall (beyond : Z -> Z) (frameWidth frameHeight : nat) (me : MotionExtractor)
         (i : nat),
    coherent frameWidth frameHeight me ->
    (i < imageArea me)%nat ->
    (0 < indicatorAt (getPixels (motionMask (erosion beyond me))) i ->
     indicatorAt (getPixels (motionMask (erosion beyond me))) i
       = indicatorAt (getPixels (motionMask me)) i) /\
    (indicatorAt (getPixels (motionMask me)) i <= 0 ->
     indicatorAt (getPixels (motionMask (erosion beyond me))) i = 0) /\
    (0 < indicatorAt (getPixels (motionMask me)) i ->
     indicatorAt (getPixels (motionMask (dilation beyond (imageSize me) me))) i
       = indicatorAt (getPixels (motionMask me)) i) /\
    (forall c : nat, (0 < c < 3)%nat ->
       channelAt (getPixels (motionMask (erosion beyond me))) i c
         = channelAt (getPixels (motionMask me)) i c /\
       channelAt (getPixels (motionMask (dilation beyond (imageSize me) me))) i c
         = channelAt (getPixels (motionMask me)) i c).
Proof.
  intros beyond fw fh me i Hcoh Hi.
  destruct (erosion_pixel beyond _ _ me i Hcoh Hi) as (He & He1 & He2).
  destruct (dilation_pixel beyond _ _ me i Hcoh Hi) as (Hon & _ & Hd1 & Hd2).
  split; [|split; [|split; [exact Hon|]]].
  - intros Hpos. destruct He as [He|[_ He]]; [lia|exact He].
  - intros Hoff. destruct He as [He|[Hpos _]]; [exact He|lia].
  - intros c Hc. destruct c as [|[|[|c]]]; try lia; split; assumption.
Qed.

(** ** The stability records are never negative *)

Lemma reset_records_nonnegative me :
  Forall (fun r => 0 <= r) (stableRecords me) ->
  Forall (fun r => 0 <= r) (stableRecords (reset me)).
Proof.
  intros Hr. cbn [reset stableRecords set_stableRecords set_firstFrame
                    set_currentStableTimes imageArea].
  apply Forall_app. split.
  - apply Forall_zeros. lia.
  - apply Forall_drop, Hr.
Qed.

Lemma promotePass_records_nonnegative thr cap n :
  forall cip rip bmp currentTime record,
    0 <= cap ->
    Forall (fun t => 0 <= t) currentTime ->
    Forall (fun r => 0 <= r) record ->
    Forall (fun r => 0 <= r)
      (snd (promotePass thr cap n cip rip bmp currentTime record)).
Proof.
  induction n as [|n IH]; intros cip rip bmp ct record Hcap Ht Hr; [exact Hr|].
  rewrite promotePass_S. cbv zeta. cbn [snd].
  constructor.
  - unfold promotedRecord. destruct (promoted ct record).
    + destruct ct as [|t ct]; simpl; [lia|]. inversion Ht; subst. lia.
    + destruct record as [|r record]; simpl; [lia|]. inversion Hr; assumption.
  - apply IH; [exact Hcap| |].
    + destruct ct; [constructor|]. simpl. inversion Ht; assumption.
    + destruct record; [constructor|]. simpl. inversion Hr; assumption.
Qed.

Lemma reachable_records_nonnegative frameWidth frameHeight me :
  reachable frameWidth frameHeight me ->
  Forall (fun r => 0 <= r) (stableRecords me).
Proof.
  induction 1 as [fresh videoFPS | beyond me me' frame Hreach IH Hgen | me _ IH
                  | me v _ IH | me t _ IH | me e _ IH | me p _ IH].
  - apply reset_records_nonnegative. simpl.
    unfold uninitialised. apply List.Forall_forall. intros z Hz.
    apply in_map_iff in Hz. destruct Hz as (i & <- & _). apply u32_range.
  - pose proof (reachable_sound _ _ _ Hreach) as Hs.
    pose proof (sound_coherent _ _ _ Hs) as Hcoh.
    destruct (downscale_returns beyond me frameWidth frameHeight frame Hcoh)
      as (accs & Hd & Hl).
    fold (downscaled me accs) in Hd.
    pose proof (downscaled_coherent _ _ _ _ Hcoh Hl) as Hcoh1.
    rewrite (generateMotionMask_eq beyond me frame accs Hd) in Hgen.
    injection Hgen as <-.
    destruct (firstFrame me).
    + destruct (firstFrameBranch_images _ _ _ Hcoh1) as (_ & _ & _ & _ & _ & ->).
      exact IH.
    + destruct (morphologicalFilter_model beyond (updateModel (downscaled me accs)))
        as (_ & _ & _ & -> & _).
      rewrite updateModel_eq. simpl.
      apply promotePass_records_nonnegative.
      * change (0 <= stableCap me). apply (sound_cap _ _ _ Hs).
      * destruct (trackPass_sound (motionThreshold me)
                    (pixelSteps (imageSize me))
                    (getPixels (downscaleBuff (downscaled me accs)))
                    (getPixels (currentImage me)) (currentStableTimes me)
                    (downscaled_bytes _ _ _ _ Hcoh Hl) (sound_tracked _ _ _ Hs)
                    (sound_times _ _ _ Hs)) as [_ Ht].
        eapply Forall_impl; [exact Ht|]. intros t Hrange. cbv beta in Hrange. lia.
      * exact IH.
  - apply reset_records_nonnegative, IH.
  - destruct (setSensitivity_cases v me) as [->|[_ ->]]; [exact IH|].
    apply reset_records_nonnegative, IH.
  - destruct (setSettleTime_cases t me) as [->| ->]; [exact IH|].
    apply reset_records_nonnegative, IH.
  - destruct (setErosion_cases e me) as [->|[_ ->]]; [exact IH|].
    apply reset_records_nonnegative, IH.
  - destruct (load_cases p me) as [[exn ->]|(si & td & ei & _ & _ & ->)]; [exact IH|].
    cbn [fst].
    apply reset_records_nonnegative.
    change (Forall (fun r => 0 <= r)
              (stableRecords
                 (reset (set_stableCap (reset (set_motionThreshold me si))
                           (double2uint (ceil (td * fps me)%float)))))).
    apply reset_records_nonnegative.
    change (Forall (fun r => 0 <= r)
              (stableRecords (reset (set_motionThreshold me si)))).
    apply reset_records_nonnegative, IH.
Qed.

(** X9. Once the reference image equals the tracked image, a call marks
    exactly the pixels whose downscaled sample differs from the
    reference pixel by more than the sensitivity in some channel: the
    indicator written for a pixel, before the morphological filter, is
    255 for those and 0 for all others. *)
Theorem settled_background_marks_changed_pixels :
  forall (beyond : Z -> Z) (frameWidth frameHeight : nat) (me : MotionExtractor)
         (frame : VideoFrame),
    reachable frameWidth frameHeight me ->
    firstFrame me = false ->
    getPixels (refImage me) = getPixels (currentImage me) ->
    exists down me' : MotionExtractor,
      downscale beyond me frame = Some down /\
      generateMotionMask beyond me frame = Some me' /\
      me' = morphologicalFilter beyond (updateModel down) /\
      forall i : nat, (i < imageArea me)%nat ->
        indicatorAt (getPixels (motionMask (updateModel down))) i
          = if pixelIsDifferent (getSensitivity me)
                 (pixelAt (getPixels (downscaleBuff down)) i)
                 (pixelAt (getPixels (refImage me)) i)
            then 255 else 0.
Proof.
  intros beyond fw fh me frame Hreach Hfirst Hsettled.
  pose proof (reachable_sound _ _ _ Hreach) as Hs.
  pose proof (reachable_records_nonnegative _ _ _ Hreach) as Hnon.
  pose proof (sound_threshold _ _ _ Hs) as Hthr.
  destruct (later_call beyond fw fh me frame Hs Hfirst)
    as (down & model & Hd & Hgen & -> & _ & _ & _ & Hpx).
  exists down, (morphologicalFilter beyond (updateModel down)).
  split; [exact Hd|]. split; [exact Hgen|]. split; [reflexivity|].
  intros i Hi.
  destruct (Hpx i Hi) as (Htime & Hch & Href & Hind & _ & _).
  cbv zeta in Htime, Hch, Href, Hind.
  rewrite Hind. unfold getSensitivity. rewrite Hsettled. rewrite Hsettled in Href.
  set (thr := motionThreshold me) in *.
  set (D := getPixels (downscaleBuff down)) in *.
  set (T := getPixels (currentImage me)) in *.
  set (T' := getPixels (currentImage (updateModel down))) in *.
  set (R' := getPixels (refImage (updateModel down))) in *.
  assert (0 <= nth i (stableRecords me) 0) as Hrec.
  { destruct (Nat.lt_ge_cases i (length (stableRecords me))) as [Hin|Hout].
    - pose proof (proj1 (List.Forall_forall _ _) Hnon _ (nth_In _ 0 Hin)) as Hle.
      exact Hle.
    - rewrite nth_overflow by exact Hout. lia. }
  assert (pixelIsDifferent thr (pixelAt R' i) (pixelAt T' i)
          = pixelIsDifferent thr (pixelAt D i) (pixelAt T i)) as ->; [|reflexivity].
  destruct (pixelIsDifferent thr (pixelAt D i) (pixelAt T i)) eqn:Hdiff.
  - (* the sample replaces the tracked pixel; the timer restarts *)
    rewrite Htime in Href.
    replace (0 >? nth i (stableRecords me) 0) with false in Href by lia.
    rewrite pixelIsDifferent_sym, <- Hdiff.
    apply pixelIsDifferent_ext; intros c Hc; rewrite !channelAt_pixelAt.
    + apply Hch, Hc.
    + apply Href, Hc.
  - apply pixelIsDifferent_false. intros c Hc.
    rewrite !channelAt_pixelAt, (Href c Hc), (Hch c Hc).
    destruct (nth i (currentStableTimes (updateModel down)) 0
              >? nth i (stableRecords me) 0).
    + lia.
    + lia.
Qed.

(** * Properties of downscale *)

Lemma downscale_pixels_of_frame beyond1 beyond2 frameWidth frameHeight me1 me2 frame :
  coherent frameWidth frameHeight me1 -> coherent frameWidth frameHeight me2 ->
  length (getPixels frame) = (frameWidth * frameHeight * kBytesPerPixel)%nat ->
  Forall is_byte (getPixels frame) ->
  exists down1 down2 : MotionExtractor,
    downscale beyond1 me1 frame = Some down1 /\
    downscale beyond2 me2 frame = Some down2 /\
    getPixels (downscaleBuff down1) = getPixels (downscaleBuff down2).
Proof.
  intros H1 H2 Hlen Hbytes.
  destruct (downscale_samples beyond1 me1 _ _ frame H1 Hlen Hbytes)
    as (d1 & Hd1 & Hc1 & Hs1).
  destruct (downscale_samples beyond2 me2 _ _ frame H2 Hlen Hbytes)
    as (d2 & Hd2 & Hc2 & Hs2).
  exists d1, d2. split; [exact Hd1|]. split; [exact Hd2|].
  assert (forall me, coherent frameWidth frameHeight me ->
            imageWidth me = (frameWidth / 2)%nat /\
            imageHeight me = (frameHeight / 2)%nat /\
            length (getPixels (downscaleBuff me))
              = (3 * (frameWidth / 2 * (frameHeight / 2)))%nat) as Hgeo.
  { intros me Hc. pose proof (coh_imageWidth _ _ _ Hc) as Hw.
    pose proof (coh_imageHeight _ _ _ Hc) as Hh. unfold kDownscaleRatio in *.
    split; [exact Hw|]. split; [exact Hh|].
    rewrite (coh_downscaleBuff _ _ _ Hc), (coh_imageSize _ _ _ Hc),
      (coh_imageArea _ _ _ Hc), Hw, Hh. unfold kBytesPerPixel. lia. }
  destruct (Hgeo me1 H1) as (Hw1 & Hh1 & _).
  destruct (Hgeo me2 H2) as (Hw2 & Hh2 & _).
  destruct (Hgeo d1 Hc1) as (_ & _ & Hl1).
  destruct (Hgeo d2 Hc2) as (_ & _ & Hl2).
  apply (pixel_buffer_ext (frameWidth / 2) (frameHeight / 2)); try assumption.
  intros x y c Hx Hy Hc.
  rewrite <- Hw1 at 1. rewrite <- Hw2.
  rewrite Hs1, Hs2 by lia. reflexivity.
Qed.

(** X10. The pixels [downscale] produces are a function of the frame
    alone: for two reachable extractors of the same geometry, whatever
    their buffers and accumulators hold from earlier calls, and whatever
    lies in memory outside the frame, a frame of the right size gives
    the same downscaled pixels. The call changes nothing of the
    extractor but the downscaling buffer and the accumulators. *)
Theorem downscale_depends_on_frame_only :
  forall (beyond1 beyond2 : Z -> Z) (frameWidth frameHeight : nat)
         (me1 me2 : MotionExtractor) (frame : VideoFrame),
    reachable frameWidth frameHeight me1 ->
    reachable frameWidth frameHeight me2 ->
    length (getPixels frame) = (frameWidth * frameHeight * kBytesPerPixel)%nat ->
    Forall is_byte (getPixels frame) ->
    exists down1 down2 : MotionExtractor,
      downscale beyond1 me1 frame = Some down1 /\
      downscale beyond2 me2 frame = Some down2 /\
      getPixels (downscaleBuff down1) = getPixels (downscaleBuff down2) /\
      down1 = set_downscaleBuff
                (set_downscaleAccumulators me1 (downscaleAccumulators down1))
                (downscaleBuff down1).
Proof.
  intros beyond1 beyond2 fw fh me1 me2 frame Hr1 Hr2 Hlen Hbytes.
  pose proof (sound_coherent _ _ _ (reachable_sound _ _ _ Hr1)) as H1.
  pose proof (sound_coherent _ _ _ (reachable_sound _ _ _ Hr2)) as H2.
  destruct (downscale_pixels_of_frame beyond1 beyond2 fw fh me1 me2 frame
              H1 H2 Hlen Hbytes) as (d1 & d2 & Hd1 & Hd2 & Heq).
  exists d1, d2. split; [exact Hd1|]. split; [exact Hd2|]. split; [exact Heq|].
  destruct (downscale_returns beyond1 me1 fw fh frame H1) as (accs & Hd & _).
  rewrite Hd in Hd1. injection Hd1 as <-. reflexivity.
Qed.

(** X11. Every channel of a downscaled pixel lies between the smallest
    and the largest of the four source samples of its 2x2 block. *)
Theorem downscaled_sample_within_block :
  forall (beyond : Z -> Z) (frameWidth frameHeight : nat) (me : MotionExtractor)
         (frame : VideoFrame),
    reachable frameWidth frameHeight me ->
    length (getPixels frame) = (frameWidth * frameHeight * kBytesPerPixel)%nat ->
    Forall is_byte (getPixels frame) ->
    exists down : MotionExtractor,
      downscale beyond me frame = Some down /\
      forall x y c : nat,
        (x < frameWidth / 2)%nat -> (y < frameHeight / 2)%nat -> (c < 3)%nat ->
        let s00 := sample frameWidth (getPixels frame) (2 * x) (2 * y) c in
        let s10 := sample frameWidth (getPixels frame) (2 * x + 1) (2 * y) c in
        let s01 := sample frameWidth (getPixels frame) (2 * x) (2 * y + 1) c in
        let s11 := sample frameWidth (getPixels frame) (2 * x + 1) (2 * y + 1) c in
        Z.min (Z.min s00 s10) (Z.min s01 s11)
          <= sample (frameWidth / 2) (getPixels (downscaleBuff down)) x y c
          <= Z.max (Z.max s00 s10) (Z.max s01 s11).
Proof.
  intros beyond fw fh me frame Hreach Hlen Hbytes.
  pose proof (sound_coherent _ _ _ (reachable_sound _ _ _ Hreach)) as Hcoh.
  destruct (downscale_samples beyond me _ _ frame Hcoh Hlen Hbytes)
    as (down & Hd & _ & Hs).
  exists down. split; [exact Hd|].
  intros x y c Hx Hy Hc. cbv zeta.
  pose proof (coh_imageWidth _ _ _ Hcoh) as Hw.
  pose proof (coh_imageHeight _ _ _ Hcoh) as Hh. unfold kDownscaleRatio in *.
  rewrite <- Hw. rewrite Hs by lia. unfold blockAverage.
  set (s00 := sample fw (getPixels frame) (2 * x) (2 * y) c).
  set (s10 := sample fw (getPixels frame) (2 * x + 1) (2 * y) c).
  set (s01 := sample fw (getPixels frame) (2 * x) (2 * y + 1) c).
  set (s11 := sample fw (getPixels frame) (2 * x + 1) (2 * y + 1) c).
  split.
  - apply Z.div_le_lower_bound; lia.
  - apply Z.div_le_upper_bound; lia.
Qed.

(** * Properties of save and load *)

Lemma member_save_any me p :
  member (save me p) "sensitivity" = intValue (getSensitivity me) /\
  member (save me p) "settle time" = realValue (getSettleTime me) /\
  member (save me p) "erosion level" = intValue (getErosion me).
Proof.
  unfold save, member. split; [|split].
  - rewrite !lookup_insert_ne by done. rewrite lookup_insert_eq. reflexivity.
  - rewrite lookup_insert_ne by done. rewrite lookup_insert_eq. reflexivity.
  - rewrite lookup_insert_eq. reflexivity.
Qed.

(** X12. [save] writes its three members into the object and leaves
    every other member as it is. When the settle time the extractor
    reports lies in the accepted range, [load] of the saved object into
    any extractor returns without an exception, restores the sensitivity
    and the erosion level exactly, and computes the stable cap from the
    saved settle time and the frame rate of the loading extractor. *)
Theorem saved_settings_load_back :
  forall (frameWidth frameHeight : nat) (me other : MotionExtractor)
         (p : gmap string JsonValue),
    reachable frameWidth frameHeight me ->
    (getSettleTime me <? 1)%float = false ->
    (60 <? getSettleTime me)%float = false ->
    (forall key : string,
       key <> "sensitivity"%string -> key <> "settle time"%string ->
       key <> "erosion level"%string -> save me p !! key = p !! key) /\
    snd (load (save me p) other) = inr tt /\
    getSensitivity (fst (load (save me p) other)) = getSensitivity me /\
    getErosion (fst (load (save me p) other)) = getErosion me /\
    stableCap (fst (load (save me p) other))
      = double2uint (ceil (getSettleTime me * fps other)%float) /\
    firstFrame (fst (load (save me p) other)) = true.
Proof.
  intros fw fh me other p Hreach Ht1 Ht2.
  pose proof (reachable_sound _ _ _ Hreach) as Hs.
  pose proof (sound_threshold _ _ _ Hs) as Hthr.
  pose proof (sound_erosion _ _ _ Hs) as Her.
  split.
  { intros key H1 H2 H3. unfold save.
    rewrite !lookup_insert_ne by congruence. reflexivity. }
  destruct (member_save_any me p) as (Ms & Mt & Me).
  rewrite (load_converted (save me p) other (getSensitivity me) (getSettleTime me)
             (getErosion me)).
  - replace (invalidSettings (getSensitivity me) (getSettleTime me) (getErosion me))
      with false.
    + cbn [fst snd]. split; [reflexivity|]. split; [reflexivity|].
      split; [reflexivity|]. split; reflexivity.
    + symmetry. unfold invalidSettings. rewrite Ht1, Ht2.
      unfold getSensitivity, getErosion.
      rewrite !orb_false_iff. repeat split; try reflexivity;
        first [apply Z.ltb_ge; lia | rewrite Z.gtb_ltb; apply Z.ltb_ge; lia].
  - unfold missingSettings. rewrite Ms, Mt, Me. reflexivity.
  - rewrite Ms. reflexivity.
  - rewrite Mt. reflexivity.
  - rewrite Me. reflexivity.
Qed.

(** X13. [load] never lets an out-of-range exception of a setter
    escape: it validates the three values before it calls the setters,
    so each setter returns. When [load] returns, its result is the one
    of [setSensitivity], [setSettleTime] and [setErosion] called in that
    order, each returning normally; and [load] reads no member of the
    object but its three own. *)
Theorem load_runs_the_three_setters :
  forall (p : gmap string JsonValue) (me : MotionExtractor),
    (forall what function : string,
       snd (load p me) <> inl (ArgumentOutOfRangeException what function)) /\
    (snd (load p me) = inr tt ->
     exists (si : Z) (td : float) (ei : Z) (me1 me2 : MotionExtractor),
       asInt (member p "sensitivity") = Some si /\
       asDouble (member p "settle time") = Some td /\
       asInt (member p "erosion level") = Some ei /\
       setSensitivity si me = (me1, inr tt) /\
       setSettleTime td me1 = (me2, inr tt) /\
       setErosion ei me2 = (fst (load p me), inr tt)) /\
    (forall q : gmap string JsonValue,
       q !! "sensitivity" = p !! "sensitivity" ->
       q !! "settle time" = p !! "settle time" ->
       q !! "erosion level" = p !! "erosion level" ->
       load q me = load p me).
Proof.
  intros p me. split; [|split].
  - intros what function.
    destruct (missingSettings p) eqn:Hm.
    { rewrite (load_missing p me Hm). discriminate. }
    destruct (asInt (member p "sensitivity")) as [si|] eqn:Hs;
      [|rewrite (load_refused p me Hm) by auto; discriminate].
    destruct (asDouble (member p "settle time")) as [td|] eqn:Ht;
      [|rewrite (load_refused p me Hm) by auto; discriminate].
    destruct (asInt (member p "erosion level")) as [ei|] eqn:He;
      [|rewrite (load_refused p me Hm) by auto; discriminate].
    rewrite (load_converted p me si td ei Hm Hs Ht He).
    destruct (invalidSettings si td ei); discriminate.
  - intros Hok.
    destruct (missingSettings p) eqn:Hm.
    { rewrite (load_missing p me Hm) in Hok. discriminate. }
    destruct (asInt (member p "sensitivity")) as [si|] eqn:Hs;
      [|rewrite (load_refused p me Hm) in Hok by auto; discriminate].
    destruct (asDouble (member p "settle time")) as [td|] eqn:Ht;
      [|rewrite (load_refused p me Hm) in Hok by auto; discriminate].
    destruct (asInt (member p "erosion level")) as [ei|] eqn:He;
      [|rewrite (load_refused p me Hm) in Hok by auto; discriminate].
    rewrite (load_converted p me si td ei Hm Hs Ht He) in Hok |- *.
    destruct (invalidSettings si td ei) eqn:Hinv; [discriminate|].
    destruct (invalidSettings_false si td ei Hinv) as (Hvs & Hvt & Hve).
    exists si, td, ei.
    exists (reset (set_motionThreshold me si)).
    exists (reset (set_stableCap (reset (set_motionThreshold me si))
                     (double2uint (ceil (td * fps me)%float)))).
    split; [reflexivity|]. split; [reflexivity|]. split; [reflexivity|].
    split; [apply setSensitivity_returns, Hvs|].
    split; [apply (setSettleTime_returns td (reset (set_motionThreshold me si))), Hvt|].
    cbn [fst]. apply setErosion_returns, Hve.
  - intros q Hqs Hqt Hqe. unfold load, missingSettings, member.
    rewrite Hqs, Hqt, Hqe. reflexivity.
Qed.

(** * Properties of reset and of construction *)

Lemma first_call_after_reset beyond frameWidth frameHeight me frame :
  coherent frameWidth frameHeight me ->
  exists accs : list Z,
    downscale beyond (reset me) frame = Some (downscaled (reset me) accs) /\
    length accs = imageSize me /\
    generateMotionMask beyond (reset me) frame
      = Some (firstFrameBranch (downscaled (reset me) accs)) /\
    getPixels (currentImage (firstFrameBranch (downscaled (reset me) accs)))
      = getPixels (downscaleBuff (downscaled (reset me) accs)) /\
    getPixels (refImage (firstFrameBranch (downscaled (reset me) accs)))
      = getPixels (downscaleBuff (downscaled (reset me) accs)) /\
    currentStableTimes (firstFrameBranch (downscaled (reset me) accs))
      = replicate (imageArea me) 0 /\
    stableRecords (firstFrameBranch (downscaled (reset me) accs))
      = replicate (imageArea me) 0 /\
    indicatorClear
      (getPixels (motionMask (firstFrameBranch (downscaled (reset me) accs)))).
Proof.
  intros Hcoh. pose proof (reset_coherent _ _ _ Hcoh) as Hcohr.
  destruct (downscale_returns beyond (reset me) frameWidth frameHeight frame Hcohr)
    as (accs & Hd & Hl).
  fold (downscaled (reset me) accs) in Hd.
  pose proof (downscaled_coherent _ _ _ _ Hcohr Hl) as Hcoh1.
  destruct (firstFrameBranch_images _ _ _ Hcoh1) as (HT & HR & Hclear & _ & Htm & Hrc).
  exists accs. split; [exact Hd|]. split; [exact Hl|]. split.
  { rewrite (generateMotionMask_eq beyond (reset me) frame accs Hd). reflexivity. }
  split; [exact HT|]. split; [exact HR|]. split; [|split; [|exact Hclear]].
  - rewrite Htm. change (currentStableTimes (downscaled (reset me) accs))
      with (map (fun _ : Z => 0) (currentStableTimes me)).
    rewrite map_zero_replicate, (coh_times _ _ _ Hcoh). reflexivity.
  - rewrite Hrc. change (stableRecords (downscaled (reset me) accs))
      with (stableRecords (reset me)).
    apply reset_records_zero, (coh_records _ _ _ Hcoh).
Qed.

(** X14. [reset] forgets what the extractor has learnt: after [reset],
    the next call with a frame of the right size leaves the tracked
    image, the reference image, the timers, the stability records and
    the indicators the same in any two reachable extractors of that
    geometry, whatever calls each has gone through before. The images
    are the downscaled frame, timers and records stand at 0 and no
    indicator is on. *)
Theorem reset_forgets_history :
  forall (beyond1 beyond2 : Z -> Z) (frameWidth frameHeight : nat)
         (me1 me2 : MotionExtractor) (frame : VideoFrame),
    reachable frameWidth frameHeight me1 ->
    reachable frameWidth frameHeight me2 ->
    length (getPixels frame) = (frameWidth * frameHeight * kBytesPerPixel)%nat ->
    Forall is_byte (getPixels frame) ->
    exists after1 after2 : MotionExtractor,
      generateMotionMask beyond1 (reset me1) frame = Some after1 /\
      generateMotionMask beyond2 (reset me2) frame = Some after2 /\
      getPixels (currentImage after1) = getPixels (currentImage after2) /\
      getPixels (refImage after1) = getPixels (currentImage after1) /\
      getPixels (refImage after2) = getPixels (currentImage after2) /\
      currentStableTimes after1 = replicate (imageArea me1) 0 /\
      currentStableTimes after2 = currentStableTimes after1 /\
      stableRecords after1 = replicate (imageArea me1) 0 /\
      stableRecords after2 = stableRecords after1 /\
      indicatorClear (getPixels (motionMask after1)) /\
      indicatorClear (getPixels (motionMask after2)).
Proof.
  intros beyond1 beyond2 fw fh me1 me2 frame Hr1 Hr2 Hlen Hbytes.
  pose proof (sound_coherent _ _ _ (reachable_sound _ _ _ Hr1)) as H1.
  pose proof (sound_coherent _ _ _ (reachable_sound _ _ _ Hr2)) as H2.
  destruct (first_call_after_reset beyond1 fw fh me1 frame H1)
    as (accs1 & Hd1 & _ & Hg1 & HT1 & HR1 & Htm1 & Hrc1 & Hcl1).
  destruct (first_call_after_reset beyond2 fw fh me2 frame H2)
    as (accs2 & Hd2 & _ & Hg2 & HT2 & HR2 & Htm2 & Hrc2 & Hcl2).
  destruct (downscale_pixels_of_frame beyond1 beyond2 fw fh (reset me1) (reset me2)
              frame (reset_coherent _ _ _ H1) (reset_coherent _ _ _ H2) Hlen Hbytes)
    as (d1 & d2 & Hd1' & Hd2' & Heq).
  rewrite Hd1 in Hd1'. injection Hd1' as <-.
  rewrite Hd2 in Hd2'. injection Hd2' as <-.
  assert (imageArea me2 = imageArea me1) as Harea.
  { rewrite (coh_imageArea _ _ _ H1), (coh_imageArea _ _ _ H2),
      (coh_imageWidth _ _ _ H1), (coh_imageWidth _ _ _ H2),
      (coh_imageHeight _ _ _ H1), (coh_imageHeight _ _ _ H2). reflexivity. }
  eexists. eexists. split; [exact Hg1|]. split; [exact Hg2|].
  split; [rewrite HT1, HT2; exact Heq|].
  split; [rewrite HR1, HT1; reflexivity|].
  split; [rewrite HR2, HT2; reflexivity|].
  split; [exact Htm1|]. split; [rewrite Htm1, Htm2, Harea; reflexivity|].
  split; [exact Hrc1|]. split; [rewrite Hrc1, Hrc2, Harea; reflexivity|].
  split; assumption.
Qed.

(** X15. What the constructor leaves for a source of [frameWidth] x
    [frameHeight] pixels: images of half the width and half the height,
    rounded down; five pixel buffers of three bytes per pixel of that
    size; one timer and one stability record per pixel, all 0, although
    the records are allocated without an initial value; cleared
    accumulators; the first-frame flag set; and the table of the eight
    neighbour offsets for that width. *)
Theorem construction_geometry :
  forall (fresh : nat -> nat -> Z) (frameWidth frameHeight : nat) (videoFPS : float),
    let me := MotionExtractor_new fresh frameWidth frameHeight videoFPS in
    let area := (frameWidth / 2 * (frameHeight / 2))%nat in
    imageWidth me = (frameWidth / 2)%nat /\
    imageHeight me = (frameHeight / 2)%nat /\
    imageArea me = area /\
    Forall (fun f => length (getPixels f) = (3 * area)%nat /\
                     getWidth f = (frameWidth / 2)%nat /\
                     getHeight f = (frameHeight / 2)%nat /\
                     getBytesPerPixel f = 3%nat)
      [currentImage me; refImage me; motionMask me; erodedMask me; downscaleBuff me] /\
    currentStableTimes me = replicate area 0 /\
    stableRecords me = replicate area 0 /\
    downscaleAccumulators me = replicate (3 * area) 0 /\
    firstFrame me = true /\
    offs me = pixelOffsets 3 (frameWidth / 2) /\
    fps me = videoFPS.
Proof.
  intros fresh fw fh videoFPS. cbv zeta.
  pose proof (allocate_coherent fresh fw fh videoFPS) as Hcoh.
  unfold MotionExtractor_new.
  split; [reflexivity|]. split; [reflexivity|]. split; [reflexivity|].
  split.
  { repeat constructor; cbn [reset allocate getPixels newVideoFrame currentImage
      refImage motionMask erodedMask downscaleBuff set_firstFrame set_stableRecords
      set_currentStableTimes]; rewrite length_uninitialised;
      unfold kDownscaleRatio, kBytesPerPixel; lia. }
  split.
  { change (currentStableTimes (reset (allocate fresh fw fh videoFPS)))
      with (map (fun _ : Z => 0) (replicate (fw / 2 * (fh / 2)) 0)).
    rewrite map_zero_replicate, length_replicate. reflexivity. }
  split.
  { rewrite (reset_records_zero _ (coh_records _ _ _ Hcoh)). reflexivity. }
  split.
  { change (downscaleAccumulators (reset (allocate fresh fw fh videoFPS)))
      with (replicate (fw / 2 * (fh / 2) * 3) 0).
    f_equal. lia. }
  repeat split.
Qed.

(** X16. The table of neighbour offsets lists the eight neighbours in
    the order left, right, the three of the row above, the three of the
    row below; and for the five entries of the same row and of the row
    above, the byte offset is the one of that neighbour in a mask of
    [width] pixels per row, [bpp] bytes each. *)
Theorem offsets_of_row_and_row_above_are_exact :
  forall (bpp width : nat),
    map (fun it => (offX it, offY it)) (pixelOffsets bpp width)
      = eightNeighbours 0 0 /\
    Forall (fun it =>
              offY it <= 0 ->
              offP it = (offY it * Z.of_nat width + offX it) * Z.of_nat bpp)
      (pixelOffsets bpp width).
Proof.
  intros bpp width. split; [reflexivity|].
  unfold pixelOffsets. cbv zeta.
  repeat constructor; cbn [offP offX offY]; lia.
Qed.

(** * The mask is an output only *)

Lemma promotePass_mask_irrelevant thr cap n :
  forall cip rip bmp bmp' currentTime record,
    fst (fst (promotePass thr cap n cip rip bmp currentTime record))
      = fst (fst (promotePass thr cap n cip rip bmp' currentTime record)) /\
    snd (promotePass thr cap n cip rip bmp currentTime record)
      = snd (promotePass thr cap n cip rip bmp' currentTime record).
Proof.
  induction n as [|n IH]; intros cip rip bmp bmp' ct record; [split; reflexivity|].
  rewrite !promotePass_S. cbv zeta. cbn [fst snd].
  destruct (IH (drop kBytesPerPixel cip)
              (drop kBytesPerPixel (promotedRef cip rip ct record))
              (drop kBytesPerPixel (markedMask thr cip rip bmp ct record))
              (drop kBytesPerPixel (markedMask thr cip rip bmp' ct record))
              (tail ct) (tail record)) as [IH1 IH2].
  split; f_equal; assumption.
Qed.

(** X17. The background model never depends on the mask, on the erosion
    level or on memory outside the buffers: when two reachable
    extractors of the same geometry hold the same model, a call with the
    same frame leaves them with the same model, whatever their masks and
    erosion levels are and whatever the morphological filter reads
    outside the mask. *)
Theorem model_is_independent_of_the_filter :
  forall (beyond1 beyond2 : Z -> Z) (frameWidth frameHeight : nat)
         (me1 me2 : MotionExtractor) (frame : VideoFrame),
    reachable frameWidth frameHeight me1 ->
    reachable frameWidth frameHeight me2 ->
    length (getPixels frame) = (frameWidth * frameHeight * kBytesPerPixel)%nat ->
    Forall is_byte (getPixels frame) ->
    sameModel me1 me2 ->
    exists after1 after2 : MotionExtractor,
      generateMotionMask beyond1 me1 frame = Some after1 /\
      generateMotionMask beyond2 me2 frame = Some after2 /\
      sameModel after1 after2.
Proof.
  intros beyond1 beyond2 fw fh me1 me2 frame Hr1 Hr2 Hlen Hbytes
    (HT & HR & Htm & Hrc & Hff & Hthr & Hcap).
  pose proof (sound_coherent _ _ _ (reachable_sound _ _ _ Hr1)) as H1.
  pose proof (sound_coherent _ _ _ (reachable_sound _ _ _ Hr2)) as H2.
  destruct (downscale_returns beyond1 me1 fw fh frame H1) as (accs1 & Hd1 & Hl1).
  destruct (downscale_returns beyond2 me2 fw fh frame H2) as (accs2 & Hd2 & Hl2).
  fold (downscaled me1 accs1) in Hd1. fold (downscaled me2 accs2) in Hd2.
  destruct (downscale_pixels_of_frame beyond1 beyond2 fw fh me1 me2 frame
              H1 H2 Hlen Hbytes) as (d1 & d2 & Hd1' & Hd2' & HD).
  rewrite Hd1 in Hd1'. injection Hd1' as <-.
  rewrite Hd2 in Hd2'. injection Hd2' as <-.
  pose proof (downscaled_coherent _ _ _ _ H1 Hl1) as Hc1.
  pose proof (downscaled_coherent _ _ _ _ H2 Hl2) as Hc2.
  assert (imageArea me2 = imageArea me1) as Harea.
  { rewrite (coh_imageArea _ _ _ H1), (coh_imageArea _ _ _ H2),
      (coh_imageWidth _ _ _ H1), (coh_imageWidth _ _ _ H2),
      (coh_imageHeight _ _ _ H1), (coh_imageHeight _ _ _ H2). reflexivity. }
  rewrite (generateMotionMask_eq beyond1 me1 frame accs1 Hd1).
  rewrite (generateMotionMask_eq beyond2 me2 frame accs2 Hd2).
  rewrite <- Hff.
  destruct (firstFrame me1) eqn:Hfirst.
  - eexists. eexists. split; [reflexivity|]. split; [reflexivity|].
    destruct (firstFrameBranch_images _ _ _ Hc1) as (HT1 & HR1 & _ & Hf1 & Htm1 & Hrc1).
    destruct (firstFrameBranch_images _ _ _ Hc2) as (HT2 & HR2 & _ & Hf2 & Htm2 & Hrc2).
    unfold sameModel.
    rewrite HT1, HT2, HR1, HR2, Htm1, Htm2, Hrc1, Hrc2, Hf1, Hf2.
    split; [exact HD|]. split; [exact HD|]. split; [exact Htm|]. split; [exact Hrc|].
    split; [reflexivity|]. split; [exact Hthr|exact Hcap].
  - eexists. eexists. split; [reflexivity|]. split; [reflexivity|].
    destruct (call_unfold beyond1 _ _ frame me1 accs1 H1 Hd1 Hl1 me1 H1 Hfirst)
      as (_ & HT1 & Htm1 & HR1 & _ & Hrc1 & Hf1 & Ht1 & Hcap1 & _).
    destruct (call_unfold beyond2 _ _ frame me2 accs2 H2 Hd2 Hl2 me2 H2
                ltac:(symmetry; exact Hff))
      as (_ & HT2 & Htm2 & HR2 & _ & Hrc2 & Hf2 & Ht2 & Hcap2 & _).
    unfold sameModel.
    destruct (morphologicalFilter_model beyond1 (updateModel (downscaled me1 accs1)))
      as (-> & -> & -> & -> & -> & -> & -> & _).
    destruct (morphologicalFilter_model beyond2 (updateModel (downscaled me2 accs2)))
      as (-> & -> & -> & -> & -> & -> & -> & _).
    assert (tracked me2 accs2 me2 = tracked me1 accs1 me1) as Htr.
    { unfold tracked, downscaledFrame. rewrite <- HD, <- HT, <- Htm, <- Hthr, Harea.
      reflexivity. }
    destruct (promotePass_mask_irrelevant (motionThreshold me1) (stableCap me1)
                (imageArea me1) (fst (tracked me1 accs1 me1)) (getPixels (refImage me1))
                (getPixels (motionMask me1)) (getPixels (motionMask me2))
                (snd (tracked me1 accs1 me1)) (stableRecords me1)) as [Hp1 Hp2].
    assert (fst (fst (promotion me2 accs2 me2)) = fst (fst (promotion me1 accs1 me1))
            /\ snd (promotion me2 accs2 me2) = snd (promotion me1 accs1 me1)) as [Hq1 Hq2].
    { unfold promotion. rewrite Htr, <- HR, <- Hrc, <- Hthr, <- Hcap, Harea.
      split; symmetry; assumption. }
    rewrite HT1, HT2, HR1, HR2, Htm1, Htm2, Hrc1, Hrc2, Hf1, Hf2, Ht1, Ht2, Hcap1, Hcap2,
      Htr, Hq1, Hq2.
    repeat split; assumption.
Qed.

(** * The filter on an empty mask *)

Lemma indicatorClear_nth mask j :
  indicatorClear mask -> nth (3 * j) mask 0 = 0.
Proof.
  intros Hclear. destruct (Nat.lt_ge_cases (3 * j) (length mask)) as [Hin|Hout].
  - rewrite (Nat.mul_comm 3 j). apply Hclear. unfold kBytesPerPixel. lia.
  - apply nth_overflow. exact Hout.
Qed.

Lemma peek_clear beyond mask z :
  (forall i : Z, beyond i <= 0) -> indicatorClear mask ->
  (exists q : Z, z = 3 * q) -> peek beyond mask z <= 0.
Proof.
  intros Hzero Hclear [q ->]. unfold peek.
  destruct ((0 <=? 3 * q) && (3 * q <? Z.of_nat (length mask))) eqn:Hin;
    [|apply Hzero].
  apply andb_true_iff in Hin. destruct Hin as [H0 _]. apply Z.leb_le in H0.
  replace (Z.to_nat (3 * q)) with (3 * Z.to_nat q)%nat by lia.
  rewrite (indicatorClear_nth _ _ Hclear). lia.
Qed.

Lemma activeNeighbors_off beyond mask bmp x y offs :
  Forall (fun it => peek beyond mask (bmp + offP it) <= 0) offs ->
  activeNeighbors beyond mask bmp x y offs = false.
Proof.
  induction 1 as [|it rest Hit _ IH]; [reflexivity|].
  cbn [activeNeighbors].
  replace (peek beyond mask (bmp + offP it) >? 0) with false by lia.
  rewrite andb_false_r. exact IH.
Qed.

Lemma dilatePass_clear beyond width (w : nat) mask n :
  (forall i : Z, beyond i <= 0) -> indicatorClear mask ->
  forall k x y eroded i,
    (i < n)%nat ->
    nth (3 * i)
      (dilatePass beyond (pixelOffsets 3 w) width mask n (3 * k) x y eroded) 0 = 0.
Proof.
  intros Hzero Hclear.
  induction n as [|n IH]; intros k x y eroded i Hi; [lia|].
  cbn [dilatePass]. cbv zeta.
  destruct (nextCoordinates width x y) as [x1 y1].
  destruct i as [|i].
  - rewrite Nat.mul_0_r. cbn [app nth].
    rewrite (indicatorClear_nth _ _ Hclear). cbn [Z.gtb Z.compare].
    rewrite activeNeighbors_off; [reflexivity|].
    unfold pixelOffsets. cbv zeta.
    repeat constructor; cbn [offP]; apply peek_clear; try assumption.
    + exists (Z.of_nat k - 1). lia.
    + exists (Z.of_nat k + 1). lia.
    + exists (Z.of_nat k - Z.of_nat w - 1). lia.
    + exists (Z.of_nat k - Z.of_nat w). lia.
    + exists (Z.of_nat k - Z.of_nat w + 1). lia.
    + exists (Z.of_nat k - Z.of_nat w - 1). lia.
    + exists (Z.of_nat k - Z.of_nat w). lia.
    + exists (Z.of_nat k - Z.of_nat w + 1). lia.
  - replace (3 * S i)%nat with (S (S (S (3 * i)))) by lia.
    cbn [app nth].
    replace (3 * k + kBytesPerPixel)%nat with (3 * S k)%nat
      by (unfold kBytesPerPixel; lia).
    apply IH. lia.
Qed.

(** X18. When no pixel of the mask is on and memory outside the mask
    reads as zero, the morphological filter returns a mask with no pixel
    on, at every erosion level: erosion turns nothing on, and dilation
    finds no active neighbour. *)
Theorem filter_keeps_an_empty_mask_empty :
  forall (beyond : Z -> Z) (frameWidth frameHeight : nat) (me : MotionExtractor),
    coherent frameWidth frameHeight me ->
    (forall i : Z, beyond i <= 0) ->
    indicatorClear (getPixels (motionMask me)) ->
    indicatorClear (getPixels (motionMask (erosion beyond me))) /\
    indicatorClear (getPixels (motionMask (morphologicalFilter beyond me))).
Proof.
  intros beyond fw fh me Hcoh Hzero Hclear.
  destruct (coherent_steps _ _ _ Hcoh) as [Hn Hs].
  assert (indicatorClear (getPixels (motionMask (erosion beyond me)))) as Heroded.
  { intros i Hi.
    pose proof (erosion_coherent beyond _ _ _ Hcoh) as Hcoh1.
    rewrite (coh_motionMask _ _ _ Hcoh1) in Hi.
    change (imageSize (erosion beyond me)) with (imageSize me) in Hi.
    unfold kBytesPerPixel in Hi.
    destruct (erosion_pixel beyond _ _ me i Hcoh ltac:(lia)) as ([He|[Hpos _]] & _).
    - unfold indicatorAt, channelAt in He. rewrite Nat.add_0_r in He. exact He.
    - exfalso. unfold indicatorAt, channelAt, kBytesPerPixel in Hpos.
      rewrite Nat.add_0_r, (Nat.mul_comm i 3), (indicatorClear_nth _ _ Hclear) in Hpos.
      lia. }
  split; [exact Heroded|].
  unfold morphologicalFilter. destruct (erosionLevel me >? 0); [|exact Hclear].
  intros i Hi. unfold kBytesPerPixel. rewrite (Nat.mul_comm i 3).
  cbn [dilation motionMask set_motionMask getPixels withPixels].
  change (offs (erosion beyond me)) with (offs me).
  rewrite (coh_offs _ _ _ Hcoh).
  unfold getTotalSize at 1. rewrite (coh_motionMask _ _ _ Hcoh), Hn.
  apply (dilatePass_clear beyond _ (imageWidth me) _ (imageArea me) Hzero Heroded
           0%nat 0 0).
  pose proof (morphologicalFilter_coherent beyond _ _ _ Hcoh) as Hcohf.
  unfold morphologicalFilter in Hcohf.
  revert Hi. cbn [dilation motionMask set_motionMask getPixels withPixels].
  unfold getTotalSize. rewrite (coh_motionMask _ _ _ Hcoh), Hn.
  rewrite dilatePass_length; unfold kBytesPerPixel;
    [lia|rewrite (coh_erodedMask _ _ _ (erosion_coherent beyond _ _ _ Hcoh))].
  change (imageSize (erosion beyond me)) with (imageSize me). exact Hs.
Qed.

(** * The filter at the first pixel of the mask *)

Lemma activeNeighbors_top_left beyond mask (w : nat) :
  (2 <= w)%nat ->
  activeNeighbors beyond mask 0 0 0 (pixelOffsets 3 w)
    = (beyond (3 - 3 * Z.of_nat w) >? 0).
Proof.
  intros Hw. unfold pixelOffsets. cbv zeta.
  cbn [activeNeighbors offX offY offP].
  change (0 + -1 >? 0) with false. change (0 + 0 >? 0) with false.
  change (0 + 1 >? 0) with true.
  cbn [andb].
  replace (0 + (- Z.of_nat (3 * w) + Z.of_nat 3)) with (3 - 3 * Z.of_nat w) by lia.
  unfold peek.
  replace (0 <=? 3 - 3 * Z.of_nat w) with false by lia.
  cbn [andb]. destruct (beyond (3 - 3 * Z.of_nat w) >? 0); reflexivity.
Qed.

Lemma dilatePass_first beyond offs width mask n eroded :
  nth 0 (dilatePass beyond offs width mask (S n) 0 0 0 eroded) 0
    = if nth 0 mask 0 >? 0 then nth 0 mask 0
      else if activeNeighbors beyond mask 0 0 0 offs then 255 else 0.
Proof.
  cbn [dilatePass]. cbv zeta.
  destruct (nextCoordinates width 0 0) as [x1 y1]. reflexivity.
Qed.

(** X19. With an erosion level above 0 and a mask at least two pixels
    wide, the indicator the filter returns for the first pixel of the
    mask, when that pixel is off, is decided by a byte that lies before
    the mask in memory: the only entry of the offset table that passes
    the coordinate test there is the neighbour below and to the right,
    whose byte offset points one row up. The pixel comes back on
    exactly when that byte is above 0. *)
Theorem first_pixel_follows_memory_before_the_mask :
  forall (beyond : Z -> Z) (frameWidth frameHeight : nat) (me : MotionExtractor),
    coherent frameWidth frameHeight me ->
    (2 <= imageWidth me)%nat ->
    (1 <= imageHeight me)%nat ->
    0 < erosionLevel me ->
    indicatorAt (getPixels (motionMask me)) 0 <= 0 ->
    indicatorAt (getPixels (motionMask (morphologicalFilter beyond me))) 0
      = if beyond (3 - 3 * Z.of_nat (imageWidth me)) >? 0 then 255 else 0.
Proof.
  intros beyond fw fh me Hcoh Hw Hh Hlvl Hoff.
  destruct (coherent_steps _ _ _ Hcoh) as [Hn Hs].
  assert (0 < imageArea me)%nat as Harea
    by (rewrite (coh_imageArea _ _ _ Hcoh); nia).
  destruct (erosion_pixel beyond _ _ me 0%nat Hcoh Harea) as ([He|[Hpos _]] & _);
    [|lia].
  unfold morphologicalFilter.
  replace (erosionLevel me >? 0) with true by lia.
  unfold indicatorAt, channelAt in *. rewrite Nat.mul_0_l, Nat.add_0_l in *.
  cbn [dilation motionMask set_motionMask getPixels withPixels].
  change (offs (erosion beyond me)) with (offs me).
  unfold getTotalSize at 1. rewrite (coh_motionMask _ _ _ Hcoh), Hn.
  destruct (imageArea me) as [|n] eqn:Hsome; [lia|].
  rewrite dilatePass_first.
  cbn [erosion motionMask set_motionMask getPixels withPixels] in He.
  cbn [erosion motionMask set_motionMask set_erodedMask getPixels withPixels].
  rewrite He. cbn [Z.gtb Z.compare].
  rewrite (coh_offs _ _ _ Hcoh).
  rewrite (activeNeighbors_top_left beyond _ (imageWidth me) Hw). reflexivity.
Qed.

(** * Changed pixels and promoted pixels *)

(** X20. In a call after the first, a pixel whose downscaled sample
    differs from its tracked pixel keeps its reference pixel and its
    stability record, and its indicator, before the filter, tells
    whether the sample differs from that reference pixel. A pixel whose
    reference pixel is rewritten in the call gets the indicator 0. *)
Theorem changed_pixel_is_compared_with_reference :
  forall (beyond : Z -> Z) (frameWidth frameHeight : nat) (me : MotionExtractor)
         (frame : VideoFrame),
    reachable frameWidth frameHeight me ->
    firstFrame me = false ->
    exists down me' : MotionExtractor,
      downscale beyond me frame = Some down /\
      generateMotionMask beyond me frame = Some me' /\
      me' = morphologicalFilter beyond (updateModel down) /\
      forall i : nat, (i < imageArea me)%nat ->
        (pixelIsDifferent (getSensitivity me)
           (pixelAt (getPixels (downscaleBuff down)) i)
           (pixelAt (getPixels (currentImage me)) i) = true ->
         (forall c : nat, (c < 3)%nat ->
            channelAt (getPixels (refImage me')) i c
              = channelAt (getPixels (refImage me)) i c) /\
         nth i (stableRecords me') 0 = nth i (stableRecords me) 0 /\
         indicatorAt (getPixels (motionMask (updateModel down))) i
           = if pixelIsDifferent (getSensitivity me)
                  (pixelAt (getPixels (downscaleBuff down)) i)
                  (pixelAt (getPixels (refImage me)) i)
             then 255 else 0) /\
        (nth i (currentStableTimes me') 0 > nth i (stableRecords me) 0 ->
         indicatorAt (getPixels (motionMask (updateModel down))) i = 0).
Proof.
  intros beyond fw fh me frame Hreach Hfirst.
  pose proof (reachable_sound _ _ _ Hreach) as Hs.
  pose proof (reachable_records_nonnegative _ _ _ Hreach) as Hnon.
  pose proof (sound_threshold _ _ _ Hs) as Hthr.
  destruct (later_call beyond fw fh me frame Hs Hfirst)
    as (down & model & Hd & Hgen & -> & _ & _ & _ & Hpx).
  exists down, (morphologicalFilter beyond (updateModel down)).
  split; [exact Hd|]. split; [exact Hgen|]. split; [reflexivity|].
  intros i Hi.
  destruct (morphologicalFilter_model beyond (updateModel down))
    as (_ & HR & Htm & Hrc & _).
  rewrite HR, Htm, Hrc.
  destruct (Hpx i Hi) as (Htime & Hch & Href & Hind & _ & Hrec).
  cbv zeta in Htime, Hch, Href, Hind, Hrec.
  unfold getSensitivity.
  assert (0 <= nth i (stableRecords me) 0) as Hrec0.
  { destruct (Nat.lt_ge_cases i (length (stableRecords me))) as [Hin|Hout].
    - exact (proj1 (List.Forall_forall _ _) Hnon _ (nth_In _ 0 Hin)).
    - rewrite nth_overflow by exact Hout. lia. }
  split.
  - intros Hdiff. rewrite Hdiff in Htime, Hch.
    rewrite Htime in Href, Hrec.
    replace (0 >? nth i (stableRecords me) 0) with false in Href, Hrec by lia.
    split; [exact Href|]. split; [exact Hrec|].
    rewrite Hind.
    rewrite (pixelIsDifferent_sym _ (pixelAt (getPixels (downscaleBuff down)) i)).
    rewrite (pixelIsDifferent_ext (motionThreshold me)
               (pixelAt (getPixels (refImage (updateModel down))) i)
               (pixelAt (getPixels (refImage me)) i)
               (pixelAt (getPixels (currentImage (updateModel down))) i)
               (pixelAt (getPixels (downscaleBuff down)) i)); [reflexivity| |];
      intros c Hc; rewrite !channelAt_pixelAt; auto.
  - intros Hprom. rewrite Hind.
    replace (nth i (currentStableTimes (updateModel down)) 0
             >? nth i (stableRecords me) 0) with true in Href by lia.
    rewrite (proj2 (pixelIsDifferent_false _ _ _)); [reflexivity|].
    intros c Hc. rewrite !channelAt_pixelAt, (Href c Hc), Z.sub_diag. simpl. lia.
Qed.

(** * A change of parameters restarts the model *)

(** X21. When a setter or [load] returns normally, the extractor keeps
    its images and its mask but is back at the first frame: the next
    call returns a mask with no pixel on and takes the downscaled frame
    as both the tracked and the reference image. *)
Theorem parameter_change_restarts_learning :
  forall (beyond : Z -> Z) (frameWidth frameHeight : nat) (me st : MotionExtractor)
         (frame : VideoFrame),
    reachable frameWidth frameHeight me ->
    (exists v : Z, setSensitivity v me = (st, inr tt)) \/
    (exists t : float, setSettleTime t me = (st, inr tt)) \/
    (exists e : Z, setErosion e me = (st, inr tt)) \/
    (exists p : gmap string JsonValue, load p me = (st, inr tt)) ->
    currentImage st = currentImage me /\
    refImage st = refImage me /\
    motionMask st = motionMask me /\
    firstFrame st = true /\
    exists down me' : MotionExtractor,
      downscale beyond st frame = Some down /\
      generateMotionMask beyond st frame = Some me' /\
      indicatorClear (getPixels (motionMask me')) /\
      getPixels (currentImage me') = getPixels (downscaleBuff down) /\
      getPixels (refImage me') = getPixels (downscaleBuff down).
Proof.
  intros beyond fw fh me st frame Hreach Hset.
  assert (reachable fw fh st /\ currentImage st = currentImage me /\
          refImage st = refImage me /\ motionMask st = motionMask me /\
          firstFrame st = true) as (Hst & HT & HR & HM & Hff).
  { destruct Hset as [[v Hv]|[[t Ht]|[[e He]|[p Hp]]]].
    - split; [replace st with (fst (setSensitivity v me)) by (rewrite Hv; reflexivity);
             apply reach_setSensitivity, Hreach|].
      destruct (setSensitivity_cases v me) as [Hc|[_ Hc]]; rewrite Hc in Hv;
        [discriminate|]. injection Hv as <-. repeat split.
    - split; [replace st with (fst (setSettleTime t me)) by (rewrite Ht; reflexivity);
             apply reach_setSettleTime, Hreach|].
      destruct (setSettleTime_cases t me) as [Hc|Hc]; rewrite Hc in Ht;
        [discriminate|]. injection Ht as <-. repeat split.
    - split; [replace st with (fst (setErosion e me)) by (rewrite He; reflexivity);
             apply reach_setErosion, Hreach|].
      destruct (setErosion_cases e me) as [Hc|[_ Hc]]; rewrite Hc in He;
        [discriminate|]. injection He as <-. repeat split.
    - split; [replace st with (fst (load p me)) by (rewrite Hp; reflexivity);
             apply reach_load, Hreach|].
      destruct (load_cases p me) as [[exn Hc]|(si & td & ei & _ & _ & Hc)];
        rewrite Hc in Hp; [discriminate|]. injection Hp as <-. repeat split. }
  split; [exact HT|]. split; [exact HR|]. split; [exact HM|]. split; [exact Hff|].
  pose proof (sound_coherent _ _ _ (reachable_sound _ _ _ Hst)) as Hcoh.
  destruct (first_call beyond fw fh st frame Hcoh Hff)
    as (down & me' & Hd & Hgen & Hclear & HT' & HR' & _).
  exists down, me'. auto.
Qed.

(** * The properties at concrete inputs *)

Lemma zeros_clear (l : list Z) : Forall (fun z => z = 0) l -> indicatorClear l.
Proof.
  intros Hz i Hi.
  exact (proj1 (List.Forall_forall _ _) Hz _ (nth_In _ 0 Hi)).
Qed.

Lemma staleBackgroundUnfiltered_reachable : reachable 2 2 staleBackgroundUnfiltered.
Proof.
  apply (feed_reachable (fun _ => 0) 2 2 (mkFrame 2 2 3 (replicate 12 0)) 2
           (fst (setErosion 0 (MotionExtractor_new (fun _ _ => 0) 2 2 1%float)))).
  - apply reach_setErosion, reach_new.
  - vm_compute. reflexivity.
Defined.

Lemma every_call_returns_witness :
  exists me' : MotionExtractor,
    generateMotionMask (fun _ => 0) staleBackground brightFrame = Some me' /\
    coherent 2%nat 2%nat me' /\
    firstFrame me' = false /\
    getSensitivity me' = getSensitivity staleBackground /\
    stableCap me' = stableCap staleBackground /\
    getErosion me' = getErosion staleBackground /\
    fps me' = fps staleBackground.
Proof.
  apply (every_call_returns (fun _ => 0) 2 2 staleBackground brightFrame).
  - exact staleBackground_reachable.
  - reflexivity.
Defined.

Lemma tracked_pixel_follows_sample_witness :
  exists down me' : MotionExtractor,
    downscale (fun _ => 0) staleBackground brightFrame = Some down /\
    generateMotionMask (fun _ => 0) staleBackground brightFrame = Some me' /\
    forall i : nat, (i < imageArea staleBackground)%nat ->
      if pixelIsDifferent (getSensitivity staleBackground)
           (pixelAt (getPixels (downscaleBuff down)) i)
           (pixelAt (getPixels (currentImage staleBackground)) i)
      then
        nth i (currentStableTimes me') 0 = 0 /\
        forall c : nat, (c < 3)%nat ->
          channelAt (getPixels (currentImage me')) i c
            = channelAt (getPixels (downscaleBuff down)) i c
      else
        nth i (currentStableTimes me') 0
          = u32 (nth i (currentStableTimes staleBackground) 0 + 1) /\
        forall c : nat, (c < 3)%nat ->
          channelAt (getPixels (currentImage me')) i c
            = channelAt (getPixels (currentImage staleBackground)) i c
              + Z.sgn (channelAt (getPixels (downscaleBuff down)) i c
                       - channelAt (getPixels (currentImage staleBackground)) i c).
Proof.
  apply (tracked_pixel_follows_sample (fun _ => 0) 2 2 staleBackground brightFrame).
  - exact staleBackground_reachable.
  - vm_compute. reflexivity.
Defined.

Lemma tracked_image_within_sensitivity_witness :
  exists down me' : MotionExtractor,
    downscale (fun _ => 0) staleBackground brightFrame = Some down /\
    generateMotionMask (fun _ => 0) staleBackground brightFrame = Some me' /\
    forall i c : nat,
      Z.abs (channelAt (getPixels (downscaleBuff down)) i c
             - channelAt (getPixels (currentImage me')) i c)
        <= getSensitivity staleBackground.
Proof.
  apply (tracked_image_within_sensitivity (fun _ => 0) 2 2 staleBackground brightFrame).
  exact staleBackground_reachable.
Defined.

Lemma reference_pixel_promoted_on_new_record_witness :
  exists me' : MotionExtractor,
    generateMotionMask (fun _ => 0) staleBackground brightFrame = Some me' /\
    forall i : nat, (i < imageArea staleBackground)%nat ->
      nth i (stableRecords staleBackground) 0 <= nth i (stableRecords me') 0 /\
      forall c : nat, (c < 3)%nat ->
        channelAt (getPixels (refImage me')) i c
          = if nth i (currentStableTimes me') 0 >? nth i (stableRecords staleBackground) 0
            then channelAt (getPixels (currentImage me')) i c
            else channelAt (getPixels (refImage staleBackground)) i c.
Proof.
  apply (reference_pixel_promoted_on_new_record (fun _ => 0) 2 2 staleBackground
           brightFrame).
  - exact staleBackground_reachable.
  - vm_compute. reflexivity.
Defined.

Lemma indicator_compares_reference_and_tracked_witness :
  exists down me' : MotionExtractor,
    downscale (fun _ => 0) staleBackground brightFrame = Some down /\
    generateMotionMask (fun _ => 0) staleBackground brightFrame = Some me' /\
    me' = morphologicalFilter (fun _ => 0) (updateModel down) /\
    forall i : nat, (i < imageArea staleBackground)%nat ->
      indicatorAt (getPixels (motionMask (updateModel down))) i
        = (if pixelIsDifferent (getSensitivity staleBackground)
                (pixelAt (getPixels (refImage me')) i)
                (pixelAt (getPixels (currentImage me')) i)
           then 255 else 0) /\
      (getErosion staleBackground = 0 ->
       indicatorAt (getPixels (motionMask me')) i
         = indicatorAt (getPixels (motionMask (updateModel down))) i).
Proof.
  apply (indicator_compares_reference_and_tracked (fun _ => 0) 2 2 staleBackground
           brightFrame).
  - exact staleBackground_reachable.
  - vm_compute. reflexivity.
Defined.

Lemma returned_indicator_is_binary_witness :
  exists me' : MotionExtractor,
    generateMotionMask (fun _ => 0) staleBackground brightFrame = Some me' /\
    forall i : nat, (i < imageArea staleBackground)%nat ->
      (indicatorAt (getPixels (motionMask me')) i = 0 \/
       indicatorAt (getPixels (motionMask me')) i = 255) /\
      channelAt (getPixels (motionMask me')) i 1
        = channelAt (getPixels (motionMask staleBackground)) i 1 /\
      channelAt (getPixels (motionMask me')) i 2
        = channelAt (getPixels (motionMask staleBackground)) i 2.
Proof.
  apply (returned_indicator_is_binary (fun _ => 0) 2 2 staleBackground brightFrame).
  exact staleBackground_reachable.
Defined.

Lemma erosion_shrinks_and_dilation_grows_witness :
  (0 < indicatorAt (getPixels (motionMask (erosion (fun _ => 255) newExtractor))) 0%nat ->
   indicatorAt (getPixels (motionMask (erosion (fun _ => 255) newExtractor))) 0%nat
     = indicatorAt (getPixels (motionMask newExtractor)) 0%nat) /\
  (indicatorAt (getPixels (motionMask newExtractor)) 0%nat <= 0 ->
   indicatorAt (getPixels (motionMask (erosion (fun _ => 255) newExtractor))) 0%nat = 0) /\
  (0 < indicatorAt (getPixels (motionMask newExtractor)) 0%nat ->
   indicatorAt (getPixels (motionMask (dilation (fun _ => 255) (imageSize newExtractor)
                                 newExtractor))) 0%nat
     = indicatorAt (getPixels (motionMask newExtractor)) 0%nat) /\
  (forall c : nat, (0 < c < 3)%nat ->
     channelAt (getPixels (motionMask (erosion (fun _ => 255) newExtractor))) 0%nat c
       = channelAt (getPixels (motionMask newExtractor)) 0%nat c /\
     channelAt (getPixels (motionMask (dilation (fun _ => 255) (imageSize newExtractor)
                                 newExtractor))) 0%nat c
       = channelAt (getPixels (motionMask newExtractor)) 0%nat c).
Proof.
  apply (erosion_shrinks_and_dilation_grows (fun _ => 255) 4 4 newExtractor 0).
  - apply new_coherent.
  - apply (bool_decide_unpack _). vm_compute. exact I.
Defined.

Lemma settled_background_marks_changed_pixels_witness :
  exists down me' : MotionExtractor,
    downscale (fun _ => 0) staleBackground brightFrame = Some down /\
    generateMotionMask (fun _ => 0) staleBackground brightFrame = Some me' /\
    me' = morphologicalFilter (fun _ => 0) (updateModel down) /\
    forall i : nat, (i < imageArea staleBackground)%nat ->
      indicatorAt (getPixels (motionMask (updateModel down))) i
        = if pixelIsDifferent (getSensitivity staleBackground)
               (pixelAt (getPixels (downscaleBuff down)) i)
               (pixelAt (getPixels (refImage staleBackground)) i)
          then 255 else 0.
Proof.
  apply (settled_background_marks_changed_pixels (fun _ => 0) 2 2 staleBackground
           brightFrame).
  - exact staleBackground_reachable.
  - vm_compute. reflexivity.
  - vm_compute. reflexivity.
Defined.

Lemma downscale_depends_on_frame_only_witness :
  exists down1 down2 : MotionExtractor,
    downscale (fun _ => 0) staleBackground brightFrame = Some down1 /\
    downscale (fun _ => 255) otherExtractor brightFrame = Some down2 /\
    getPixels (downscaleBuff down1) = getPixels (downscaleBuff down2) /\
    down1 = set_downscaleBuff
              (set_downscaleAccumulators staleBackground (downscaleAccumulators down1))
              (downscaleBuff down1).
Proof.
  apply (downscale_depends_on_frame_only (fun _ => 0) (fun _ => 255) 2 2
           staleBackground otherExtractor brightFrame).
  - exact staleBackground_reachable.
  - apply reach_new.
  - reflexivity.
  - apply (bool_decide_unpack _). vm_compute. exact I.
Defined.

Lemma downscaled_sample_within_block_witness :
  exists down : MotionExtractor,
    downscale (fun _ => 0) staleBackground brightFrame = Some down /\
    forall x y c : nat,
      (x < 2%nat / 2)%nat -> (y < 2%nat / 2)%nat -> (c < 3)%nat ->
      let s00 := sample 2%nat (getPixels brightFrame) (2 * x) (2 * y) c in
      let s10 := sample 2%nat (getPixels brightFrame) (2 * x + 1) (2 * y) c in
      let s01 := sample 2%nat (getPixels brightFrame) (2 * x) (2 * y + 1) c in
      let s11 := sample 2%nat (getPixels brightFrame) (2 * x + 1) (2 * y + 1) c in
      Z.min (Z.min s00 s10) (Z.min s01 s11)
        <= sample (2%nat / 2) (getPixels (downscaleBuff down)) x y c
        <= Z.max (Z.max s00 s10) (Z.max s01 s11).
Proof.
  apply (downscaled_sample_within_block (fun _ => 0) 2 2 staleBackground brightFrame).
  - exact staleBackground_reachable.
  - reflexivity.
  - apply (bool_decide_unpack _). vm_compute. exact I.
Defined.

Lemma saved_settings_load_back_witness :
  (forall key : string,
     key <> "sensitivity"%string -> key <> "settle time"%string ->
     key <> "erosion level"%string ->
     save staleBackground emptyObject !! key = emptyObject !! key) /\
  snd (load (save staleBackground emptyObject) newExtractor) = inr tt /\
  getSensitivity (fst (load (save staleBackground emptyObject) newExtractor))
    = getSensitivity staleBackground /\
  getErosion (fst (load (save staleBackground emptyObject) newExtractor))
    = getErosion staleBackground /\
  stableCap (fst (load (save staleBackground emptyObject) newExtractor))
    = double2uint (ceil (getSettleTime staleBackground * fps newExtractor)%float) /\
  firstFrame (fst (load (save staleBackground emptyObject) newExtractor)) = true.
Proof.
  apply (saved_settings_load_back 2 2 staleBackground newExtractor emptyObject).
  - exact staleBackground_reachable.
  - vm_compute. reflexivity.
  - vm_compute. reflexivity.
Defined.

Lemma reset_forgets_history_witness :
  exists after1 after2 : MotionExtractor,
    generateMotionMask (fun _ => 0) (reset staleBackground) brightFrame = Some after1 /\
    generateMotionMask (fun _ => 255) (reset otherExtractor) brightFrame = Some after2 /\
    getPixels (currentImage after1) = getPixels (currentImage after2) /\
    getPixels (refImage after1) = getPixels (currentImage after1) /\
    getPixels (refImage after2) = getPixels (currentImage after2) /\
    currentStableTimes after1 = replicate (imageArea staleBackground) 0 /\
    currentStableTimes after2 = currentStableTimes after1 /\
    stableRecords after1 = replicate (imageArea staleBackground) 0 /\
    stableRecords after2 = stableRecords after1 /\
    indicatorClear (getPixels (motionMask after1)) /\
    indicatorClear (getPixels (motionMask after2)).
Proof.
  apply (reset_forgets_history (fun _ => 0) (fun _ => 255) 2 2
           staleBackground otherExtractor brightFrame).
  - exact staleBackground_reachable.
  - apply reach_new.
  - reflexivity.
  - apply (bool_decide_unpack _). vm_compute. exact I.
Defined.

Lemma model_is_independent_of_the_filter_witness :
  exists after1 after2 : MotionExtractor,
    generateMotionMask (fun _ => 0) staleBackground brightFrame = Some after1 /\
    generateMotionMask (fun _ => 255) staleBackgroundUnfiltered brightFrame = Some after2 /\
    sameModel after1 after2.
Proof.
  apply (model_is_independent_of_the_filter (fun _ => 0) (fun _ => 255) 2 2
           staleBackground staleBackgroundUnfiltered brightFrame).
  - exact staleBackground_reachable.
  - exact staleBackgroundUnfiltered_reachable.
  - reflexivity.
  - apply (bool_decide_unpack _). vm_compute. exact I.
  - unfold sameModel.
    split; [vm_compute; reflexivity|]. split; [vm_compute; reflexivity|].
    split; [vm_compute; reflexivity|]. split; [vm_compute; reflexivity|].
    split; [vm_compute; reflexivity|]. split; vm_compute; reflexivity.
Defined.

Lemma filter_keeps_an_empty_mask_empty_witness :
  indicatorClear (getPixels (motionMask (erosion (fun _ => 0) newExtractor))) /\
  indicatorClear (getPixels (motionMask (morphologicalFilter (fun _ => 0) newExtractor))).
Proof.
  apply (filter_keeps_an_empty_mask_empty (fun _ => 0) 4 4 newExtractor).
  - apply new_coherent.
  - intros i. cbv beta. lia.
  - apply zeros_clear. apply (bool_decide_unpack _). vm_compute. exact I.
Defined.

Lemma first_pixel_follows_memory_before_the_mask_witness :
  indicatorAt (getPixels (motionMask (morphologicalFilter (fun _ => 255) newExtractor))) 0
    = if (fun _ => 255) (3 - 3 * Z.of_nat (imageWidth newExtractor)) >? 0 then 255 else 0.
Proof.
  apply (first_pixel_follows_memory_before_the_mask (fun _ => 255) 4 4 newExtractor).
  - apply new_coherent.
  - apply (bool_decide_unpack _). vm_compute. exact I.
  - apply (bool_decide_unpack _). vm_compute. exact I.
  - apply (bool_decide_unpack _). vm_compute. exact I.
  - apply (bool_decide_unpack _). vm_compute. exact I.
Defined.

Lemma changed_pixel_is_compared_with_reference_witness :
  exists down me' : MotionExtractor,
    downscale (fun _ => 0) staleBackground brightFrame = Some down /\
    generateMotionMask (fun _ => 0) staleBackground brightFrame = Some me' /\
    me' = morphologicalFilter (fun _ => 0) (updateModel down) /\
    forall i : nat, (i < imageArea staleBackground)%nat ->
      (pixelIsDifferent (getSensitivity staleBackground)
         (pixelAt (getPixels (downscaleBuff down)) i)
         (pixelAt (getPixels (currentImage staleBackground)) i) = true ->
       (forall c : nat, (c < 3)%nat ->
          channelAt (getPixels (refImage me')) i c
            = channelAt (getPixels (refImage staleBackground)) i c) /\
       nth i (stableRecords me') 0 = nth i (stableRecords staleBackground) 0 /\
       indicatorAt (getPixels (motionMask (updateModel down))) i
         = if pixelIsDifferent (getSensitivity staleBackground)
                (pixelAt (getPixels (downscaleBuff down)) i)
                (pixelAt (getPixels (refImage staleBackground)) i)
           then 255 else 0) /\
      (nth i (currentStableTimes me') 0 > nth i (stableRecords staleBackground) 0 ->
       indicatorAt (getPixels (motionMask (updateModel down))) i = 0).
Proof.
  apply (changed_pixel_is_compared_with_reference (fun _ => 0) 2 2 staleBackground
           brightFrame).
  - exact staleBackground_reachable.
  - vm_compute. reflexivity.
Defined.

Lemma parameter_change_restarts_learning_witness :
  currentImage (fst (setErosion 0 staleBackground)) = currentImage staleBackground /\
  refImage (fst (setErosion 0 staleBackground)) = refImage staleBackground /\
  motionMask (fst (setErosion 0 staleBackground)) = motionMask staleBackground /\
  firstFrame (fst (setErosion 0 staleBackground)) = true /\
  exists down me' : MotionExtractor,
    downscale (fun _ => 0) (fst (setErosion 0 staleBackground)) brightFrame = Some down /\
    generateMotionMask (fun _ => 0) (fst (setErosion 0 staleBackground)) brightFrame = Some me' /\
    indicatorClear (getPixels (motionMask me')) /\
    getPixels (currentImage me') = getPixels (downscaleBuff down) /\
    getPixels (refImage me') = getPixels (downscaleBuff down).
Proof.
  apply (parameter_change_restarts_learning (fun _ => 0) 2 2 staleBackground
           (fst (setErosion 0 staleBackground)) brightFrame).
  - exact staleBackground_reachable.
  - right. right. left. exists 0. vm_compute. reflexivity.
Defined.
